(** * Layout QA engine: page geometry, coverage and the gate algorithms

    A shallow embedding of the validators under [new_pipeline/validate] and
    [bookgen/src/validate], with the properties of the layout specification
    stated and settled against it.

    Conventions of the embedding.
    - Python [float] values are rationals ([Q]) and float arithmetic is exact
      rational arithmetic; results are compared with [==].  The interpreter
      rounds every sum, product and quotient to a binary float, so the
      properties are stated about the values a validator itself computes
      (its ratios, coverages and gaps), about their order and about the
      decisions taken on them; none relies on an identity between two
      differently computed values that only exact arithmetic has.
    - Python [int] values are [Z].
    - Python [str] values are lists of Unicode code points ([list N]).
    - [dict] is [gmap] where only lookups matter, and an association list
      where iteration order decides the order of the output.
    - [set] is [gset]. *)

From Stdlib Require Import QArith Qminmax Qround ZArith NArith List Bool Lia.
From Stdlib Require Import String Ascii Permutation Sorting.Sorted Lqa Qabs.
From stdpp Require Import base option list gmap.

Import ListNotations.

(** ** Python strings *)

Module Py.

Definition char : Type := N.
Definition str : Type := list N.

(** An ASCII literal of the source as a [str]. *)
Definition lit (s : string) : str :=
  List.map N_of_ascii (list_ascii_of_string s).

Definition in_range (lo hi c : N) : bool := ((lo <=? c) && (c <=? hi))%N.

(** [str.isspace] on one code point; it is also what [\s] matches in a
    [str] pattern and what [str.strip] removes. *)
Definition isspace (c : char) : bool :=
  in_range 9 13 c || in_range 28 32 c || (c =? 133)%N || (c =? 160)%N
  || (c =? 5760)%N || in_range 8192 8202 c || (c =? 8232)%N || (c =? 8233)%N
  || (c =? 8239)%N || (c =? 8287)%N || (c =? 12288)%N.

Fixpoint lstrip (s : str) : str :=
  match s with
  | [] => []
  | c :: s' => if isspace c then lstrip s' else s
  end.

Definition rstrip (s : str) : str := rev (lstrip (rev s)).

Definition strip (s : str) : str := rstrip (lstrip s).

(** Line boundaries of [str.splitlines], apart from CR. *)
Definition is_linebreak (c : char) : bool :=
  (c =? 10)%N || (c =? 11)%N || (c =? 12)%N || in_range 28 30 c
  || (c =? 133)%N || (c =? 8232)%N || (c =? 8233)%N.

Fixpoint splitlines_go (cur : str) (s : str) : list str :=
  match s with
  | [] => match cur with [] => [] | _ => [rev cur] end
  | c :: s' =>
      if (c =? 13)%N then
        match s' with
        | c' :: s'' =>
            if (c' =? 10)%N then rev cur :: splitlines_go [] s''
            else rev cur :: splitlines_go [] s'
        | [] => rev cur :: splitlines_go [] s'
        end
      else if is_linebreak c then rev cur :: splitlines_go [] s'
      else splitlines_go (c :: cur) s'
  end.

Definition splitlines (s : str) : list str := splitlines_go [] s.

(** [s.startswith(p)] *)
Fixpoint startswith (p s : str) : bool :=
  match p, s with
  | [], _ => true
  | _ :: _, [] => false
  | a :: p', b :: s' => (a =? b)%N && startswith p' s'
  end.

(** [sep.join(parts)] *)
Fixpoint join (sep : str) (parts : list str) : str :=
  match parts with
  | [] => []
  | p :: rest =>
      match rest with
      | [] => p
      | _ :: _ => p ++ sep ++ join sep rest
      end
  end.

(** The ASCII digits, a part of what [str.isdigit] accepts. *)
Definition in_range_digit (c : char) : bool := in_range 48 57 c.

(** [list.sort] and [sorted] are stable; the model is the stable insertion
    sort for the strict order [lt] of the keys. *)
Fixpoint insert_by {A : Type} (lt : A -> A -> bool) (x : A) (l : list A) : list A :=
  match l with
  | [] => [x]
  | y :: l' => if lt y x then y :: insert_by lt x l' else x :: y :: l'
  end.

Definition sorted_by {A : Type} (lt : A -> A -> bool) (l : list A) : list A :=
  foldr (insert_by lt) [] l.

End Py.

(** ** The fragment of [re] the validators use

    Every quantifier of the source's patterns applies to a single character
    or character class, and its groups are not nested, so a pattern is a
    sequence of items.  [exec] is the backtracking matcher: greedy
    quantifiers try the longest repetition first, lazy ones the shortest. *)

Module Re.
Import Py.

Inductive item : Type :=
| Lit (c : char)                 (* a literal character *)
| Cls (p : char -> bool)         (* a character class, one character *)
| Star (p : char -> bool)        (* [x*], greedy *)
| StarLazy (p : char -> bool)    (* [x*?] *)
| Plus (p : char -> bool)        (* [x+], greedy *)
| Bol                            (* [^], no MULTILINE *)
| Eol                            (* [$], no MULTILINE *)
| GroupOpen                      (* [(] *)
| GroupClose.                    (* [)] *)

Definition pattern : Type := list item.

(** The text between the position where a group opened ([opened] is the
    input left at that point) and the current position ([s]). *)
Definition captured (opened s : str) : str :=
  firstn (length opened - length s) opened.

(** [$] matches at the end and just before a final newline. *)
Definition at_eol (s : str) : bool :=
  match s with
  | [] => true
  | [c] => (c =? 10)%N
  | _ => false
  end.

(** What is left to match after an item: a function of the position and
    of the input left there. *)
Definition cont : Type := nat -> str -> option (list str).

(** [x*] followed by [k]: the longest repetition first, then shorter ones. *)
Fixpoint star_greedy (p : char -> bool) (k : cont) (pos : nat) (s : str)
    : option (list str) :=
  match s with
  | x :: s' =>
      if p x then
        match star_greedy p k (S pos) s' with
        | Some r => Some r
        | None => k pos s
        end
      else k pos s
  | [] => k pos s
  end.

(** [x*?] followed by [k]: the shortest repetition first. *)
Fixpoint star_lazy (p : char -> bool) (k : cont) (pos : nat) (s : str)
    : option (list str) :=
  match k pos s with
  | Some r => Some r
  | None =>
      match s with
      | x :: s' => if p x then star_lazy p k (S pos) s' else None
      | [] => None
      end
  end.

(** [exec its caps opened pos s]: match [its] against [s], the input from
    absolute position [pos] on; [caps] are the groups closed so far, last
    first.  The result lists the groups in order. *)
Fixpoint exec (its : pattern) (caps : list str) (opened : str)
    (pos : nat) (s : str) {struct its} : option (list str) :=
  match its with
  | [] => Some (rev caps)
  | Lit c :: rest =>
      match s with
      | x :: s' => if (x =? c)%N then exec rest caps opened (S pos) s' else None
      | [] => None
      end
  | Cls p :: rest =>
      match s with
      | x :: s' => if p x then exec rest caps opened (S pos) s' else None
      | [] => None
      end
  | Star p :: rest => star_greedy p (exec rest caps opened) pos s
  | StarLazy p :: rest => star_lazy p (exec rest caps opened) pos s
  | Plus p :: rest =>
      match s with
      | x :: s' =>
          if p x then star_greedy p (exec rest caps opened) (S pos) s' else None
      | [] => None
      end
  | Bol :: rest =>
      match pos with
      | O => exec rest caps opened pos s
      | S _ => None
      end
  | Eol :: rest => if at_eol s then exec rest caps opened pos s else None
  | GroupOpen :: rest => exec rest caps s pos s
  | GroupClose :: rest => exec rest (captured opened s :: caps) [] pos s
  end.

(** [re.match(pattern, s)]: the groups of a match at the start of [s]. *)
Definition match_ (its : pattern) (s : str) : option (list str) :=
  exec its [] [] 0 s.

Fixpoint search_from (its : pattern) (pos : nat) (s : str) : option (list str) :=
  match exec its [] [] pos s with
  | Some r => Some r
  | None =>
      match s with
      | [] => None
      | _ :: s' => search_from its (S pos) s'
      end
  end.

(** [re.search(pattern, s)]: the groups of the leftmost match. *)
Definition search (its : pattern) (s : str) : option (list str) :=
  search_from its 0 s.

(** [m.group(n)] for [n >= 1]. *)
Definition group (n : nat) (m : list str) : str := nth (n - 1) m [].

(** Literal text as a pattern. *)
Definition lits (s : string) : pattern := List.map Lit (lit s).

(** Character classes of the source's patterns. *)
Definition ws : char -> bool := isspace.                       (* [\s] *)
Definition any : char -> bool := fun _ => true.                (* [[\s\S]] *)
Definition one_of (c : string) : char -> bool :=
  fun x => existsb (N.eqb x) (lit c).
Definition name_char (c : char) : bool :=                     (* [[a-zA-Z0-9_-]] *)
  in_range 97 122 c || in_range 65 90 c || in_range 48 57 c
  || (c =? 95)%N || (c =? 45)%N.
Definition not_semicolon (c : char) : bool := negb (c =? 59)%N. (* [[^;]] *)
Definition digit (c : char) : bool := in_range 48 57 c.        (* [[0-9]] *)
Definition latin_letter (c : char) : bool :=      (* [[A-Za-zÀ-ÖØ-öø-ÿ]] *)
  in_range 65 90 c || in_range 97 122 c || in_range 192 214 c
  || in_range 216 246 c || in_range 248 255 c.

End Re.

(** ** Layout Configuration Loader: [parse_css_vars]

    The tokens file is [Some css] when it exists and [None] otherwise.
    The function is repeated in every validator; two texts of it exist. *)

Module Loader.
Import Py Re.

(** [out] after the loop over the lines of the root block:
    [out[mm.group(1).strip()] = mm.group(2).strip()] for each line the
    declaration pattern matches at its start. *)
Definition collect (decl : pattern) (inner : str) : gmap str str :=
  fold_left
    (fun out line =>
       match match_ decl line with
       | Some mm => <[strip (group 1 mm) := strip (group 2 mm)]> out
       | None => out
       end)
    (splitlines inner) ∅.

Definition parse_with (root decl : pattern) (file : option str) : gmap str str :=
  match file with
  | None => ∅
  | Some css =>
      match search root css with
      | None => ∅
      | Some m => collect decl (group 1 m)
      end
  end.

(** [verify-page-fill.py], [verify-column-balance.py],
    [verify-bullet-orphan-split.py], [verify-no-heading-hyphenation.py]:
    [r":root\s*\{([\s\S]*?)\}"] and
    [r"\s*(--[a-zA-Z0-9_-]+)\s*:\s*([^;]+);"].  The root pattern has
    neither [^] nor [$], so the flag [re.MULTILINE] changes nothing. *)
Definition root_re : pattern :=
  lits ":root" ++ [Star ws] ++ lits "{"
  ++ [GroupOpen; StarLazy any; GroupClose] ++ lits "}".

Definition decl_re : pattern :=
  [Star ws; GroupOpen] ++ lits "--" ++ [Plus name_char; GroupClose; Star ws]
  ++ lits ":" ++ [Star ws; GroupOpen; Plus not_semicolon; GroupClose]
  ++ lits ";".

Definition parse_css_vars : option str -> gmap str str :=
  parse_with root_re decl_re.

(** [verify-justify-gaps.py] and [verify-box-justify-gaps.py]: the raw
    strings double every backslash,
    [r":root\\s*\\{([\\s\\S]*?)\\}"] and
    [r"\\s*(--[a-zA-Z0-9_-]+)\\s*:\\s*([^;]+);"],
    so [\\] is a literal backslash, [s*] repeats the letter s, and the class
    [[\\s\\S]] holds the three characters backslash, s and S. *)
Definition root_re_escaped : pattern :=
  lits ":root\" ++ [Star (one_of "s")] ++ lits "\{"
  ++ [GroupOpen; StarLazy (one_of "\sS"); GroupClose] ++ lits "\}".

Definition decl_re_escaped : pattern :=
  lits "\" ++ [Star (one_of "s"); GroupOpen] ++ lits "--"
  ++ [Plus name_char; GroupClose] ++ lits "\" ++ [Star (one_of "s")]
  ++ lits ":\" ++ [Star (one_of "s"); GroupOpen; Plus not_semicolon; GroupClose]
  ++ lits ";".

Definition parse_css_vars_escaped : option str -> gmap str str :=
  parse_with root_re_escaped decl_re_escaped.

End Loader.

(** ** Numbers *)

Module Num.
Local Open Scope Q_scope.

(** [a < b] on floats; [a <= b] is [Qle_bool a b]. *)
Definition Qltb (a b : Q) : bool := negb (Qle_bool b a).

(** Truth value of a float: false exactly for zero. *)
Definition truthy (a : Q) : bool := negb (Qeq_bool a 0).

(** [mm * (72.0 / 25.4)] *)
Definition mm_to_pt (mm : Q) : Q := mm * (72 / 25.4).

(** The integer nearest to [x], a tie going to the even one. *)
Definition round_half_even (x : Q) : Z :=
  let f := Qfloor x in
  match Qcompare (x - inject_Z f) (1 # 2) with
  | Lt => f
  | Gt => (f + 1)%Z
  | Eq => if Z.even f then f else (f + 1)%Z
  end.

(** [round(x, ndigits)]: the multiple of [10 ** -ndigits] nearest to [x]. *)
Definition round (x : Q) (ndigits : nat) : Q :=
  Qred (inject_Z (round_half_even (x * inject_Z (10 ^ Z.of_nat ndigits)))
        / inject_Z (10 ^ Z.of_nat ndigits)).

End Num.

(** ** Content Extractor Interface

    What the validators read from PyMuPDF, per page and per document. *)

Module Pdf.
Import Py.

(** A bounding box [(x0, y0, x1, y1)], top-left origin, y downwards. *)
Record Rect : Type := mkRect { x0 : Q; y0 : Q; x1 : Q; y1 : Q }.

(** An item of [page.get_text("blocks")]: [(x0, y0, x1, y1, text, ...)]. *)
Record Block : Type := mkBlock { b_rect : Rect; b_text : str }.

(** An item of [page.get_text("words")]:
    [(x0, y0, x1, y1, word, block_no, line_no, word_no)]. *)
Record Word : Type :=
  mkWord { w_rect : Rect; w_text : str; w_block : Z; w_line : Z }.

(** A span and a line of [page.get_text("dict")]. *)
Record Span : Type := mkSpan { sp_text : str; sp_size : Q }.
Record Line : Type := mkLine { ln_bbox : Rect; ln_spans : list Span }.

(** A page: its size and the four extractions; [pg_dict] lists the lines of
    each block, [pg_images] the rectangles of each image reference. *)
Record Page : Type := mkPage {
  pg_width : Q;
  pg_height : Q;
  pg_blocks : list Block;
  pg_words : list Word;
  pg_dict : list (list Line);
  pg_images : list (list Rect)
}.

(** An entry [[level, title, page]] of [doc.get_toc()]. *)
Record TocEntry : Type := mkToc { toc_level : Z; toc_title : str; toc_page : Z }.

Record Doc : Type := mkDoc { pages : list Page; toc : list TocEntry }.

End Pdf.

(** ** Page Geometry Model

    The lines under "Facing pages" of every validator's page loop. *)

Module Geometry.
Import Num.
Local Open Scope Q_scope.

Record LayoutConfig : Type := mkConfig {
  margin_top : Q;
  margin_bottom : Q;
  margin_inner : Q;
  margin_outer : Q;
  col_gap : Q
}.

(** The values used when the tokens file gives none. *)
Definition default_config : LayoutConfig :=
  {| margin_top := mm_to_pt 20; margin_bottom := mm_to_pt 20;
     margin_inner := mm_to_pt 15; margin_outer := mm_to_pt 15;
     col_gap := mm_to_pt 9 |}.

Section Page.
Variable cfg : LayoutConfig.
Variable page_no : Z.
Variables w h : Q.

Definition is_left_page : bool := (page_no mod 2 =? 0)%Z.
Definition left_margin : Q :=
  if is_left_page then margin_outer cfg else margin_inner cfg.
Definition right_margin : Q :=
  if is_left_page then margin_inner cfg else margin_outer cfg.

Definition body_x0 : Q := left_margin.
Definition body_x1 : Q := Qmax body_x0 (w - right_margin).
Definition body_y0 : Q := margin_top cfg.
Definition body_y1 : Q := Qmax body_y0 (h - margin_bottom cfg).

Definition body_w : Q := Qmax 1 (body_x1 - body_x0).
Definition body_h : Q := Qmax 1 (body_y1 - body_y0).

Definition gap : Q := Qmax 0 (Qmin (col_gap cfg) (body_w * 0.5)).
Definition col_w : Q := Qmax 1 ((body_w - gap) / 2).

Definition left_x0 : Q := body_x0.
Definition left_x1 : Q := body_x0 + col_w.
Definition right_x0 : Q := body_x0 + col_w + gap.
Definition right_x1 : Q := body_x1.

(** The rectangles of the specification's PageGeometry, as
    [(x0, y0, x1, y1)]. *)
Definition body_rect : Pdf.Rect := Pdf.mkRect body_x0 body_y0 body_x1 body_y1.
Definition left_column_rect : Pdf.Rect :=
  Pdf.mkRect left_x0 body_y0 left_x1 body_y1.
Definition right_column_rect : Pdf.Rect :=
  Pdf.mkRect right_x0 body_y0 right_x1 body_y1.

End Page.

(** Equality of rectangles, coordinate by coordinate. *)
Definition rect_eq (r s : Pdf.Rect) : Prop :=
  Pdf.x0 r == Pdf.x0 s /\ Pdf.y0 r == Pdf.y0 s
  /\ Pdf.x1 r == Pdf.x1 s /\ Pdf.y1 r == Pdf.y1 s.

End Geometry.

(** ** Coverage Engine: [union_len] of [verify-column-balance.py] *)

Module Coverage.
Import Num.
Local Open Scope Q_scope.

Definition interval : Type := (Q * Q)%type.

(** Order of Python tuples of two floats. *)
Definition tuple_lt (i j : interval) : bool :=
  Qltb (fst i) (fst j) || (Qeq_bool (fst i) (fst j) && Qltb (snd i) (snd j)).

(** [ints.sort()] *)
Definition sort (l : list interval) : list interval := Py.sorted_by tuple_lt l.

(** One turn of the merging loop on the state [(total, cur_a, cur_b)]. *)
Definition merge_step (st : Q * Q * Q) (i : interval) : Q * Q * Q :=
  let '(total, cur_a, cur_b) := st in
  let '(a, b) := i in
  if Qle_bool a cur_b then (total, cur_a, Qmax cur_b b)
  else (total + (cur_b - cur_a), a, b).

Definition union_len (intervals : list interval) : Q :=
  let ints := List.filter (fun i => Qltb (fst i) (snd i)) intervals in
  match sort ints with
  | [] => 0
  | (a0, b0) :: rest =>
      let '(total, cur_a, cur_b) := fold_left merge_step rest (0, a0, b0) in
      total + (cur_b - cur_a)
  end.

(** [max(0.0, min(1.0, union_len(ints) / body_h if body_h else 1.0))] *)
Definition coverage (body_h : Q) (intervals : list interval) : Q :=
  Qmax 0 (Qmin 1 (if truthy body_h then union_len intervals / body_h else 1)).

End Coverage.

(** ** What a validator run prints and how it exits *)

Module Cli.

(** The lines a validator prints; the wording and number formatting of the
    messages are not modelled. *)
Inductive line (V : Type) : Type :=
| PdfNotFound
| MissingDependency
| BadOption
| FailSummary (count : nat)
| FailNotice
| PdfPath
| Rule
| Sample (v : V)
| More (n : nat)
| MoreUncounted
| Passed
| Threshold
| Traceback.

Arguments PdfNotFound {V}.
Arguments MissingDependency {V}.
Arguments BadOption {V}.
Arguments FailSummary {V} count.
Arguments FailNotice {V}.
Arguments PdfPath {V}.
Arguments Rule {V}.
Arguments Sample {V} v.
Arguments More {V} n.
Arguments MoreUncounted {V}.
Arguments Passed {V}.
Arguments Threshold {V}.
Arguments Traceback {V}.

(** [SystemExit(exit_code)] with what went to the error stream and to the
    output stream before it; a normal return is exit code 0. *)
Record outcome (V : Type) : Type := mkOutcome {
  exit_code : Z;
  stderr : list (line V);
  stdout : list (line V)
}.

Arguments mkOutcome {V} exit_code stderr stdout.
Arguments exit_code {V} o.
Arguments stderr {V} o.
Arguments stdout {V} o.

(** [die(msg, code)]: print to the error stream, then [SystemExit(code)]. *)
Definition die {V : Type} (msg : list (line V)) (code : Z) : outcome V :=
  mkOutcome code msg [].

(** An exception that nothing catches: the interpreter prints the
    traceback to the error stream and exits with status 1. *)
Definition uncaught {V : Type} : outcome V := mkOutcome 1 [Traceback] [].

(** The sample lines: [for r in bad[:limit]] and, when more were found, the
    line that counts the rest. *)
Definition samples {V : Type} (limit : nat) (bad : list V) : list (line V) :=
  List.map Sample (firstn limit bad)
  ++ (if (limit <? length bad)%nat then [More (length bad - limit)] else []).

End Cli.

(** ** The page loop and the pages it skips *)

Module Loop.
Import Py Re Pdf.

(** [for i in range(len(doc))], with [page_no = i + 1]; [body] yields the
    violations appended to [bad] for that page. *)
Fixpoint for_pages {V : Type} (body : Z -> Page -> list V) (page_no : Z)
    (pgs : list Page) : list V :=
  match pgs with
  | [] => []
  | pg :: rest => body page_no pg ++ for_pages body (page_no + 1) rest
  end.

(** [page_no <= args.ignore_first] or
    [args.ignore_last and page_no > (total_pages - args.ignore_last)]. *)
Definition ignored_by_count (ignore_first ignore_last total_pages page_no : Z) : bool :=
  (page_no <=? ignore_first)%Z
  || (negb (ignore_last =? 0)%Z && (total_pages - ignore_last <? page_no)%Z).

(** [r"^[0-9]+\."] *)
Definition chapter_re : pattern := [Bol; Plus digit] ++ lits ".".

Definition is_chapter (e : TocEntry) : bool :=
  (toc_level e =? 1)%Z
  && match match_ chapter_re (strip (toc_title e)) with
     | Some _ => true
     | None => false
     end.

(** The page of the first level-1 bookmark whose title starts with a
    number and a dot. *)
Definition first_chapter_page (t : list TocEntry) : option Z :=
  toc_page <$> List.find is_chapter t.

(** The set [ignore_pages] of [verify-page-fill.py] and
    [verify-column-balance.py]. *)
Definition ignore_pages (before_first_chapter before_level1 : bool)
    (t : list TocEntry) : gset Z :=
  let s : gset Z :=
    if before_first_chapter then
      match first_chapter_page t with
      | Some p => if (1 <? p)%Z then list_to_set (seqZ 1 (p - 1)) else ∅
      | None => ∅
      end
    else ∅ in
  if before_level1 then
    fold_left
      (fun acc e =>
         if (toc_level e =? 1)%Z && (1 <? toc_page e)%Z
         then {[ (toc_page e - 1)%Z ]} ∪ acc else acc)
      t s
  else s.

End Loop.

(** ** Layout Configuration Loader: [parse_len_to_pt] and the values read *)

Module Config.
Import Num Py Re Geometry.
Local Open Scope Q_scope.

(** The number written by a string of ASCII digits. *)
Definition digit_value (c : char) : N := (c - 48)%N.

Definition digits_value (s : str) : N :=
  fold_left (fun acc c => (10 * acc + digit_value c)%N) s 0%N.

(** [[0-9.]]; the pattern [[0-9.]+] lets only such characters reach
    [float]. *)
Definition digit_or_dot (c : char) : bool := digit c || (c =? 46)%N.

(** The digits at the start of a string, and what follows them. *)
Fixpoint leading_digits (s : str) : str * str :=
  match s with
  | c :: s' =>
      if digit c then (c :: fst (leading_digits s'), snd (leading_digits s'))
      else ([], s)
  | [] => ([], [])
  end.

(** [float(s)] for a string of digits and dots: digits with at most one
    dot among them and at least one digit; [None] is [ValueError]. *)
Definition float_of (s : str) : option Q :=
  let '(ip, rest) := leading_digits s in
  match rest with
  | [] =>
      match ip with
      | [] => None
      | _ :: _ => Some (inject_Z (Z.of_N (digits_value ip)))
      end
  | c :: fp =>
      if (c =? 46)%N && forallb digit fp
         && negb (match ip, fp with [], [] => true | _, _ => false end)
      then Some (inject_Z (Z.of_N (digits_value ip))
                 + inject_Z (Z.of_N (digits_value fp))
                   / inject_Z (10 ^ Z.of_nat (length fp)))
      else None
  end.

(** [parse_len_to_pt(v, default_pt)] for the patterns [mm] and [pt]; [None]
    is the [ValueError] that [float] raises. *)
Definition parse_len_with (mm pt : pattern) (v : str) (default_pt : Q) : option Q :=
  match v with
  | [] => Some default_pt
  | _ :: _ =>
      let v := strip v in
      match match_ mm v with
      | Some m => mm_to_pt <$> float_of (group 1 m)
      | None =>
          match match_ pt v with
          | Some m => float_of (group 1 m)
          | None => Some default_pt
          end
      end
  end.

(** [r"^([0-9.]+)\s*mm$"] and [r"^([0-9.]+)\s*pt$"] *)
Definition unit_re (unit : string) : pattern :=
  [Bol; GroupOpen; Plus digit_or_dot; GroupClose; Star ws] ++ lits unit ++ [Eol].

Definition parse_len_to_pt : str -> Q -> option Q :=
  parse_len_with (unit_re "mm") (unit_re "pt").

(** [r"^([0-9.]+)\\s*mm$"] and [r"^([0-9.]+)\\s*pt$"] of
    [verify-justify-gaps.py] and [verify-box-justify-gaps.py]. *)
Definition unit_re_escaped (unit : string) : pattern :=
  [Bol; GroupOpen; Plus digit_or_dot; GroupClose] ++ lits "\"
  ++ [Star (one_of "s")] ++ lits unit ++ [Eol].

Definition parse_len_to_pt_escaped : str -> Q -> option Q :=
  parse_len_with (unit_re_escaped "mm") (unit_re_escaped "pt").

(** [vars_.get(name, "")] *)
Definition get (vars_ : gmap str str) (name : string) : str :=
  default [] (vars_ !! lit name).

(** The five lengths read after [parse_css_vars], in the order of the
    source; the first [ValueError] ends the run. *)
Definition load_with (parse : str -> Q -> option Q) (vars_ : gmap str str)
    : option LayoutConfig :=
  mt ← parse (get vars_ "--margin-top") (mm_to_pt 20);
  mb ← parse (get vars_ "--margin-bottom") (mm_to_pt 20);
  mi ← parse (get vars_ "--margin-inner") (mm_to_pt 15);
  mo ← parse (get vars_ "--margin-outer") (mm_to_pt 15);
  cg ← parse (get vars_ "--col-gap") (mm_to_pt 9);
  Some (mkConfig mt mb mi mo cg).

(** [verify-column-balance.py] and [verify-bullet-orphan-split.py]. *)
Definition load (tokens : option str) : option LayoutConfig :=
  load_with parse_len_to_pt (Loader.parse_css_vars tokens).

(** [verify-page-fill.py] reads the four margins only; the column gap,
    which the Page-Fill gate never uses, stays at its default. *)
Definition load_margins (tokens : option str) : option LayoutConfig :=
  let vars_ := Loader.parse_css_vars tokens in
  mt ← parse_len_to_pt (get vars_ "--margin-top") (mm_to_pt 20);
  mb ← parse_len_to_pt (get vars_ "--margin-bottom") (mm_to_pt 20);
  mi ← parse_len_to_pt (get vars_ "--margin-inner") (mm_to_pt 15);
  mo ← parse_len_to_pt (get vars_ "--margin-outer") (mm_to_pt 15);
  Some (mkConfig mt mb mi mo (mm_to_pt 9)).

(** [verify-justify-gaps.py] and [verify-box-justify-gaps.py]. *)
Definition load_escaped (tokens : option str) : option LayoutConfig :=
  load_with parse_len_to_pt_escaped (Loader.parse_css_vars_escaped tokens).

(** [verify-no-heading-hyphenation.py]:
    [parse_len_to_pt(vars_.get("--body-size", ""), 10.0)]. *)
Definition load_body_pt (tokens : option str) : option Q :=
  parse_len_to_pt (get (Loader.parse_css_vars tokens) "--body-size") 10.

End Config.

(** ** Page-Fill gate: [verify-page-fill.py] *)

Module PageFill.
Import Num Py Pdf Geometry Cli.
Local Open Scope Q_scope.

Record Args : Type := mkArgs {
  min_used : Q;
  ignore_first : Z;
  ignore_last : Z;
  ignore_before_level1 : bool;
  ignore_before_first_chapter : bool
}.

Definition default_args : Args := mkArgs 0.60 2 0 false false.

(** A record of [bad]; the ratio is kept rounded to three decimals and
    the lengths to one. *)
Record Violation : Type := mkViolation {
  v_page : Z;
  v_used_ratio : Q;
  v_y_max : Q;
  v_body_y0 : Q;
  v_body_y1 : Q
}.

Section Page.
Variable cfg : LayoutConfig.
Variable page_no : Z.
Variable pg : Page.

Let page_w : Q := pg_width pg.
Let page_h : Q := pg_height pg.
Let bx0 : Q := body_x0 cfg page_no.
Let bx1 : Q := body_x1 cfg page_no page_w.
Let by0 : Q := body_y0 cfg.
Let by1 : Q := body_y1 cfg page_h.

(** [in_body(x0, y0, x1, y1)] *)
Definition in_body (r : Rect) : bool :=
  if Qle_bool (y1 r) by0 || Qle_bool by1 (y0 r) then false
  else
    let xc := (x0 r + x1 r) / 2 in
    Qle_bool bx0 xc && Qle_bool xc bx1.

(** A text block that reaches the [y_max] update: text left after
    trimming, area at least 200, and inside the body. *)
Definition block_counts (b : Block) : bool :=
  let r := b_rect b in
  match strip (b_text b) with
  | [] => false
  | _ :: _ =>
      let bw := Qmax 0 (x1 r - x0 r) in
      let bh := Qmax 0 (y1 r - y0 r) in
      if Qltb (bw * bh) 200 then false else in_body r
  end.

Definition block_step (y_max : Q) (b : Block) : Q :=
  if block_counts b then Qmax y_max (Qmin (y1 (b_rect b)) by1) else y_max.

Definition image_step (y_max : Q) (r : Rect) : Q :=
  if in_body r then Qmax y_max (Qmin (y1 r) by1) else y_max.

(** [y_max] after the loop over the blocks and the loops over the images. *)
Definition y_max : Q :=
  fold_left (fun ym rects => fold_left image_step rects ym) (pg_images pg)
    (fold_left block_step (pg_blocks pg) by0).

Definition used_ratio : Q :=
  let bh := body_h cfg page_h in
  if truthy bh then (y_max - by0) / bh else 1.

(** The body of the page loop after the ignore tests: what is appended to
    [bad] for this page. *)
Definition check_page (args : Args) : list Violation :=
  if Qle_bool page_w 0 || Qle_bool page_h 0 then []
  else if Qltb used_ratio (min_used args)
       then [mkViolation page_no (round used_ratio 3) (round y_max 1)
               (round by0 1) (round by1 1)]
       else [].

End Page.

Definition ignored (args : Args) (doc : Doc) (page_no : Z) : bool :=
  Loop.ignored_by_count (ignore_first args) (ignore_last args)
    (Z.of_nat (length (pages doc))) page_no
  || bool_decide
       (page_no ∈ Loop.ignore_pages (ignore_before_first_chapter args)
                    (ignore_before_level1 args) (toc doc)).

(** The list [bad] after the page loop. *)
Definition scan (args : Args) (cfg : LayoutConfig) (doc : Doc) : list Violation :=
  Loop.for_pages
    (fun page_no pg =>
       if ignored args doc page_no then [] else check_page cfg page_no pg args)
    1%Z (pages doc).

(** [main]: [pdf_exists] and [fitz_available] say whether the PDF path
    exists and whether PyMuPDF can be imported; [tokens] is the text of the
    tokens file, if there is one.  The margins are read after the three
    checks, and a [ValueError] of [float] is not caught. *)
Definition main (args : Args) (pdf_exists fitz_available : bool)
    (tokens : option str) (doc : Doc) : outcome Violation :=
  if negb pdf_exists then die [PdfNotFound] 1
  else if negb fitz_available then die [MissingDependency] 1
  else if Qle_bool (min_used args) 0 || Qltb 1 (min_used args)
  then die [BadOption] 1
  else
    match Config.load_margins tokens with
    | None => uncaught
    | Some cfg =>
        let bad := scan args cfg doc in
        match bad with
        | _ :: _ =>
            mkOutcome 2 ([FailSummary (length bad); PdfPath] ++ samples 20 bad) []
        | [] => mkOutcome 0 [] [Passed; PdfPath]
        end
    end.

End PageFill.

(** ** Column-Balance gate: [verify-column-balance.py] *)

Module ColumnBalance.
Import Num Py Pdf Geometry Coverage Cli.
Local Open Scope Q_scope.

Record Args : Type := mkArgs {
  ignore_first : Z;
  ignore_last : Z;
  ignore_before_level1 : bool;
  ignore_before_first_chapter : bool;
  min_full_coverage : Q;
  max_sparse_coverage : Q;
  min_coverage_diff : Q;
  min_full_blocks : Z
}.

Definition default_args : Args := mkArgs 2 0 false false 0.65 0.40 0.25 4.

Inductive side : Type := Left | Right.

(** A record of [bad]; the coverages are kept rounded to three decimals. *)
Record Violation : Type := mkViolation {
  v_page : Z;
  v_full_side : side;
  v_left_blocks : Z;
  v_right_blocks : Z;
  v_left_coverage : Q;
  v_right_coverage : Q
}.

(** The counters and interval lists filled by the loop over the blocks. *)
Record Tally : Type := mkTally {
  left_blocks : Z;
  right_blocks : Z;
  left_intervals : list interval;
  right_intervals : list interval
}.

Section Page.
Variable cfg : LayoutConfig.
Variable page_no : Z.
Variable pg : Page.

Let w : Q := pg_width pg.
Let h : Q := pg_height pg.
Let by0 : Q := body_y0 cfg.
Let by1 : Q := body_y1 cfg h.
Let cw : Q := col_w cfg page_no w.
Let lx0 : Q := left_x0 cfg page_no.
Let lx1 : Q := left_x1 cfg page_no w.
Let rx0 : Q := right_x0 cfg page_no w.
Let rx1 : Q := right_x1 cfg page_no w.

(** The column a block is counted in; [None] where the loop continues
    without counting it. *)
Definition column_of (b : Block) : option side :=
  let r := b_rect b in
  match strip (b_text b) with
  | [] => None
  | _ :: _ =>
      let bw := Qmax 0 (x1 r - x0 r) in
      let bh := Qmax 0 (y1 r - y0 r) in
      if Qltb (bw * bh) 200 then None
      else if Qle_bool (y1 r) by0 || Qle_bool by1 (y0 r) then None
      else if Qltb (cw * 1.10) bw then None
      else
        let xc := (x0 r + x1 r) / 2 in
        if Qle_bool lx0 xc && Qle_bool xc lx1 then Some Left
        else if Qle_bool rx0 xc && Qle_bool xc rx1 then Some Right
        else None
  end.

Definition clipped (b : Block) : interval :=
  (Qmax by0 (y0 (b_rect b)), Qmin by1 (y1 (b_rect b))).

Definition block_step (t : Tally) (b : Block) : Tally :=
  match column_of b with
  | Some Left =>
      mkTally (left_blocks t + 1) (right_blocks t)
        (left_intervals t ++ [clipped b]) (right_intervals t)
  | Some Right =>
      mkTally (left_blocks t) (right_blocks t + 1)
        (left_intervals t) (right_intervals t ++ [clipped b])
  | None => t
  end.

Definition tally : Tally :=
  fold_left block_step (pg_blocks pg) (mkTally 0 0 [] []).

Definition left_cov : Q := coverage (body_h cfg h) (left_intervals tally).
Definition right_cov : Q := coverage (body_h cfg h) (right_intervals tally).

(** One rectangle of one image: the flags [(left_has_image,
    right_has_image)] after it. *)
Definition rect_step (f : bool * bool) (r : Rect) : bool * bool :=
  if Qle_bool (y1 r) by0 || Qle_bool by1 (y0 r) then f
  else
    (if Qltb lx0 (x1 r) && Qltb (x0 r) lx1 then true else fst f,
     if Qltb rx0 (x1 r) && Qltb (x0 r) rx1 then true else snd f).

(** The loop over the images, left as soon as both flags are set. *)
Fixpoint image_flags (imgs : list (list Rect)) (f : bool * bool) : bool * bool :=
  match imgs with
  | [] => f
  | rects :: rest =>
      let f' := fold_left rect_step rects f in
      if fst f' && snd f' then f' else image_flags rest f'
  end.

Definition left_has_image : bool := fst (image_flags (pg_images pg) (false, false)).
Definition right_has_image : bool := snd (image_flags (pg_images pg) (false, false)).

(** "Decide which side is full vs sparse". *)
Definition full_side : side :=
  if Qle_bool right_cov left_cov then Left else Right.

Definition full_cov : Q :=
  match full_side with Left => left_cov | Right => right_cov end.
Definition sparse_cov : Q :=
  match full_side with Left => right_cov | Right => left_cov end.
Definition full_blocks : Z :=
  match full_side with Left => left_blocks tally | Right => right_blocks tally end.
Definition sparse_has_image : bool :=
  match full_side with Left => right_has_image | Right => left_has_image end.

Definition flagged (args : Args) : bool :=
  Qle_bool (min_full_coverage args) full_cov
  && (min_full_blocks args <=? full_blocks)%Z
  && Qle_bool sparse_cov (max_sparse_coverage args)
  && Qle_bool (min_coverage_diff args) (full_cov - sparse_cov)
  && negb sparse_has_image.

(** The body of the page loop after the ignore tests. *)
Definition check_page (args : Args) : list Violation :=
  if Qle_bool w 0 || Qle_bool h 0 then []
  else if flagged args
       then [mkViolation page_no full_side (left_blocks tally)
               (right_blocks tally) (round left_cov 3) (round right_cov 3)]
       else [].

End Page.

Definition ignored (args : Args) (doc : Doc) (page_no : Z) : bool :=
  Loop.ignored_by_count (ignore_first args) (ignore_last args)
    (Z.of_nat (length (pages doc))) page_no
  || bool_decide
       (page_no ∈ Loop.ignore_pages (ignore_before_first_chapter args)
                    (ignore_before_level1 args) (toc doc)).

Definition scan (args : Args) (cfg : LayoutConfig) (doc : Doc) : list Violation :=
  Loop.for_pages
    (fun page_no pg =>
       if ignored args doc page_no then [] else check_page cfg page_no pg args)
    1%Z (pages doc).

(** [main]; the five lengths are read after the two checks, and a
    [ValueError] of [float] is not caught. *)
Definition main (args : Args) (pdf_exists fitz_available : bool)
    (tokens : option str) (doc : Doc) : outcome Violation :=
  if negb pdf_exists then die [PdfNotFound] 1
  else if negb fitz_available then die [MissingDependency] 1
  else
    match Config.load tokens with
    | None => uncaught
    | Some cfg =>
        let bad := scan args cfg doc in
        match bad with
        | _ :: _ =>
            mkOutcome 2 ([FailSummary (length bad); PdfPath; Rule] ++ samples 30 bad) []
        | [] => mkOutcome 0 [] [Passed; PdfPath]
        end
    end.

End ColumnBalance.

(** ** Justification-Gap gate: [verify-justify-gaps.py] *)

Module JustifyGaps.
Import Num Py Pdf Geometry Cli.
Local Open Scope Q_scope.

Record Args : Type := mkArgs {
  max_gap_pt : Q;
  min_span_ratio : Q;
  ignore_first : Z;
  ignore_last : Z
}.

Definition default_args : Args := mkArgs 18 0.85 2 1.

(** A record of [bad]: the gap is kept rounded to one decimal, the span
    ratio to three, and the line is the tokens joined by spaces and cut
    after 200 characters. *)
Record Violation : Type := mkViolation {
  v_page : Z;
  v_col : Z;
  v_max_gap_pt : Q;
  v_span_ratio : Q;
  v_line : str
}.

(** A word kept for a line: [(x0, y0, x1, y1, t)]. *)
Definition word : Type := (Rect * str)%type.

(** A [dict] from [(block_no, line_no)] to the words of the line, in
    insertion order. *)
Definition lines : Type := list ((Z * Z) * list word).

(** [m.setdefault(key, []).append(wd)] *)
Fixpoint setdefault_append (key : Z * Z) (wd : word) (m : lines) : lines :=
  match m with
  | [] => [(key, [wd])]
  | (k, ws) :: m' =>
      if ((fst k =? fst key) && (snd k =? snd key))%Z
      then (k, ws ++ [wd]) :: m'
      else (k, ws) :: setdefault_append key wd m'
  end.

Section Gate.
(** [str.isdigit] on one character: the Unicode table of digits. *)
Variable isdigit_char : char -> bool.

(** [is_marker_token]: a bullet, a hyphen, an en or em dash, or digits. *)
Definition is_marker_token (t : str) : bool :=
  let tt := strip t in
  existsb (fun m => bool_decide (tt = m)) [[8226%N]; lit "-"; [8211%N]; [8212%N]]
  || match tt with
     | [] => false
     | _ :: _ => forallb isdigit_char tt
     end.

(** The gaps [ws[j + 1][0] - ws[j][2]] for [j = 0 .. len(ws) - 2]. *)
Fixpoint adjacent_gaps (ws : list word) : list Q :=
  match ws with
  | a :: (b :: _) as tl => (x0 (fst b) - x1 (fst a)) :: adjacent_gaps tl
  | _ => []
  end.

(** [max(gaps)] for a non-empty list. *)
Definition max_of (g : Q) (gs : list Q) : Q := fold_left Qmax gs g.

Section Line.
Variable args : Args.
Variable col_w : Q.
Variable ws0 : list word.

Definition sorted_words : list word :=
  sorted_by (fun a b : word => Qltb (x0 (fst a)) (x0 (fst b))) ws0.

Definition tokens : list str := List.map snd sorted_words.

(** [ws[-1][2] - ws[0][0]] *)
Definition line_span : Q :=
  match sorted_words with
  | [] => 0
  | first :: _ => x1 (fst (List.last sorted_words first)) - x0 (fst first)
  end.

Definition span_ratio : Q := if truthy col_w then line_span / col_w else 0.

Definition gaps : list Q :=
  let start_idx :=
    match tokens with
    | t :: _ => if is_marker_token t then 1%nat else 0%nat
    | [] => 0%nat
    end in
  List.filter (fun g => Qltb 0 g) (skipn start_idx (adjacent_gaps sorted_words)).

(** The violation appended for one line of column [col] on page
    [page_no], if any. *)
Definition check_line (page_no col : Z) : list Violation :=
  if (length ws0 <? 2)%nat then []
  else if Qltb span_ratio (min_span_ratio args) then []
  else
    match gaps with
    | [] => []
    | g :: gs =>
        let max_gap := max_of g gs in
        if Qltb (max_gap_pt args) max_gap
        then [mkViolation page_no col (round max_gap 1) (round span_ratio 3)
                (firstn 200 (join (lit " ") tokens))]
        else []
    end.

End Line.

Section Page.
Variable cfg : LayoutConfig.
Variable page_no : Z.
Variable pg : Page.

Let w : Q := pg_width pg.
Let h : Q := pg_height pg.
Let bx0 : Q := body_x0 cfg page_no.
Let bx1 : Q := body_x1 cfg page_no w.
Let by0 : Q := body_y0 cfg.
Let by1 : Q := body_y1 cfg h.
Let cw : Q := col_w cfg page_no w.
Let lx0 : Q := left_x0 cfg page_no.
Let lx1 : Q := left_x1 cfg page_no w.
Let rx0 : Q := right_x0 cfg page_no w.
Let rx1 : Q := right_x1 cfg page_no w.

(** One word of [words_raw]: the two dictionaries of [lines_by_col]
    after it. *)
Definition word_step (m : lines * lines) (wd : Word) : lines * lines :=
  let r := w_rect wd in
  match strip (w_text wd) with
  | [] => m
  | (_ :: _) as t =>
      if Qle_bool (y1 r) by0 || Qle_bool by1 (y0 r) then m
      else
        let xc := (x0 r + x1 r) / 2 in
        if Qltb xc bx0 || Qltb bx1 xc then m
        else
          let key := (w_block wd, w_line wd) in
          if Qle_bool lx0 xc && Qle_bool xc lx1
          then (setdefault_append key (r, t) (fst m), snd m)
          else if Qle_bool rx0 xc && Qle_bool xc rx1
          then (fst m, setdefault_append key (r, t) (snd m))
          else m
  end.

Definition lines_by_col : lines * lines :=
  fold_left word_step (pg_words pg) ([], []).

Definition check_column (args : Args) (col : Z) (m : lines) : list Violation :=
  flat_map (fun kv => check_line args cw (snd kv) page_no col) m.

Definition check_page (args : Args) : list Violation :=
  if Qle_bool w 0 || Qle_bool h 0 then []
  else check_column args 0 (fst lines_by_col)
       ++ check_column args 1 (snd lines_by_col).

End Page.

Definition ignored (args : Args) (doc : Doc) (page_no : Z) : bool :=
  Loop.ignored_by_count (ignore_first args) (ignore_last args)
    (Z.of_nat (length (pages doc))) page_no.

Definition scan (args : Args) (cfg : LayoutConfig) (doc : Doc) : list Violation :=
  Loop.for_pages
    (fun page_no pg =>
       if ignored args doc page_no then [] else check_page cfg page_no pg args)
    1%Z (pages doc).

(** [die] of this file exits with 2 unless told otherwise.  The five
    lengths are read, with the patterns of this file, after the two
    checks. *)
Definition main (args : Args) (pdf_exists fitz_available : bool)
    (tokens : option str) (doc : Doc) : outcome Violation :=
  if negb pdf_exists then die [PdfNotFound] 2
  else if negb fitz_available then die [MissingDependency] 2
  else
    match Config.load_escaped tokens with
    | None => uncaught
    | Some cfg =>
        let bad := scan args cfg doc in
        match bad with
        | _ :: _ =>
            mkOutcome 2 ([FailSummary (length bad); PdfPath; Rule] ++ samples 30 bad) []
        | [] => mkOutcome 0 [] [Passed; PdfPath]
        end
    end.

End Gate.

End JustifyGaps.

(** ** Bullet-Orphan-Split gate: [verify-bullet-orphan-split.py] *)

Module BulletOrphan.
Import Num Py Pdf Geometry Cli.
Local Open Scope Q_scope.

Record Args : Type := mkArgs { ignore_first : Z; ignore_last : Z }.

Definition default_args : Args := mkArgs 0 0.

Inductive side : Type := Left | Right.

(** A record of [bad]; the two ratios are kept rounded to three
    decimals. *)
Record Violation : Type := mkViolation {
  v_page : Z;
  v_left_bullets : nat;
  v_right_bullets : nat;
  v_singleton_col : side;
  v_singleton_bottom_ratio : Q;
  v_other_top_ratio : Q
}.

(** [max(ys)] and [min(ys)]; [d] is the value for an empty list. *)
Definition max_list (ys : list Q) (d : Q) : Q :=
  match ys with [] => d | y :: ys' => fold_left Qmax ys' y end.
Definition min_list (ys : list Q) (d : Q) : Q :=
  match ys with [] => d | y :: ys' => fold_left Qmin ys' y end.

Section Page.
Variable cfg : LayoutConfig.
Variable page_no : Z.
Variable pg : Page.

Let w : Q := pg_width pg.
Let h : Q := pg_height pg.
Let by0 : Q := body_y0 cfg.
Let by1 : Q := body_y1 cfg h.
Let bh : Q := body_h cfg h.
Let lx0 : Q := left_x0 cfg page_no.
Let lx1 : Q := left_x1 cfg page_no w.
Let rx0 : Q := right_x0 cfg page_no w.
Let rx1 : Q := right_x1 cfg page_no w.

(** The text of a line: its spans joined and trimmed. *)
Definition line_text (ln : Line) : str :=
  strip (concat (List.map sp_text (ln_spans ln))).

(** The column whose list receives the line's center, if any. *)
Definition bullet_column (ln : Line) : option side :=
  let r := ln_bbox ln in
  if Qle_bool (y1 r) by0 || Qle_bool by1 (y0 r) then None
  else
    match line_text ln with
    | [] => None
    | (_ :: _) as txt =>
        if negb (startswith [8226%N] (lstrip txt)) then None
        else
          let xc := (x0 r + x1 r) / 2 in
          if Qle_bool lx0 xc && Qle_bool xc lx1 then Some Left
          else if Qle_bool rx0 xc && Qle_bool xc rx1 then Some Right
          else None
    end.

Definition center_y (ln : Line) : Q := (y0 (ln_bbox ln) + y1 (ln_bbox ln)) / 2.

Definition line_step (acc : list Q * list Q) (ln : Line) : list Q * list Q :=
  match bullet_column ln with
  | Some Left => (fst acc ++ [center_y ln], snd acc)
  | Some Right => (fst acc, snd acc ++ [center_y ln])
  | None => acc
  end.

(** [(left_ys, right_ys)] after the loops over blocks and lines. *)
Definition bullet_ys : list Q * list Q :=
  fold_left (fun acc lns => fold_left line_step lns acc) (pg_dict pg) ([], []).

Definition left_ys : list Q := fst bullet_ys.
Definition right_ys : list Q := snd bullet_ys.

(** "Normalize to body ratios". *)
Definition ratio (y : Q) : Q := (y - by0) / bh.

Definition singleton_bottom : Q :=
  if (length left_ys =? 1)%nat then ratio (max_list left_ys by0)
  else ratio (max_list right_ys by0).

Definition other_top : Q :=
  if (length left_ys =? 1)%nat then ratio (min_list right_ys by1)
  else ratio (min_list left_ys by1).

Definition singleton_col : side :=
  if (length left_ys =? 1)%nat then Left else Right.

Definition check_page : list Violation :=
  if Qle_bool w 0 || Qle_bool h 0 then []
  else
    let lc := length left_ys in
    let rc := length right_ys in
    if (lc =? 0)%nat || (rc =? 0)%nat then []
    else if negb ((Nat.min lc rc =? 1)%nat && (3 <=? Nat.max lc rc)%nat) then []
    else if Qle_bool 0.65 singleton_bottom && Qle_bool other_top 0.40
    then [mkViolation page_no lc rc singleton_col (round singleton_bottom 3)
            (round other_top 3)]
    else [].

End Page.

Definition ignored (args : Args) (doc : Doc) (page_no : Z) : bool :=
  Loop.ignored_by_count (ignore_first args) (ignore_last args)
    (Z.of_nat (length (pages doc))) page_no.

Definition scan (args : Args) (cfg : LayoutConfig) (doc : Doc) : list Violation :=
  Loop.for_pages
    (fun page_no pg =>
       if ignored args doc page_no then [] else check_page cfg page_no pg)
    1%Z (pages doc).

(** [die] of this file exits with 2 unless told otherwise, and the failure
    report itself is printed through [die].  The five lengths are read
    after the two checks, and a [ValueError] of [float] is not caught. *)
Definition main (args : Args) (pdf_exists fitz_available : bool)
    (tokens : option str) (doc : Doc) : outcome Violation :=
  if negb pdf_exists then die [PdfNotFound] 2
  else if negb fitz_available then die [MissingDependency] 2
  else
    match Config.load tokens with
    | None => uncaught
    | Some cfg =>
        let bad := scan args cfg doc in
        match bad with
        | _ :: _ => die ([FailNotice; PdfPath; Rule] ++ samples 30 bad) 2
        | [] => mkOutcome 0 [] [Passed; PdfPath]
        end
    end.

End BulletOrphan.

(** ** Heading-Hyphenation gate: [verify-no-heading-hyphenation.py] *)

Module HeadingHyphenation.
Import Num Py Re Pdf Cli.
Local Open Scope Q_scope.

Record Args : Type := mkArgs { delta_pt : Q }.

Definition default_args : Args := mkArgs 1.5.

(** A record of [bad]; the size is kept rounded to two decimals. *)
Record Violation : Type := mkViolation {
  v_page : Z;
  v_line1 : str;
  v_line2 : str;
  v_size_pt : Q
}.

(** [line_text_and_size]: the spans' texts joined, and the largest size. *)
Definition line_text_and_size (ln : Line) : str * Q :=
  (concat (List.map sp_text (ln_spans ln)),
   fold_left (fun m sp => Qmax m (sp_size sp)) (ln_spans ln) 0).

(** [r"^\s*[A-Za-zÀ-ÖØ-öø-ÿ]"] and [r"-\s*$"] *)
Definition starts_letter : pattern := [Bol; Star ws; Cls latin_letter].
Definition ends_with_hyphen : pattern := lits "-" ++ [Star ws; Eol].

Definition found (p : pattern) (s : str) : bool :=
  match search p s with Some _ => true | None => false end.

Section Gate.
(** [body_pt + args.delta_pt], with [body_pt] read from [--body-size]. *)
Variable threshold : Q.

(** The violation appended for the lines [lines[i]] and [lines[i + 1]]. *)
Definition check_pair (page_no : Z) (l1 l2 : Line) : list Violation :=
  let '(t1, s1) := line_text_and_size l1 in
  let '(t2, s2) := line_text_and_size l2 in
  if Qltb s1 threshold || Qltb s2 threshold then []
  else if negb (found ends_with_hyphen t1) then []
  else if negb (found starts_letter t2) then []
  else [mkViolation page_no (strip t1) (strip t2) (round (Qmax s1 s2) 2)].

(** [for i in range(len(lines) - 1)] *)
Fixpoint check_lines (page_no : Z) (lns : list Line) : list Violation :=
  match lns with
  | l1 :: ((l2 :: _) as rest) => check_pair page_no l1 l2 ++ check_lines page_no rest
  | _ => []
  end.

Definition check_page (page_no : Z) (pg : Page) : list Violation :=
  flat_map (check_lines page_no) (pg_dict pg).

End Gate.

Definition scan (threshold : Q) (doc : Doc) : list Violation :=
  Loop.for_pages (check_page threshold) 1%Z (pages doc).

(** [die] of this file exits with 2 unless told otherwise, and the failure
    report itself is printed through [die].  The body size is read after
    the two checks, and a [ValueError] of [float] is not caught. *)
Definition main (args : Args) (pdf_exists fitz_available : bool)
    (tokens : option str) (doc : Doc) : outcome Violation :=
  if negb pdf_exists then die [PdfNotFound] 2
  else if negb fitz_available then die [MissingDependency] 2
  else
    match Config.load_body_pt tokens with
    | None => uncaught
    | Some body_pt =>
        let bad := scan (body_pt + delta_pt args) doc in
        match bad with
        | _ :: _ =>
            die ([FailNotice; PdfPath; Threshold]
                 ++ List.map Sample (firstn 30 bad)
                 ++ (if (30 <? length bad)%nat then [MoreUncounted] else [])) 2
        | [] => mkOutcome 0 [] [Passed; PdfPath; Threshold]
        end
    end.

End HeadingHyphenation.

(** ** Box justification gate: [verify-box-justify-gaps.py] *)

Module BoxJustifyGaps.
Import Num Py Pdf Geometry Cli.
Local Open Scope Q_scope.

Record Args : Type := mkArgs { max_gap_pt : Q; ignore_first : Z }.

Definition default_args : Args := mkArgs 12 2.

(** A record of [bad]: [y] and the gap are kept rounded to one decimal,
    and the line is the tokens joined by spaces. *)
Record Violation : Type := mkViolation {
  v_page : Z;
  v_col : Z;
  v_y : Q;
  v_max_gap_pt : Q;
  v_line : str
}.

(** A word kept for a column: [(x0, y0, x1, y1, t)]. *)
Definition word : Type := (Rect * str)%type.

(** A cluster [{"y": .., "n": .., "words": [..]}]. *)
Record Cluster : Type := mkCluster { c_y : Q; c_n : Z; c_words : list word }.

(** The loop over [clusters] for one word: the word joins the first
    cluster whose [y] is within [tol] of its [y0], which moves that
    cluster's [y] to the running average; [None] when no cluster takes it. *)
Fixpoint place (tol : Q) (wd : word) (cs : list Cluster) : option (list Cluster) :=
  match cs with
  | [] => None
  | c :: cs' =>
      if Qle_bool (Qabs (y0 (fst wd) - c_y c)) tol
      then Some (mkCluster ((c_y c * inject_Z (c_n c) + y0 (fst wd))
                            / inject_Z (c_n c + 1))
                   (c_n c + 1) (c_words c ++ [wd]) :: cs')
      else (fun r => c :: r) <$> place tol wd cs'
  end.

Definition cluster_step (tol : Q) (cs : list Cluster) (wd : word) : list Cluster :=
  match place tol wd cs with
  | Some cs' => cs'
  | None => cs ++ [mkCluster (y0 (fst wd)) 1 [wd]]
  end.

(** Order of the keys [(w[1], w[0])]. *)
Definition by_y_then_x (a b : word) : bool :=
  Qltb (y0 (fst a)) (y0 (fst b))
  || (Qeq_bool (y0 (fst a)) (y0 (fst b)) && Qltb (x0 (fst a)) (x0 (fst b))).

Definition by_x (a b : word) : bool := Qltb (x0 (fst a)) (x0 (fst b)).

(** [cluster_lines(words, tol)] *)
Definition cluster_lines (words : list word) (tol : Q) : list (Q * list word) :=
  let clusters := fold_left (cluster_step tol) (sorted_by by_y_then_x words) [] in
  sorted_by (fun a b : Q * list word => Qltb (fst a) (fst b))
    (List.map (fun c => (c_y c, sorted_by by_x (c_words c))) clusters).

Section Gate.
(** [str.lower], by the Unicode tables. *)
Variable lower : str -> str.

(** The violation appended for one clustered line, if any. *)
Definition check_line (args : Args) (page_no col : Z) (y : Q) (ws : list word)
    : list Violation :=
  let tokens := List.map snd ws in
  let tokens_l := List.map lower tokens in
  if negb (existsb (fun t => bool_decide (t = lit "praktijk:")) tokens_l)
     && negb (existsb (fun t => bool_decide (t = lit "verdieping:")) tokens_l)
  then []
  else if (length ws <? 2)%nat then []
  else
    let max_gap :=
      match JustifyGaps.adjacent_gaps ws with
      | [] => 0
      | g :: gs => JustifyGaps.max_of g gs
      end in
    if Qltb (max_gap_pt args) max_gap
    then [mkViolation page_no col (round y 1) (round max_gap 1)
            (join (lit " ") tokens)]
    else [].

Section Page.
Variable cfg : LayoutConfig.
Variable page_no : Z.
Variable pg : Page.

Let w : Q := pg_width pg.
Let h : Q := pg_height pg.
Let bx0 : Q := body_x0 cfg page_no.
Let bx1 : Q := body_x1 cfg page_no w.
Let by0 : Q := body_y0 cfg.
Let by1 : Q := body_y1 cfg h.
Let lx0 : Q := left_x0 cfg page_no.
Let lx1 : Q := left_x1 cfg page_no w.
Let rx0 : Q := right_x0 cfg page_no w.
Let rx1 : Q := right_x1 cfg page_no w.

(** One word of [words_raw]: the two lists of [words_by_col] after it. *)
Definition word_step (m : list word * list word) (wd : Word) : list word * list word :=
  let r := w_rect wd in
  match strip (w_text wd) with
  | [] => m
  | (_ :: _) as t =>
      if Qle_bool (y1 r) by0 || Qle_bool by1 (y0 r) then m
      else
        let xc := (x0 r + x1 r) / 2 in
        if Qltb xc bx0 || Qltb bx1 xc then m
        else if Qle_bool lx0 xc && Qle_bool xc lx1 then (fst m ++ [(r, t)], snd m)
        else if Qle_bool rx0 xc && Qle_bool xc rx1 then (fst m, snd m ++ [(r, t)])
        else m
  end.

Definition words_by_col : list word * list word :=
  fold_left word_step (pg_words pg) ([], []).

Definition check_column (args : Args) (col : Z) (words : list word) : list Violation :=
  flat_map (fun yl => check_line args page_no col (fst yl) (snd yl))
    (cluster_lines words 0.9).

Definition check_page (args : Args) : list Violation :=
  if Qle_bool w 0 || Qle_bool h 0 then []
  else check_column args 0 (fst words_by_col)
       ++ check_column args 1 (snd words_by_col).

End Page.

Definition scan (args : Args) (cfg : LayoutConfig) (doc : Doc) : list Violation :=
  Loop.for_pages
    (fun page_no pg =>
       if (page_no <=? ignore_first args)%Z then []
       else check_page cfg page_no pg args)
    1%Z (pages doc).

(** [main]; the five lengths are read, with the patterns of this file,
    after the two checks. *)
Definition main (args : Args) (pdf_exists fitz_available : bool)
    (tokens : option str) (doc : Doc) : outcome Violation :=
  if negb pdf_exists then die [PdfNotFound] 1
  else if negb fitz_available then die [MissingDependency] 1
  else
    match Config.load_escaped tokens with
    | None => uncaught
    | Some cfg =>
        let bad := scan args cfg doc in
        match bad with
        | _ :: _ =>
            mkOutcome 2 ([FailSummary (length bad); PdfPath] ++ samples 30 bad) []
        | [] => mkOutcome 0 [] [Passed; PdfPath]
        end
    end.

End Gate.

End BoxJustifyGaps.

(** * Vocabulary of the properties

    The predicates the properties are stated with, and the pages and
    documents they are tried on. *)

Section GeometryTerms.
Import Pdf Geometry.
Local Open Scope Q_scope.

(** The configuration of Example A: top and bottom margins 40pt, inner
    30pt, outer 45pt, column gap 20pt. *)
Definition example_A_config : LayoutConfig := mkConfig 40 40 30 45 20.

End GeometryTerms.

Section CoverageTerms.
Import Num Coverage.
Local Open Scope Q_scope.

(** Intervals with equal end points. *)
Definition ieq (i j : interval) : Prop := fst i == fst j /\ snd i == snd j.

Definition nondegenerate (i : interval) : bool := Qltb (fst i) (snd i).

(** States of the merging loop with equal components. *)
Definition st_eq (s t : Q * Q * Q) : Prop :=
  fst (fst s) == fst (fst t) /\ snd (fst s) == snd (fst t) /\ snd s == snd t.

(** What [union_len] returns for the sorted list of kept intervals. *)
Definition finish (sorted : list interval) : Q :=
  match sorted with
  | [] => 0
  | (a0, b0) :: rest =>
      let '(total, cur_a, cur_b) := fold_left merge_step rest (0, a0, b0) in
      total + (cur_b - cur_a)
  end.

(** The result read off the final state of the merging loop. *)
Definition total_of (st : Q * Q * Q) : Q :=
  fst (fst st) + (snd st - snd (fst st)).

(** [a] sorts no later than [b]. *)
Definition tuple_le (a b : interval) : Prop := tuple_lt b a = false.

End CoverageTerms.

Section ColumnBalanceTerms.
Import Num Pdf Geometry Coverage ColumnBalance.
Local Open Scope Q_scope.

(** Coverage, block count and image flag of one column of a page. *)
Definition cov_of (cfg : LayoutConfig) (n : Z) (pg : Page) (s : side) : Q :=
  match s with Left => left_cov cfg n pg | Right => right_cov cfg n pg end.
Definition blocks_of (cfg : LayoutConfig) (n : Z) (pg : Page) (s : side) : Z :=
  match s with
  | Left => left_blocks (tally cfg n pg)
  | Right => right_blocks (tally cfg n pg)
  end.
Definition has_image (cfg : LayoutConfig) (n : Z) (pg : Page) (s : side) : bool :=
  match s with Left => left_has_image cfg n pg | Right => right_has_image cfg n pg end.

(** The five conditions of the gate for the fuller column [full] and the
    other column [sparse]. *)
Definition five_conditions (args : Args) (cfg : LayoutConfig) (n : Z) (pg : Page)
    (full sparse : side) : Prop :=
  min_full_coverage args <= cov_of cfg n pg full
  /\ (min_full_blocks args <= blocks_of cfg n pg full)%Z
  /\ cov_of cfg n pg sparse <= max_sparse_coverage args
  /\ min_coverage_diff args <= cov_of cfg n pg full - cov_of cfg n pg sparse
  /\ has_image cfg n pg sparse = false.

Definition unbalanced (args : Args) (cfg : LayoutConfig) (n : Z) (pg : Page) : Prop :=
  exists full sparse : side,
    full <> sparse
    /\ cov_of cfg n pg sparse <= cov_of cfg n pg full
    /\ five_conditions args cfg n pg full sparse.

End ColumnBalanceTerms.

Section ColumnBalanceInputs.
Import Py Pdf Geometry ColumnBalance.
Local Open Scope Q_scope.

Definition text_block (x0 y0 x1 y1 : Q) : Block :=
  mkBlock (mkRect x0 y0 x1 y1) (lit "text").

Definition blank_page : Page := mkPage 600 800 [] [] [] [].

(** Six blocks in the left column, one in the right column. *)
Definition lopsided_page : Page :=
  mkPage 600 800
    [text_block 40 50 240 150; text_block 40 160 240 260;
     text_block 40 270 240 370; text_block 40 380 240 480;
     text_block 40 490 240 590; text_block 40 600 240 700;
     text_block 320 50 520 130]
    [] [] [].

(** Four blocks in each column, each column covered to 0.70. *)
Definition even_page : Page :=
  mkPage 600 800
    [text_block 50 50 250 176; text_block 50 180 250 306;
     text_block 50 310 250 436; text_block 50 440 250 566;
     text_block 330 50 530 176; text_block 330 180 530 306;
     text_block 330 310 530 436; text_block 330 440 530 566]
    [] [] [].

Definition sample_doc : Doc :=
  mkDoc [blank_page; blank_page; lopsided_page; even_page] [].

End ColumnBalanceInputs.

Section PageFillTerms.
Import Num Py Pdf Geometry PageFill.
Local Open Scope Q_scope.

(** A qualifying text block: text left after trimming, area at least the
    noise threshold of 200, and inside the body. *)
Definition qualifying_block (cfg : LayoutConfig) (n : Z) (pg : Page) (b : Block) : Prop :=
  let r := b_rect b in
  strip (b_text b) <> []
  /\ 200 <= Qmax 0 (x1 r - x0 r) * Qmax 0 (y1 r - y0 r)
  /\ in_body cfg n pg r = true.

End PageFillTerms.

Section PageFillInputs.
Import Pdf Geometry PageFill.
Local Open Scope Q_scope.

Definition blank_doc : Doc := mkDoc [blank_page; blank_page; blank_page] [].

End PageFillInputs.

Section BulletOrphanTerms.
Import Num Py Pdf Geometry BulletOrphan.
Local Open Scope Q_scope.

(** The shape the gate looks for: [lone] holds one bullet, at or below
    0.65 of the body height, and [others] at least three, the topmost at or
    above 0.40. *)
Definition orphan_shape (cfg : LayoutConfig) (pg : Page) (lone others : list Q) : Prop :=
  exists y : Q,
    lone = [y]
    /\ (3 <= length others)%nat
    /\ 0.65 <= ratio cfg pg y
    /\ exists t : Q,
         t ∈ others /\ (forall u, u ∈ others -> t <= u) /\ ratio cfg pg t <= 0.40.

Definition orphan_split (cfg : LayoutConfig) (n : Z) (pg : Page) : Prop :=
  orphan_shape cfg pg (left_ys cfg n pg) (right_ys cfg n pg)
  \/ orphan_shape cfg pg (right_ys cfg n pg) (left_ys cfg n pg).

End BulletOrphanTerms.

Section BulletOrphanInputs.
Import Py Pdf Geometry BulletOrphan.
Local Open Scope Q_scope.

Definition bullet_line (x0 y0 x1 y1 : Q) : Line :=
  mkLine (mkRect x0 y0 x1 y1) [mkSpan (8226%N :: lit " item") 10].

(** Example D: one bullet low in the left column, four bullets from the top
    of the right column. *)
Definition split_list_page : Page :=
  mkPage 600 800 [] []
    [[bullet_line 40 610 240 622];
     [bullet_line 320 106 520 118; bullet_line 320 130 520 142;
      bullet_line 320 154 520 166; bullet_line 320 178 520 190]]
    [].

Definition split_list_doc : Doc := mkDoc [split_list_page] [].

End BulletOrphanInputs.

Section JustifyGapsInputs.
Import Py Pdf Geometry JustifyGaps.
Local Open Scope Q_scope.

(** Two words 100pt apart on a line that spans 140pt of a 252.5pt column. *)
Definition short_line : list word :=
  [(mkRect 30 100 50 110, lit "een"); (mkRect 150 100 170 110, lit "twee")].

End JustifyGapsInputs.

Section HeadingTerms.
Import Num Py Re Pdf HeadingHyphenation.
Local Open Scope Q_scope.

(** A line ends with a hyphen: nothing but white space follows a [-]. *)
Definition ends_in_hyphen (t : str) : Prop :=
  exists pre suf : str, t = pre ++ lit "-" ++ suf /\ forallb isspace suf = true.

(** A line begins with a letter: after leading white space comes one of
    A-Z, a-z or the accented letters of Latin-1. *)
Definition begins_with_letter (t : str) : Prop :=
  exists (sp : str) (c : char) (rest : str),
    t = sp ++ c :: rest /\ forallb isspace sp = true /\ latin_letter c = true.

End HeadingTerms.

Section HeadingInputs.
Import Py Pdf HeadingHyphenation.
Local Open Scope Q_scope.

(** The break "naslagw-" / "erken" of the validator's own description, set
    in 14pt; the body size is 10pt and the threshold 11.5pt. *)
Definition heading_line_1 : Line := mkLine (mkRect 30 40 200 56) [mkSpan (lit "naslagw-") 14].
Definition heading_line_2 : Line := mkLine (mkRect 30 58 200 74) [mkSpan (lit "erken") 14].

(** The first line set with the hyphen U+2010 instead of U+002D, and a
    second line that begins with the letter U+0153 (the ligature oe). *)
Definition heading_line_1_u2010 : Line :=
  mkLine (mkRect 30 40 200 56) [mkSpan (lit "naslagw" ++ [8208%N]) 14].
Definition heading_line_2_u0153 : Line :=
  mkLine (mkRect 30 58 200 74) [mkSpan (339%N :: lit "uvre") 14].

End HeadingInputs.

Section CliTerms.
Import Pdf Geometry Cli.
Local Open Scope Z_scope.





End CliTerms.

Section EscapedParserTerms.
Import Py Re Loader.

(** The characters of the class [[\\s\\S]]: backslash, s and S. *)
Definition backslash_s : char -> bool := one_of "\sS".

End EscapedParserTerms.

Section LoaderTerms.
Import Py Loader.

(** A tokens file with a well-formed root block. *)
Definition tokens_one_line : str := lit ":root { --margin-top: 20mm; }".

End LoaderTerms.

Section CoverageMoreTerms.
Import Num Coverage.
Local Open Scope Q_scope.

(** The lengths [y1 - y0] of the intervals of a list, added up in the
    order of the list. *)
Definition sum_lengths (l : list interval) : Q :=
  fold_left (fun acc i => acc + (snd i - fst i)) l 0.

End CoverageMoreTerms.

Section StripTerms.
Import Py.

(** A text that neither starts nor ends with white space. *)
Definition trimmed (s : str) : Prop := lstrip s = s /\ lstrip (rev s) = rev s.

End StripTerms.

Section LoaderMoreTerms.
Import Py Re Loader.

(** A well-formed entry of the mapping: the name is two hyphens followed
    by one or more of the characters [a-zA-Z0-9_-]; the value has no
    semicolon and no white space at either end. *)
Definition well_formed_entry (k v : str) : Prop :=
  (exists name : str, k = lit "--" ++ name /\ name <> []
                      /\ forallb name_char name = true)
  /\ strip v = v
  /\ ~ In 59%N v.

End LoaderMoreTerms.

Section ConfigTerms.
Import Num Py Re Geometry Config.
Local Open Scope Q_scope.

(** The number of dots of a text. *)
Definition dots (s : str) : nat := length (List.filter (fun c => (c =? 46)%N) s).

End ConfigTerms.

Section PageFillMoreTerms.
Import Num Py Pdf Geometry PageFill.
Local Open Scope Q_scope.

(** The bottom edge of a rectangle, clipped to the bottom of the body. *)
Definition clipped_bottom (cfg : LayoutConfig) (pg : Page) (r : Rect) : Q :=
  Qmin (y1 r) (body_y1 cfg (pg_height pg)).

End PageFillMoreTerms.

Section ColumnBalanceMoreTerms.
Import Num Py Pdf Geometry Coverage ColumnBalance.
Local Open Scope Q_scope.

(** The block is counted in column [s]. *)
Definition in_column (cfg : LayoutConfig) (n : Z) (pg : Page) (s : side) (b : Block) : bool :=
  match column_of cfg n pg b, s with
  | Some Left, Left | Some Right, Right => true
  | _, _ => false
  end.

(** The rectangle overlaps the body vertically and the strip
    [(cx0, cx1)] horizontally. *)
Definition overlaps_column (cfg : LayoutConfig) (pg : Page) (cx0 cx1 : Q) (r : Rect) : Prop :=
  body_y0 cfg < y1 r /\ y0 r < body_y1 cfg (pg_height pg)
  /\ cx0 < x1 r /\ x0 r < cx1.

End ColumnBalanceMoreTerms.

Section JustifyGapsMoreTerms.
Import Num Py Pdf Geometry JustifyGaps.
Local Open Scope Q_scope.

(** The key of a word: [(block_no, line_no)]. *)
Definition word_key (wd : Word) : Z * Z := (w_block wd, w_line wd).

(** The column whose dictionary receives a word: 0 for the left column,
    1 for the right one, [None] when the word is dropped. *)
Definition word_column (cfg : LayoutConfig) (n : Z) (pg : Page) (wd : Word) : option Z :=
  let r := w_rect wd in
  match strip (w_text wd) with
  | [] => None
  | _ :: _ =>
      if Qle_bool (y1 r) (body_y0 cfg) || Qle_bool (body_y1 cfg (pg_height pg)) (y0 r)
      then None
      else
        let xc := (x0 r + x1 r) / 2 in
        if Qltb xc (body_x0 cfg n) || Qltb (body_x1 cfg n (pg_width pg)) xc then None
        else if Qle_bool (left_x0 cfg n) xc && Qle_bool xc (left_x1 cfg n (pg_width pg))
        then Some 0%Z
        else if Qle_bool (right_x0 cfg n (pg_width pg)) xc
                && Qle_bool xc (right_x1 cfg n (pg_width pg))
        then Some 1%Z
        else None
  end.

(** The words of the page stored under [key] in the dictionary of
    column [col], in page order. *)
Definition line_words (cfg : LayoutConfig) (n : Z) (pg : Page) (col : Z) (key : Z * Z)
    (words : list Word) : list word :=
  List.map (fun wd => (w_rect wd, strip (w_text wd)))
    (List.filter
       (fun wd => bool_decide (word_column cfg n pg wd = Some col)
                  && bool_decide (word_key wd = key))
       words).

(** A dictionary whose keys are distinct and whose lines are the
    non-empty groups of the words of a column. *)
Definition groups_of (cfg : LayoutConfig) (n : Z) (pg : Page) (col : Z)
    (words : list Word) (m : lines) : Prop :=
  NoDup (List.map fst m)
  /\ forall key ws, In (key, ws) m <->
       ws <> [] /\ ws = line_words cfg n pg col key words.

End JustifyGapsMoreTerms.

Section BoxJustifyGapsTerms.
Import Num Py Pdf Geometry BoxJustifyGaps.
Local Open Scope Q_scope.

(** The clusters hold at least one word each and count their words. *)
Definition well_counted (cs : list Cluster) : Prop :=
  Forall (fun c => c_words c <> [] /\ c_n c = Z.of_nat (length (c_words c))) cs.

End BoxJustifyGapsTerms.

(** * Properties *)

(** ** Page geometry *)

Section GeometryFacts.
Import Pdf Geometry.
Local Open Scope Q_scope.

(** C1, as stated: on page 3 of size 600 by 800 the body would be
    [30,40,570,760], the column width 260 and the columns [30,40,290,760]
    and [310,40,570,760].  The code puts the outer margin (45pt) on the
    right of an odd page, so the body ends at 555 and the statement fails. *)
Lemma example_A_as_stated_fails :
  ~ (rect_eq (body_rect example_A_config 3 600 800) (mkRect 30 40 570 760)
     /\ col_w example_A_config 3 600 == 260
     /\ rect_eq (left_column_rect example_A_config 3 600 800) (mkRect 30 40 290 760)
     /\ rect_eq (right_column_rect example_A_config 3 600 800) (mkRect 310 40 570 760)).
Proof.
  intros [[_ [_ [Hx1 _]]] _].
  vm_compute in Hx1. discriminate Hx1.
Qed.

(** C1, amended: on page 3 (odd, so not a left page) of size 600 by 800
    with the margins of Example A the body is [30,40,555,760], the column
    width is (525 - 20) / 2 = 252.5, the left column is [30,40,282.5,760]
    and the right column is [302.5,40,555,760]. *)
Theorem example_A_geometry :
  is_left_page 3 = false
  /\ rect_eq (body_rect example_A_config 3 600 800) (mkRect 30 40 555 760)
  /\ col_w example_A_config 3 600 == (525 - 20) / 2
  /\ col_w example_A_config 3 600 == 252.5
  /\ rect_eq (left_column_rect example_A_config 3 600 800) (mkRect 30 40 282.5 760)
  /\ rect_eq (right_column_rect example_A_config 3 600 800) (mkRect 302.5 40 555 760).
Proof.
  unfold rect_eq; repeat split; vm_compute; reflexivity.
Qed.



End GeometryFacts.

(** ** Coverage engine *)

Section CoverageFacts.
Import Num Coverage.
Local Open Scope Q_scope.

Lemma Qltb_lt (a b : Q) : Qltb a b = true <-> a < b.
Proof.
  unfold Qltb. rewrite negb_true_iff, <- not_true_iff_false, Qle_bool_iff.
  split; [apply Qnot_le_lt | apply Qlt_not_le].
Qed.

Lemma Qltb_ge (a b : Q) : Qltb a b = false <-> b <= a.
Proof.
  unfold Qltb. rewrite negb_false_iff. apply Qle_bool_iff.
Qed.

Lemma Qle_bool_gt (a b : Q) : Qle_bool a b = false <-> b < a.
Proof.
  rewrite <- not_true_iff_false, Qle_bool_iff.
  split; [apply Qnot_le_lt | apply Qlt_not_le].
Qed.

Lemma truthy_nonzero (a : Q) : truthy a = true <-> ~ a == 0.
Proof.
  unfold truthy. rewrite negb_true_iff, <- not_true_iff_false, Qeq_bool_iff.
  reflexivity.
Qed.

Lemma tuple_lt_spec (i j : interval) :
  tuple_lt i j = true <->
  fst i < fst j \/ (fst i == fst j /\ snd i < snd j).
Proof.
  unfold tuple_lt.
  rewrite orb_true_iff, andb_true_iff, !Qltb_lt, Qeq_bool_iff. reflexivity.
Qed.

Lemma tuple_lt_false (i j : interval) :
  tuple_lt i j = false <->
  fst j < fst i \/ (fst i == fst j /\ snd j <= snd i).
Proof.
  rewrite <- not_true_iff_false, tuple_lt_spec. lra.
Qed.

Ltac order_cases :=
  repeat match goal with
  | H : tuple_lt _ _ = true |- _ => apply tuple_lt_spec in H
  | H : tuple_lt _ _ = false |- _ => apply tuple_lt_false in H
  end.

Lemma Forall2_ieq_refl (l : list interval) : Forall2 ieq l l.
Proof. induction l; constructor; [split; reflexivity | assumption]. Qed.

Lemma Forall2_ieq_trans (l m n : list interval) :
  Forall2 ieq l m -> Forall2 ieq m n -> Forall2 ieq l n.
Proof.
  intros H; revert n; induction H as [|x y l m [Hx1 Hx2] _ IH]; intros n Hn.
  - inversion Hn; constructor.
  - inversion Hn as [|y' z m' n' [Hy1 Hy2] Hmn]; subst.
    constructor; [split; lra | apply IH; assumption].
Qed.

Lemma tuple_lt_ieq (x x' y y' : interval) :
  ieq x x' -> ieq y y' -> tuple_lt x y = tuple_lt x' y'.
Proof.
  intros [H1 H2] [H3 H4].
  destruct (tuple_lt x y) eqn:E, (tuple_lt x' y') eqn:E'; try reflexivity;
    order_cases; exfalso; lra.
Qed.

(** Inserting equal intervals into equal lists gives equal lists. *)
Lemma insert_ieq (x x' : interval) (l l' : list interval) :
  ieq x x' -> Forall2 ieq l l' ->
  Forall2 ieq (Py.insert_by tuple_lt x l) (Py.insert_by tuple_lt x' l').
Proof.
  intros Hx H; induction H as [|y y' l l' Hy Hl IH]; simpl.
  - constructor; [assumption | constructor].
  - rewrite (tuple_lt_ieq y y' x x' Hy Hx).
    destruct (tuple_lt y' x'); repeat (constructor; try assumption).
Qed.

(** Two insertions commute, up to the order of equal intervals. *)
Lemma insert_comm (x y : interval) (l : list interval) :
  Forall2 ieq (Py.insert_by tuple_lt x (Py.insert_by tuple_lt y l))
              (Py.insert_by tuple_lt y (Py.insert_by tuple_lt x l)).
Proof.
  induction l as [|h t IH]; simpl.
  - destruct (tuple_lt y x) eqn:Eyx, (tuple_lt x y) eqn:Exy; simpl;
      try apply Forall2_ieq_refl.
    + order_cases; exfalso; lra.
    + order_cases. repeat constructor; unfold ieq; lra.
  - destruct (tuple_lt h y) eqn:Ehy, (tuple_lt h x) eqn:Ehx; simpl;
      rewrite ?Ehy, ?Ehx.
    + constructor; [split; reflexivity | exact IH].
    + assert (Exy : tuple_lt x y = true)
        by (apply tuple_lt_spec; order_cases; lra).
      rewrite Exy. simpl. rewrite ?Ehy. apply Forall2_ieq_refl.
    + assert (Eyx : tuple_lt y x = true)
        by (apply tuple_lt_spec; order_cases; lra).
      rewrite Eyx. simpl. rewrite ?Ehx. apply Forall2_ieq_refl.
    + destruct (tuple_lt y x) eqn:Eyx, (tuple_lt x y) eqn:Exy; simpl;
        rewrite ?Ehy, ?Ehx; try apply Forall2_ieq_refl.
      * order_cases; exfalso; lra.
      * order_cases.
        constructor; [unfold ieq; lra|].
        constructor; [unfold ieq; lra|]. apply Forall2_ieq_refl.
Qed.

(** Sorting after the filter depends on the order of the input only up
    to the order of equal intervals. *)
Lemma sort_filter_perm (l l' : list interval) :
  Permutation l l' ->
  Forall2 ieq (sort (List.filter nondegenerate l))
              (sort (List.filter nondegenerate l')).
Proof.
  unfold sort, Py.sorted_by.
  induction 1 as [|x l l' _ IH|x y l|l m n _ IH1 _ IH2]; simpl.
  - constructor.
  - destruct (nondegenerate x); simpl; [|exact IH].
    apply insert_ieq; [split; reflexivity | exact IH].
  - destruct (nondegenerate x), (nondegenerate y); simpl;
      try apply Forall2_ieq_refl.
    apply insert_comm.
  - eapply Forall2_ieq_trans; eassumption.
Qed.

Lemma merge_step_eq (s t : Q * Q * Q) (i j : interval) :
  st_eq s t -> ieq i j -> st_eq (merge_step s i) (merge_step t j).
Proof.
  destruct s as [[ts as_] bs], t as [[tt at_] bt], i as [a b], j as [c d].
  unfold st_eq, ieq, merge_step; simpl. intros (H1 & H2 & H3) [H4 H5].
  destruct (Qle_bool a bs) eqn:E1, (Qle_bool c bt) eqn:E2; simpl;
    try (apply Qle_bool_iff in E1); try (apply Qle_bool_iff in E2);
    try (apply Qle_bool_gt in E1); try (apply Qle_bool_gt in E2);
    try (exfalso; lra).
  - repeat split; try assumption.
    destruct (Q.max_spec bs b) as [[? ->]|[? ->]],
             (Q.max_spec bt d) as [[? ->]|[? ->]]; lra.
  - repeat split; lra.
Qed.

Lemma fold_merge_eq (l m : list interval) :
  Forall2 ieq l m -> forall s t, st_eq s t ->
  st_eq (fold_left merge_step l s) (fold_left merge_step m t).
Proof.
  induction 1 as [|i j l m Hij _ IH]; intros s t Hst; simpl.
  - exact Hst.
  - apply IH, merge_step_eq; assumption.
Qed.

Lemma union_len_finish (l : list interval) :
  union_len l = finish (sort (List.filter nondegenerate l)).
Proof. reflexivity. Qed.

Lemma finish_cons (i : interval) (rest : list interval) :
  finish (i :: rest) = total_of (fold_left merge_step rest (0, fst i, snd i)).
Proof.
  destruct i as [a b]. simpl.
  destruct (fold_left merge_step rest (0, a, b)) as [[t ca] cb]. reflexivity.
Qed.

Lemma total_of_eq (s t : Q * Q * Q) : st_eq s t -> total_of s == total_of t.
Proof. unfold st_eq, total_of. intros (H1 & H2 & H3). rewrite H1, H2, H3. reflexivity. Qed.

Lemma finish_eq (l m : list interval) :
  Forall2 ieq l m -> finish l == finish m.
Proof.
  destruct 1 as [|i j l m [H1 H2] H]; [reflexivity|].
  rewrite !finish_cons. apply total_of_eq, fold_merge_eq; [exact H|].
  repeat split; simpl; try assumption; reflexivity.
Qed.

Lemma In_insert (z x : interval) (l : list interval) :
  In z (Py.insert_by tuple_lt x l) <-> z = x \/ In z l.
Proof.
  induction l as [|h t IH]; simpl; [intuition congruence|].
  destruct (tuple_lt h x); simpl; rewrite ?IH; intuition congruence.
Qed.

Lemma In_sort (z : interval) (l : list interval) : In z (sort l) <-> In z l.
Proof.
  unfold sort, Py.sorted_by. induction l as [|h t IH]; simpl; [tauto|].
  rewrite In_insert, IH. intuition congruence.
Qed.

Lemma Forall_In_insert (P : interval -> Prop) (x : interval) (l : list interval) :
  P x -> List.Forall P l -> List.Forall P (Py.insert_by tuple_lt x l).
Proof.
  intros Hx Hl. apply List.Forall_forall. intros z Hz.
  apply In_insert in Hz. destruct Hz as [->|Hz]; [exact Hx|].
  rewrite List.Forall_forall in Hl. apply Hl, Hz.
Qed.

Lemma insert_sorted (x : interval) (l : list interval) :
  StronglySorted tuple_le l -> StronglySorted tuple_le (Py.insert_by tuple_lt x l).
Proof.
  induction 1 as [|h t Hs IH Hh]; simpl.
  - constructor; constructor.
  - destruct (tuple_lt h x) eqn:E.
    + constructor; [exact IH|].
      apply Forall_In_insert; [|exact Hh].
      unfold tuple_le. apply tuple_lt_false. order_cases. lra.
    + constructor; [constructor; assumption|].
      constructor; [exact E|].
      eapply List.Forall_impl; [|exact Hh].
      unfold tuple_le. intros z Hz. apply tuple_lt_false. order_cases. lra.
Qed.

Lemma sort_sorted (l : list interval) : StronglySorted tuple_le (sort l).
Proof.
  unfold sort, Py.sorted_by. induction l; simpl;
    [constructor | apply insert_sorted; assumption].
Qed.

(** Merging an interval a second time changes nothing. *)
Lemma merge_step_twice (st : Q * Q * Q) (x h : interval) :
  nondegenerate x = true -> ieq x h ->
  st_eq (merge_step (merge_step st x) h) (merge_step st h).
Proof.
  destruct st as [[t ca] cb], x as [a b], h as [c d].
  unfold nondegenerate, ieq, st_eq, merge_step; simpl.
  rewrite Qltb_lt. intros Hab [H1 H2].
  destruct (Qle_bool a cb) eqn:E1, (Qle_bool c cb) eqn:E2; simpl;
    try (apply Qle_bool_iff in E1); try (apply Qle_bool_iff in E2);
    try (apply Qle_bool_gt in E1); try (apply Qle_bool_gt in E2);
    try (exfalso; lra).
  - destruct (Qle_bool c (Qmax cb b)) eqn:E3; simpl.
    + repeat split; try reflexivity.
      destruct (Q.max_spec cb b) as [[? Hm]|[? Hm]]; rewrite Hm;
        destruct (Q.max_spec cb d) as [[? ->]|[? ->]];
        destruct (Q.max_spec b d) as [[? Hm']|[? Hm']]; rewrite ?Hm'; lra.
    + apply Qle_bool_gt in E3. exfalso.
      destruct (Q.max_spec cb b) as [[? Hm]|[? Hm]]; rewrite Hm in E3; lra.
  - destruct (Qle_bool c b) eqn:E3; simpl.
    + repeat split; try lra.
      destruct (Q.max_spec b d) as [[? ->]|[? ->]]; lra.
    + apply Qle_bool_gt in E3. exfalso. lra.
Qed.

Lemma dup_head (x h : interval) (t : list interval) :
  List.Forall (tuple_le h) t -> In x (h :: t) -> tuple_lt h x = false -> ieq x h.
Proof.
  intros Hh [->|Hx] E; [split; reflexivity|].
  rewrite List.Forall_forall in Hh. specialize (Hh x Hx). unfold tuple_le in Hh.
  order_cases. unfold ieq. lra.
Qed.

Lemma dup_tail (x h : interval) (t : list interval) :
  In x (h :: t) -> tuple_lt h x = true -> In x t.
Proof.
  intros [->|Hx] E; [|exact Hx].
  order_cases. exfalso. lra.
Qed.

(** Inserting an interval that the sorted list already holds leaves the
    state of the merging loop unchanged. *)
Lemma fold_merge_dup (x : interval) (t : list interval) :
  nondegenerate x = true -> StronglySorted tuple_le t -> In x t ->
  forall st, st_eq (fold_left merge_step (Py.insert_by tuple_lt x t) st)
                   (fold_left merge_step t st).
Proof.
  intros Hx Hs; induction Hs as [|h t Hs IH Hh]; intros Hin st; [destruct Hin|].
  simpl. destruct (tuple_lt h x) eqn:E; simpl.
  - apply IH. eapply dup_tail; eassumption.
  - apply fold_merge_eq; [apply Forall2_ieq_refl|].
    apply merge_step_twice; [exact Hx|]. eapply dup_head; eassumption.
Qed.

Lemma finish_dup (x : interval) (s : list interval) :
  nondegenerate x = true -> StronglySorted tuple_le s -> In x s ->
  finish (Py.insert_by tuple_lt x s) == finish s.
Proof.
  intros Hx Hs Hin. inversion Hs as [|h t Hs' Hh]; subst; [destruct Hin|].
  cbn [Py.insert_by]. destruct (tuple_lt h x) eqn:E.
  - rewrite !finish_cons. apply total_of_eq, fold_merge_dup; try assumption.
    eapply dup_tail; eassumption.
  - pose proof (dup_head x h t Hh Hin E) as [H1 H2].
    rewrite !finish_cons. cbn [fold_left].
    apply total_of_eq, fold_merge_eq; [apply Forall2_ieq_refl|].
    unfold nondegenerate in Hx. apply Qltb_lt in Hx.
    destruct x as [xa xb], h as [a b]; simpl in *.
    unfold merge_step, st_eq.
    destruct (Qle_bool a xb) eqn:E1; simpl.
    + repeat split; try lra.
      destruct (Q.max_spec xb b) as [[? ->]|[? ->]]; lra.
    + apply Qle_bool_gt in E1. exfalso. lra.
Qed.

Lemma union_len_perm (l l' : list interval) :
  Permutation l l' -> union_len l == union_len l'.
Proof.
  intros H. rewrite !union_len_finish. apply finish_eq, sort_filter_perm, H.
Qed.

Lemma union_len_dup_head (x : interval) (l : list interval) :
  In x l -> union_len (x :: l) == union_len l.
Proof.
  intros Hin. rewrite !union_len_finish. simpl.
  destruct (nondegenerate x) eqn:Hx; [|reflexivity].
  apply finish_dup; [exact Hx | apply sort_sorted |].
  apply In_sort, List.filter_In. split; assumption.
Qed.

Lemma coverage_eq (bh : Q) (l l' : list interval) :
  union_len l == union_len l' -> coverage bh l == coverage bh l'.
Proof.
  intros H. unfold coverage. destruct (truthy bh); [|reflexivity].
  rewrite H. reflexivity.
Qed.

Lemma body_h_ge_1 (cfg : Geometry.LayoutConfig) (h : Q) : 1 <= Geometry.body_h cfg h.
Proof. unfold Geometry.body_h. apply Q.le_max_l. Qed.

(** C5: the union length and the coverage computed from it do not depend on
    the order of the intervals or on repeated intervals, an interval with
    [y1 <= y0] adds nothing, and the empty list has coverage 0 on every
    page. *)
Theorem coverage_engine_invariance :
  (forall (l l' : list interval) (bh : Q), Permutation l l' ->
     union_len l == union_len l' /\ coverage bh l == coverage bh l')
  /\ (forall (x : interval) (l1 l2 : list interval) (bh : Q), In x (l1 ++ l2) ->
        union_len (l1 ++ x :: l2) == union_len (l1 ++ l2)
        /\ coverage bh (l1 ++ x :: l2) == coverage bh (l1 ++ l2))
  /\ (forall (y0 y1 : Q) (l1 l2 : list interval) (bh : Q), y1 <= y0 ->
        union_len (l1 ++ (y0, y1) :: l2) == union_len (l1 ++ l2)
        /\ coverage bh (l1 ++ (y0, y1) :: l2) == coverage bh (l1 ++ l2))
  /\ (forall (cfg : Geometry.LayoutConfig) (h : Q),
        union_len [] == 0
        /\ coverage (Geometry.body_h cfg h) [] == 0
        /\ ~ coverage (Geometry.body_h cfg h) [] == 1).
Proof.
  split; [|split; [|split]].
  - intros l l' bh H. pose proof (union_len_perm l l' H) as Hu.
    split; [exact Hu | apply coverage_eq, Hu].
  - intros x l1 l2 bh Hin.
    assert (Hu : union_len (l1 ++ x :: l2) == union_len (l1 ++ l2)).
    { rewrite (union_len_perm (l1 ++ x :: l2) (x :: l1 ++ l2)).
      - apply union_len_dup_head, Hin.
      - symmetry. apply Permutation_middle. }
    split; [exact Hu | apply coverage_eq, Hu].
  - intros y0 y1 l1 l2 bh Hle.
    assert (Hu : union_len (l1 ++ (y0, y1) :: l2) == union_len (l1 ++ l2)).
    { rewrite !union_len_finish, !List.filter_app. simpl.
      replace (nondegenerate (y0, y1)) with false; [reflexivity|].
      symmetry. apply Qltb_ge. exact Hle. }
    split; [exact Hu | apply coverage_eq, Hu].
  - intros cfg h.
    assert (Hc : coverage (Geometry.body_h cfg h) [] == 0).
    { unfold coverage. pose proof (body_h_ge_1 cfg h) as Hb.
      replace (truthy (Geometry.body_h cfg h)) with true
        by (symmetry; apply truthy_nonzero; lra).
      change (union_len []) with 0. vm_compute. reflexivity. }
    split; [reflexivity | split; [exact Hc | rewrite Hc; lra]].
Qed.
Lemma coverage_engine_invariance_witness :
  (Permutation [(1, 3); (2, 5)] [(2, 5); (1, 3)]
   /\ Coverage.union_len [(1, 3); (2, 5)] == Coverage.union_len [(2, 5); (1, 3)])
  /\ (In (1, 3) ([(1, 3)] ++ [(2, 5)])
      /\ Coverage.union_len ([(1, 3)] ++ (1, 3) :: [(2, 5)])
         == Coverage.union_len ([(1, 3)] ++ [(2, 5)]))
  /\ (4 <= 4
      /\ Coverage.union_len ([(1, 3)] ++ (4, 4) :: [(2, 5)])
         == Coverage.union_len ([(1, 3)] ++ [(2, 5)])).
Proof.
  destruct coverage_engine_invariance as (Hperm & Hdup & Hdeg & _).
  assert (P : Permutation [(1, 3); (2, 5)] [(2, 5); (1, 3)]) by apply perm_swap.
  assert (I : In (1, 3) ([(1, 3)] ++ [(2, 5)])) by (left; reflexivity).
  assert (L : 4 <= 4) by apply Qle_refl.
  split; [split; [exact P | exact (proj1 (Hperm _ _ 1 P))]|].
  split; [split; [exact I | exact (proj1 (Hdup _ _ _ 1 I))]|].
  split; [exact L | exact (proj1 (Hdeg _ _ _ _ 1 L))].
Defined.

End CoverageFacts.

(** ** The page loop *)

Section LoopFacts.
Import Pdf Loop.
Context {V : Type}.
Variable body : Z -> Page -> list V.

(** The list [bad] holds exactly what the loop body yields for each page
    of the document, page [i] (from 0) being numbered [i + 1]. *)
Lemma for_pages_elem (v : V) (pgs : list Page) (start : Z) :
  v ∈ for_pages body start pgs <->
  exists (i : nat) (pg : Page),
    pgs !! i = Some pg /\ v ∈ body (start + Z.of_nat i)%Z pg.
Proof.
  revert start. induction pgs as [|pg rest IH]; intros start; simpl.
  - split; [intros H; inversion H | intros (i & pg & H & _); destruct i; discriminate].
  - rewrite elem_of_app, IH. split.
    + intros [H|(i & pg' & Hl & Hv)].
      * exists 0%nat, pg. rewrite Z.add_0_r. split; [reflexivity | exact H].
      * exists (S i), pg'. split; [exact Hl|].
        replace (start + Z.of_nat (S i))%Z with (start + 1 + Z.of_nat i)%Z by lia.
        exact Hv.
    + intros ([|i] & pg' & Hl & Hv); simpl in Hl.
      * left. injection Hl as ->. rewrite Z.add_0_r in Hv. exact Hv.
      * right. exists i, pg'. split; [exact Hl|].
        replace (start + 1 + Z.of_nat i)%Z with (start + Z.of_nat (S i))%Z by lia.
        exact Hv.
Qed.

(** When every violation carries the number of its page, the violations
    reported for a page are those its loop body yields. *)
Lemma for_pages_on_page (page_of : V -> Z) (pgs : list Page) (i : nat) (pg : Page) :
  (forall n p v, v ∈ body n p -> page_of v = n) ->
  pgs !! i = Some pg ->
  ((exists v, v ∈ for_pages body 1 pgs /\ page_of v = (Z.of_nat i + 1)%Z)
   <-> body (Z.of_nat i + 1)%Z pg <> []).
Proof.
  intros Hpage Hl. split.
  - intros (v & Hv & Hn). apply for_pages_elem in Hv.
    destruct Hv as (j & pg' & Hl' & Hv).
    pose proof (Hpage _ _ _ Hv) as Hj.
    assert (j = i) by lia. subst j.
    rewrite Hl in Hl'. injection Hl' as <-.
    replace (Z.of_nat i + 1)%Z with (1 + Z.of_nat i)%Z by lia.
    intros E. rewrite E in Hv. inversion Hv.
  - intros Hne. destruct (body (Z.of_nat i + 1)%Z pg) as [|v rest] eqn:E; [congruence|].
    exists v. split.
    + apply for_pages_elem. exists i, pg. split; [exact Hl|].
      replace (1 + Z.of_nat i)%Z with (Z.of_nat i + 1)%Z by lia.
      rewrite E. left.
    + apply (Hpage (Z.of_nat i + 1)%Z pg). rewrite E. left.
Qed.

End LoopFacts.

(** ** Column-Balance gate *)

Section ColumnBalanceFacts.
Import Num Pdf Geometry Coverage ColumnBalance.
Local Open Scope Q_scope.

Lemma column_balance_flagged_iff (args : Args) (cfg : LayoutConfig) (n : Z) (pg : Page) :
  0 < min_coverage_diff args ->
  (flagged cfg n pg args = true <-> unbalanced args cfg n pg).
Proof.
  intros Hd. unfold flagged, unbalanced, five_conditions.
  rewrite !andb_true_iff, !Qle_bool_iff, negb_true_iff, Z.leb_le.
  unfold full_cov, sparse_cov, full_blocks, sparse_has_image, full_side.
  destruct (Qle_bool (right_cov cfg n pg) (left_cov cfg n pg)) eqn:E.
  - apply Qle_bool_iff in E. split.
    + intros ((((H1 & H2) & H3) & H4) & H5).
      exists Left, Right. simpl. repeat split; try assumption. discriminate.
    + intros (full & sparse & Hne & Hle & H1 & H2 & H3 & H4 & H5).
      destruct full, sparse; try congruence; simpl in *.
      * repeat split; assumption.
      * exfalso. lra.
  - apply Qle_bool_gt in E. split.
    + intros ((((H1 & H2) & H3) & H4) & H5).
      exists Right, Left. simpl. repeat split; try assumption; [discriminate | lra].
    + intros (full & sparse & Hne & Hle & H1 & H2 & H3 & H4 & H5).
      destruct full, sparse; try congruence; simpl in *.
      * exfalso. lra.
      * repeat split; assumption.
Qed.

Lemma column_balance_check_page_page (args : Args) (cfg : LayoutConfig) (n : Z) (pg : Page)
    (v : Violation) :
  v ∈ check_page cfg n pg args -> v_page v = n.
Proof.
  unfold check_page.
  destruct (Qle_bool _ 0 || Qle_bool _ 0); [intros H; inversion H|].
  destruct (flagged cfg n pg args); intros H; [|inversion H].
  apply list_elem_of_singleton in H. subst v. reflexivity.
Qed.

Lemma positive_size (w h : Q) :
  0 < w -> 0 < h -> Qle_bool w 0 || Qle_bool h 0 = false.
Proof.
  intros Hw Hh. apply orb_false_iff. split; apply Qle_bool_gt; assumption.
Qed.

(** C4: on a page the gate examines, a violation is reported exactly when
    the five conditions hold for the fuller and the sparser column; with the
    default thresholds (0.65, 4 blocks, 0.40, 0.25, no image) a page whose
    columns both have coverage within 0.05 of 0.70 and at least 4 blocks is
    not reported. *)
Theorem column_balance_flags_iff (args : Args) (cfg : LayoutConfig) (doc : Doc)
    (i : nat) (pg : Page) :
  let n := (Z.of_nat i + 1)%Z in
  pages doc !! i = Some pg ->
  ignored args doc n = false ->
  0 < pg_width pg -> 0 < pg_height pg ->
  0 < min_coverage_diff args ->
  ((exists v, v ∈ scan args cfg doc /\ v_page v = n) <-> unbalanced args cfg n pg)
  /\ (args = default_args ->
      0.70 - 0.05 <= left_cov cfg n pg <= 0.70 + 0.05 ->
      0.70 - 0.05 <= right_cov cfg n pg <= 0.70 + 0.05 ->
      (4 <= left_blocks (tally cfg n pg))%Z ->
      (4 <= right_blocks (tally cfg n pg))%Z ->
      ~ exists v, v ∈ scan args cfg doc /\ v_page v = n).
Proof.
  intros n Hl Hi Hw Hh Hd.
  assert (Hscan : (exists v, v ∈ scan args cfg doc /\ v_page v = n)
                  <-> unbalanced args cfg n pg).
  { subst n. unfold scan.
    rewrite (for_pages_on_page _ v_page (pages doc) i pg); [| |exact Hl].
    - rewrite Hi. unfold check_page.
      rewrite (positive_size _ _ Hw Hh), <- (column_balance_flagged_iff args cfg _ pg Hd).
      destruct (flagged cfg _ pg args); split; congruence.
    - intros m p v. destruct (ignored args doc m); [intros H; inversion H|].
      apply column_balance_check_page_page. }
  split; [exact Hscan|].
  intros -> [Hl1 Hl2] [Hr1 Hr2] _ _. rewrite Hscan.
  intros (full & sparse & Hne & Hle & H1 & H2 & H3 & H4 & H5).
  unfold default_args in H3; simpl in H3.
  destruct sparse; simpl in H3; lra.
Qed.

End ColumnBalanceFacts.

(** Closed comparisons of rationals. *)
Ltac qcompute :=
  vm_compute; first [reflexivity | discriminate | (intro; discriminate)].

Section ColumnBalanceExample.
Import Py Pdf Geometry ColumnBalance.
Local Open Scope Q_scope.

Lemma column_balance_flags_iff_witness :
  (exists v, v ∈ scan default_args example_A_config sample_doc /\ v_page v = 3%Z)
  /\ ~ (exists v, v ∈ scan default_args example_A_config sample_doc /\ v_page v = 4%Z).
Proof.
  split.
  - apply (column_balance_flags_iff default_args example_A_config sample_doc
             2%nat lopsided_page);
      [reflexivity | reflexivity | qcompute | qcompute | qcompute |].
    exists Left, Right.
    split; [discriminate|]. split; [qcompute|].
    unfold five_conditions. repeat split; qcompute.
  - apply (column_balance_flags_iff default_args example_A_config sample_doc
             3%nat even_page);
      [reflexivity | reflexivity | qcompute | qcompute | qcompute | reflexivity
      | split; qcompute | split; qcompute | qcompute | qcompute].
Defined.

End ColumnBalanceExample.

(** ** Rounding *)

Section RoundFacts.
Import Num.
Local Open Scope Q_scope.

Lemma round_half_even_eq (x y : Q) : x == y -> round_half_even x = round_half_even y.
Proof.
  intros E. unfold round_half_even. cbv zeta.
  assert (F : Qfloor x = Qfloor y) by (apply Qfloor_comp; exact E).
  assert (C : Qcompare (x - inject_Z (Qfloor y)) (1 # 2)
              = Qcompare (y - inject_Z (Qfloor y)) (1 # 2)).
  { apply Qcompare_comp; [|reflexivity]. rewrite E. reflexivity. }
  rewrite F, C. reflexivity.
Qed.

Lemma round_eq (x y : Q) (ndigits : nat) : x == y -> round x ndigits = round y ndigits.
Proof.
  intros E. unfold round. apply Qred_complete.
  set (k := inject_Z (10 ^ Z.of_nat ndigits)).
  rewrite (round_half_even_eq (x * k) (y * k)); [reflexivity|].
  rewrite E. reflexivity.
Qed.

Lemma round_zero (x : Q) (ndigits : nat) : x == 0 -> round x ndigits == 0.
Proof.
  intros E. rewrite (round_eq x 0 ndigits E). unfold round. rewrite Qred_correct.
  set (k := inject_Z (10 ^ Z.of_nat ndigits)).
  rewrite (round_half_even_eq (0 * k) 0) by ring.
  unfold Qdiv. change (inject_Z (round_half_even 0)) with 0. ring.
Qed.

End RoundFacts.

(** ** Page-Fill gate *)

Section PageFillFacts.
Import Num Py Pdf Geometry PageFill.
Local Open Scope Q_scope.

Lemma block_counts_iff (cfg : LayoutConfig) (n : Z) (pg : Page) (b : Block) :
  block_counts cfg n pg b = true <-> qualifying_block cfg n pg b.
Proof.
  unfold block_counts, qualifying_block.
  destruct (strip (b_text b)) as [|c s].
  - split; [discriminate | intros [H _]; congruence].
  - destruct (Qltb _ 200) eqn:E.
    + apply Qltb_lt in E. split; [discriminate | intros (_ & H & _); lra].
    + apply Qltb_ge in E. split; [intros H; repeat split; [discriminate|exact E|exact H] | tauto].
Qed.

Lemma fold_block_step_none (cfg : LayoutConfig) (n : Z) (pg : Page)
    (bs : list Block) (y : Q) :
  (forall b, b ∈ bs -> ~ qualifying_block cfg n pg b) ->
  fold_left (block_step cfg n pg) bs y = y.
Proof.
  revert y. induction bs as [|b bs IH]; intros y H; simpl; [reflexivity|].
  unfold block_step at 2.
  destruct (block_counts cfg n pg b) eqn:E.
  - apply block_counts_iff in E. exfalso. apply (H b); [left | exact E].
  - apply IH. intros b' Hb'. apply H. right. exact Hb'.
Qed.

Lemma fold_image_step_none (cfg : LayoutConfig) (n : Z) (pg : Page)
    (imgs : list (list Rect)) (y : Q) :
  (forall rects r, rects ∈ imgs -> r ∈ rects -> in_body cfg n pg r = false) ->
  fold_left (fun ym rects => fold_left (image_step cfg n pg) rects ym) imgs y = y.
Proof.
  revert y. induction imgs as [|rects imgs IH]; intros y H; simpl; [reflexivity|].
  assert (Hr : fold_left (image_step cfg n pg) rects y = y).
  { assert (Hin : forall r, r ∈ rects -> in_body cfg n pg r = false)
      by (intros r Hr; apply (H rects r); [left | exact Hr]).
    clear H IH. revert y. induction rects as [|r rects IHr]; intros y; simpl; [reflexivity|].
    unfold image_step at 2. rewrite (Hin r) by left.
    apply IHr. intros r' Hr'. apply Hin. right. exact Hr'. }
  rewrite Hr. apply IH. intros rects' r Hrects Hr'. apply (H rects' r); [right|]; assumption.
Qed.

Lemma page_fill_check_page_page (args : Args) (cfg : LayoutConfig) (n : Z) (pg : Page)
    (v : Violation) :
  v ∈ check_page cfg n pg args -> v_page v = n.
Proof.
  unfold check_page.
  destruct (Qle_bool _ 0 || Qle_bool _ 0); [intros H; inversion H|].
  destruct (Qltb _ _); intros H; [|inversion H].
  apply list_elem_of_singleton in H. subst v. reflexivity.
Qed.

(** The Page-Fill gate never looks at the column gap. *)
Lemma page_fill_scan_col_gap (args : Args) (cfg : LayoutConfig) (g : Q) (doc : Doc) :
  scan args
    (mkConfig (margin_top cfg) (margin_bottom cfg) (margin_inner cfg)
       (margin_outer cfg) g) doc
  = scan args cfg doc.
Proof. reflexivity. Qed.

(** C6: on a page the gate examines that has no qualifying text block and
    no image rectangle inside the body, the used ratio is 0 and, for every
    [min_used] in (0, 1], the page is reported. *)
Theorem page_fill_empty_page_flagged (args : Args) (cfg : LayoutConfig) (doc : Doc)
    (i : nat) (pg : Page) :
  let n := (Z.of_nat i + 1)%Z in
  pages doc !! i = Some pg ->
  ignored args doc n = false ->
  0 < pg_width pg -> 0 < pg_height pg ->
  (forall b, b ∈ pg_blocks pg -> ~ qualifying_block cfg n pg b) ->
  (forall rects r, rects ∈ pg_images pg -> r ∈ rects -> in_body cfg n pg r = false) ->
  0 < min_used args <= 1 ->
  used_ratio cfg n pg == 0
  /\ exists v, v ∈ scan args cfg doc /\ v_page v = n /\ v_used_ratio v == 0.
Proof.
  intros n Hl Hi Hw Hh Hb Him [Hm _]. subst n.
  assert (Hy : y_max cfg (Z.of_nat i + 1) pg = body_y0 cfg).
  { unfold y_max. rewrite fold_block_step_none by exact Hb.
    apply fold_image_step_none. exact Him. }
  assert (Hu : used_ratio cfg (Z.of_nat i + 1) pg == 0).
  { unfold used_ratio. rewrite Hy.
    pose proof (body_h_ge_1 cfg (pg_height pg)) as H1.
    replace (truthy (body_h cfg (pg_height pg))) with true
      by (symmetry; apply truthy_nonzero; lra).
    field. lra. }
  split; [exact Hu|].
  exists (mkViolation (Z.of_nat i + 1) (round (used_ratio cfg (Z.of_nat i + 1) pg) 3)
            (round (y_max cfg (Z.of_nat i + 1) pg) 1) (round (body_y0 cfg) 1)
            (round (body_y1 cfg (pg_height pg)) 1)).
  split; [|split; [reflexivity | apply round_zero; exact Hu]].
  unfold scan. apply for_pages_elem. exists i, pg. split; [exact Hl|].
  replace (1 + Z.of_nat i)%Z with (Z.of_nat i + 1)%Z by lia.
  rewrite Hi. unfold check_page. rewrite (positive_size _ _ Hw Hh).
  replace (Qltb (used_ratio cfg (Z.of_nat i + 1) pg) (min_used args)) with true
    by (symmetry; apply Qltb_lt; lra).
  left.
Qed.

End PageFillFacts.

Section PageFillExample.
Import Pdf Geometry PageFill.
Local Open Scope Q_scope.

Lemma page_fill_empty_page_flagged_witness :
  used_ratio example_A_config 3 blank_page == 0
  /\ exists v, v ∈ scan default_args example_A_config blank_doc
               /\ v_page v = 3%Z /\ v_used_ratio v == 0.
Proof.
  apply (page_fill_empty_page_flagged default_args example_A_config blank_doc
           2%nat blank_page);
    [ reflexivity | reflexivity | qcompute | qcompute
    | intros b Hb; inversion Hb
    | intros rects r Hr; inversion Hr
    | split; qcompute ].
Defined.

End PageFillExample.

(** ** Bullet-Orphan-Split gate *)

Section BulletOrphanFacts.
Import Num Py Pdf Geometry BulletOrphan.
Local Open Scope Q_scope.

Lemma fold_min_spec (l : list Q) (a : Q) :
  fold_left Qmin l a ∈ a :: l /\ forall u, u ∈ a :: l -> fold_left Qmin l a <= u.
Proof.
  revert a. induction l as [|x l IH]; intros a; simpl.
  - split; [left | intros u Hu; apply list_elem_of_singleton in Hu; subst; apply Qle_refl].
  - destruct (IH (Qmin a x)) as [Hin Hle]. split.
    + apply elem_of_cons in Hin. destruct Hin as [Hin|Hin]; [|right; right; exact Hin].
      rewrite Hin. unfold Qmin, GenericMinMax.gmin.
      destruct (a ?= x); [left | left | right; left].
    + intros u Hu.
      assert (Hm : fold_left Qmin l (Qmin a x) <= Qmin a x) by (apply Hle; left).
      apply elem_of_cons in Hu. destruct Hu as [->|Hu].
      * eapply Qle_trans; [exact Hm | apply Q.le_min_l].
      * apply elem_of_cons in Hu. destruct Hu as [->|Hu].
        -- eapply Qle_trans; [exact Hm | apply Q.le_min_r].
        -- apply Hle. right. exact Hu.
Qed.

(** [min(ys)] is an element of a non-empty list, below all the others. *)
Lemma min_list_spec (ys : list Q) (d : Q) :
  ys <> [] ->
  min_list ys d ∈ ys /\ forall u, u ∈ ys -> min_list ys d <= u.
Proof.
  destruct ys as [|y ys]; [congruence|]. intros _. apply fold_min_spec.
Qed.

Lemma ratio_mono (cfg : LayoutConfig) (pg : Page) (a b : Q) :
  a <= b -> ratio cfg pg a <= ratio cfg pg b.
Proof.
  intros H. unfold ratio.
  pose proof (body_h_ge_1 cfg (pg_height pg)) as Hb.
  unfold Qdiv. apply Qmult_le_compat_r; [lra|].
  apply Qlt_le_weak, Qinv_lt_0_compat. lra.
Qed.

Lemma top_ratio (cfg : LayoutConfig) (pg : Page) (others : list Q) (d : Q) :
  others <> [] ->
  (ratio cfg pg (min_list others d) <= 0.40 <->
   exists t : Q,
     t ∈ others /\ (forall u, u ∈ others -> t <= u) /\ ratio cfg pg t <= 0.40).
Proof.
  intros Hne. destruct (min_list_spec others d Hne) as [Hin Hle]. split.
  - intros H. exists (min_list others d). repeat split; assumption.
  - intros (t & Ht & Hmin & Hr).
    eapply Qle_trans; [apply ratio_mono, Hle, Ht | exact Hr].
Qed.

Lemma bullet_check_page_counts (cfg : LayoutConfig) (n : Z) (pg : Page) :
  0 < pg_width pg -> 0 < pg_height pg ->
  (check_page cfg n pg <> [] <->
   ((length (left_ys cfg n pg) = 1%nat /\ (3 <= length (right_ys cfg n pg))%nat)
    \/ (length (right_ys cfg n pg) = 1%nat /\ (3 <= length (left_ys cfg n pg))%nat))
   /\ 0.65 <= singleton_bottom cfg n pg
   /\ other_top cfg n pg <= 0.40).
Proof.
  intros Hw Hh. unfold check_page. rewrite (positive_size _ _ Hw Hh).
  cbv zeta.
  destruct (Nat.eqb_spec (length (left_ys cfg n pg)) 0) as [E0|E0];
    [cbn [orb]; split; [congruence | intros [[[? ?]|[? ?]] _]; lia]|].
  destruct (Nat.eqb_spec (length (right_ys cfg n pg)) 0) as [E1|E1];
    [cbn [orb]; split; [congruence | intros [[[? ?]|[? ?]] _]; lia]|].
  cbn [orb].
  destruct (Nat.eqb_spec (Nat.min (length (left_ys cfg n pg))
                            (length (right_ys cfg n pg))) 1) as [E2|E2];
    [|cbn [andb negb]; split; [congruence | intros [[[? ?]|[? ?]] _]; lia]].
  destruct (Nat.leb_spec 3 (Nat.max (length (left_ys cfg n pg))
                              (length (right_ys cfg n pg)))) as [E3|E3];
    [|cbn [andb negb]; split; [congruence | intros [[[? ?]|[? ?]] _]; lia]].
  cbn [andb negb].
  destruct (Qle_bool 0.65 (singleton_bottom cfg n pg)) eqn:E4;
    [apply Qle_bool_iff in E4 | apply Qle_bool_gt in E4];
    [|cbn [andb]; split; [congruence | intros (_ & H & _); lra]].
  destruct (Qle_bool (other_top cfg n pg) 0.40) eqn:E5;
    [apply Qle_bool_iff in E5 | apply Qle_bool_gt in E5];
    [|cbn [andb]; split; [congruence | intros (_ & _ & H); lra]].
  cbn [andb]. split; [intros _ | congruence].
  split; [lia | split; assumption].
Qed.

Lemma length_one {A : Type} (l : list A) : length l = 1%nat -> exists y, l = [y].
Proof. destruct l as [|y [|z l]]; try discriminate. intros _. exists y. reflexivity. Qed.

Lemma bullet_check_page_iff (cfg : LayoutConfig) (n : Z) (pg : Page) :
  0 < pg_width pg -> 0 < pg_height pg ->
  (check_page cfg n pg <> [] <-> orphan_split cfg n pg).
Proof.
  intros Hw Hh. rewrite (bullet_check_page_counts cfg n pg Hw Hh).
  unfold orphan_split, orphan_shape, singleton_bottom, other_top.
  split.
  - intros ([[H1 H3]|[H1 H3]] & Hb & Ht).
    + left. rewrite H1 in Hb, Ht. cbn [Nat.eqb] in Hb, Ht.
      destruct (length_one _ H1) as [y Hy]. exists y. rewrite Hy in Hb.
      repeat split; [exact Hy | exact H3 | exact Hb |].
      apply (top_ratio cfg pg _ (body_y1 cfg (pg_height pg))); [|exact Ht].
      intros E. rewrite E in H3. simpl in H3. lia.
    + right.
      replace (length (left_ys cfg n pg) =? 1)%nat with false in Hb, Ht
        by (symmetry; apply Nat.eqb_neq; lia).
      destruct (length_one _ H1) as [y Hy]. exists y. rewrite Hy in Hb.
      repeat split; [exact Hy | exact H3 | exact Hb |].
      apply (top_ratio cfg pg _ (body_y1 cfg (pg_height pg))); [|exact Ht].
      intros E. rewrite E in H3. simpl in H3. lia.
  - intros [(y & Hy & H3 & Hb & Ht)|(y & Hy & H3 & Hb & Ht)].
    + rewrite Hy. cbn [length Nat.eqb max_list fold_left].
      split; [left; split; [reflexivity | exact H3]|].
      split; [exact Hb|].
      apply (top_ratio cfg pg _ (body_y1 cfg (pg_height pg))); [|exact Ht].
      intros E. rewrite E in H3. simpl in H3. lia.
    + replace (length (left_ys cfg n pg) =? 1)%nat with false
        by (symmetry; apply Nat.eqb_neq; lia).
      rewrite Hy. cbn [length max_list fold_left].
      split; [right; split; [reflexivity | exact H3]|].
      split; [exact Hb|].
      apply (top_ratio cfg pg _ (body_y1 cfg (pg_height pg))); [|exact Ht].
      intros E. rewrite E in H3. simpl in H3. lia.
Qed.

Lemma bullet_check_page_page (cfg : LayoutConfig) (n : Z) (pg : Page) (v : Violation) :
  v ∈ check_page cfg n pg -> v_page v = n.
Proof.
  unfold check_page. cbv zeta.
  repeat match goal with
  | |- context [if ?c then _ else _] => destruct c
  end; intros H; try (inversion H; fail).
  apply list_elem_of_singleton in H. subst v. reflexivity.
Qed.

(** C7: on a page the gate examines, a violation is reported exactly when
    one column holds a single bullet line, at 0.65 of the body height or
    lower, and the other column holds at least three, the topmost at 0.40
    or higher; so a page with one bullet at 0.80 on the left and four on
    the right, the first at 0.10, is reported. *)
Theorem bullet_orphan_flags_iff (args : Args) (cfg : LayoutConfig) (doc : Doc)
    (i : nat) (pg : Page) :
  let n := (Z.of_nat i + 1)%Z in
  pages doc !! i = Some pg ->
  ignored args doc n = false ->
  0 < pg_width pg -> 0 < pg_height pg ->
  ((exists v, v ∈ scan args cfg doc /\ v_page v = n) <-> orphan_split cfg n pg)
  /\ (forall y r1 r2 r3 r4 : Q,
        left_ys cfg n pg = [y] ->
        right_ys cfg n pg = [r1; r2; r3; r4] ->
        ratio cfg pg y == 0.80 ->
        r1 <= r2 -> r1 <= r3 -> r1 <= r4 ->
        ratio cfg pg r1 == 0.10 ->
        exists v, v ∈ scan args cfg doc /\ v_page v = n).
Proof.
  intros n Hl Hi Hw Hh. subst n.
  assert (Hscan : (exists v, v ∈ scan args cfg doc /\ v_page v = (Z.of_nat i + 1)%Z)
                  <-> orphan_split cfg (Z.of_nat i + 1) pg).
  { unfold scan.
    rewrite (for_pages_on_page _ v_page (pages doc) i pg); [| |exact Hl].
    - rewrite Hi. apply bullet_check_page_iff; assumption.
    - intros m p v. destruct (ignored args doc m); [intros H; inversion H|].
      apply bullet_check_page_page. }
  split; [exact Hscan|].
  intros y r1 r2 r3 r4 Hly Hry Hy H12 H13 H14 Hr. apply Hscan.
  left. rewrite Hly, Hry. exists y.
  repeat split; [simpl; lia | lra |].
  exists r1. split; [left|]. split; [|lra].
  intros u Hu. repeat (apply elem_of_cons in Hu; destruct Hu as [->|Hu]);
    try assumption; [apply Qle_refl | inversion Hu].
Qed.

End BulletOrphanFacts.

Section BulletOrphanExample.
Import Py Pdf Geometry BulletOrphan.
Local Open Scope Q_scope.

Lemma bullet_orphan_flags_iff_witness :
  exists v, v ∈ scan default_args example_A_config split_list_doc /\ v_page v = 1%Z.
Proof.
  eapply (proj2 (bullet_orphan_flags_iff default_args example_A_config
                   split_list_doc 0%nat split_list_page
                   eq_refl eq_refl eq_refl eq_refl));
    [ vm_compute; reflexivity | vm_compute; reflexivity
    | qcompute | qcompute | qcompute | qcompute | qcompute ].
Defined.

End BulletOrphanExample.

(** ** Justification-Gap gate *)

Section JustifyGapsFacts.
Import Num Py Pdf Geometry JustifyGaps.
Local Open Scope Q_scope.
Variable isdigit_char : char -> bool.

Lemma check_line_span (args : Args) (col_w : Q) (ws : list word) (n col : Z)
    (v : Violation) :
  v ∈ check_line isdigit_char args col_w ws n col ->
  min_span_ratio args <= span_ratio col_w ws /\ v_page v = n.
Proof.
  unfold check_line.
  destruct (length ws <? 2)%nat; [intros H; inversion H|].
  destruct (Qltb (span_ratio col_w ws) (min_span_ratio args)) eqn:E;
    [intros H; inversion H|].
  apply Qltb_ge in E.
  destruct (gaps isdigit_char ws) as [|g gs]; [intros H; inversion H|].
  destruct (Qltb _ _); intros H; [|inversion H].
  apply list_elem_of_singleton in H. subst v. simpl. auto.
Qed.

Lemma check_column_span (args : Args) (cfg : LayoutConfig) (n : Z) (pg : Page)
    (col : Z) (m : lines) (v : Violation) :
  v ∈ check_column isdigit_char cfg n pg args col m ->
  exists (key : Z * Z) (ws : list word),
    (key, ws) ∈ m
    /\ v ∈ check_line isdigit_char args (col_w cfg n (pg_width pg)) ws n col
    /\ min_span_ratio args <= span_ratio (col_w cfg n (pg_width pg)) ws.
Proof.
  unfold check_column. rewrite list_elem_of_In, in_flat_map.
  intros ([key ws] & Hin & Hv). apply list_elem_of_In in Hv, Hin.
  exists key, ws. split; [exact Hin|]. split; [exact Hv|].
  apply check_line_span in Hv. apply Hv.
Qed.

Lemma check_page_span (args : Args) (cfg : LayoutConfig) (n : Z) (pg : Page)
    (v : Violation) :
  v ∈ check_page isdigit_char cfg n pg args -> v_page v = n.
Proof.
  unfold check_page.
  destruct (Qle_bool _ 0 || Qle_bool _ 0); [intros H; inversion H|].
  rewrite elem_of_app.
  intros [H|H]; apply check_column_span in H; destruct H as (key & ws & _ & H & _);
    apply check_line_span in H; apply H.
Qed.

(** C9: a line whose span ratio is below [min_span_ratio] yields no
    violation, whatever its gaps; and every violation the gate records was
    recorded for a line of a page whose span ratio reaches
    [min_span_ratio]. *)
Theorem justify_gap_skips_short_lines (args : Args) :
  (forall (col_w : Q) (ws : list word) (n col : Z),
     span_ratio col_w ws < min_span_ratio args ->
     check_line isdigit_char args col_w ws n col = [])
  /\ (forall (cfg : LayoutConfig) (doc : Doc) (v : Violation),
        v ∈ scan isdigit_char args cfg doc ->
        exists (i : nat) (pg : Page) (col : Z) (key : Z * Z) (ws : list word),
          let n := (Z.of_nat i + 1)%Z in
          let cw := col_w cfg n (pg_width pg) in
          pages doc !! i = Some pg
          /\ ((col = 0%Z /\ (key, ws) ∈ fst (lines_by_col cfg n pg))
              \/ (col = 1%Z /\ (key, ws) ∈ snd (lines_by_col cfg n pg)))
          /\ v ∈ check_line isdigit_char args cw ws n col
          /\ ~ span_ratio cw ws < min_span_ratio args).
Proof.
  split.
  - intros col_w ws n col H. unfold check_line.
    destruct (length ws <? 2)%nat; [reflexivity|].
    replace (Qltb (span_ratio col_w ws) (min_span_ratio args)) with true
      by (symmetry; apply Qltb_lt; exact H).
    reflexivity.
  - intros cfg doc v Hv. unfold scan in Hv. apply for_pages_elem in Hv.
    destruct Hv as (i & pg & Hl & Hv).
    destruct (ignored args doc (1 + Z.of_nat i)); [inversion Hv|].
    replace (1 + Z.of_nat i)%Z with (Z.of_nat i + 1)%Z in Hv by lia.
    unfold check_page in Hv.
    destruct (Qle_bool _ 0 || Qle_bool _ 0); [inversion Hv|].
    apply elem_of_app in Hv.
    destruct Hv as [Hv|Hv]; apply check_column_span in Hv;
      destruct Hv as (key & ws & Hin & Hv & Hs).
    + exists i, pg, 0%Z, key, ws. cbv zeta.
      split; [exact Hl|]. split; [left; auto|]. split; [exact Hv | lra].
    + exists i, pg, 1%Z, key, ws. cbv zeta.
      split; [exact Hl|]. split; [right; auto|]. split; [exact Hv | lra].
Qed.

End JustifyGapsFacts.

Section JustifyGapsExample.
Import Py Pdf Geometry JustifyGaps.
Local Open Scope Q_scope.

Lemma justify_gap_skips_short_lines_witness :
  span_ratio 252.5 short_line < min_span_ratio default_args
  /\ 18 < 150 - 50
  /\ check_line Py.in_range_digit default_args 252.5 short_line 3 0 = [].
Proof.
  assert (H : span_ratio 252.5 short_line < min_span_ratio default_args) by qcompute.
  split; [exact H|]. split; [qcompute|].
  exact (proj1 (justify_gap_skips_short_lines Py.in_range_digit default_args)
           252.5 short_line 3%Z 0%Z H).
Defined.

End JustifyGapsExample.

(** ** The matcher *)

Section MatcherFacts.
Import Py Re.

(** A greedy repetition followed by [k] matches exactly when [k] matches
    after some number of repeated characters. *)
Lemma star_greedy_is_Some (p : char -> bool) (k : cont) (s : str) (pos : nat) :
  is_Some (star_greedy p k pos s) <->
  exists n : nat,
    (n <= length s)%nat /\ forallb p (take n s) = true
    /\ is_Some (k (pos + n)%nat (drop n s)).
Proof.
  revert pos. induction s as [|x s IH]; intros pos; simpl.
  - split.
    + intros H. exists 0%nat. rewrite Nat.add_0_r. auto.
    + intros ([|n] & Hn & _ & H); [|simpl in Hn; lia].
      rewrite Nat.add_0_r in H. exact H.
  - destruct (p x) eqn:Hp.
    + split.
      * intros H. destruct (star_greedy p k (S pos) s) as [r|] eqn:E.
        -- destruct (proj1 (IH (S pos))) as (n & Hn & Hall & Hk);
             [rewrite E; eauto|].
           exists (S n). simpl. rewrite Hp, Hall.
           replace (pos + S n)%nat with (S pos + n)%nat by lia.
           repeat split; [lia | exact Hk].
        -- exists 0%nat. rewrite Nat.add_0_r. simpl. repeat split; [lia | exact H].
      * intros ([|n] & Hn & Hall & Hk).
        -- rewrite Nat.add_0_r in Hk. simpl in Hk.
           destruct (star_greedy p k (S pos) s); [eauto | exact Hk].
        -- simpl in Hall, Hk, Hn. rewrite Hp in Hall. simpl in Hall.
           assert (Hs : is_Some (star_greedy p k (S pos) s)).
           { apply IH. exists n.
             replace (S pos + n)%nat with (pos + S n)%nat by lia.
             repeat split; [lia | exact Hall | exact Hk]. }
           destruct Hs as [r ->]. eauto.
    + split.
      * intros H. exists 0%nat. rewrite Nat.add_0_r. simpl. repeat split; [lia | exact H].
      * intros ([|n] & Hn & Hall & Hk).
        -- rewrite Nat.add_0_r in Hk. exact Hk.
        -- simpl in Hall. rewrite Hp in Hall. discriminate.
Qed.

(** [re.search] succeeds exactly when the pattern matches at some
    position. *)
Lemma search_from_is_Some (its : pattern) (s : str) (pos : nat) :
  is_Some (search_from its pos s) <->
  exists n : nat,
    (n <= length s)%nat /\ is_Some (exec its [] [] (pos + n)%nat (drop n s)).
Proof.
  revert pos. induction s as [|x s IH]; intros pos; simpl.
  - split.
    + intros H. exists 0%nat. rewrite Nat.add_0_r. split; [lia|]. simpl.
      destruct (exec its [] [] pos []); [eauto | destruct H; discriminate].
    + intros ([|n] & Hn & H); [|simpl in Hn; lia].
      rewrite Nat.add_0_r in H. simpl in H. destruct H as [r ->]. eauto.
  - split.
    + intros H. destruct (exec its [] [] pos (x :: s)) as [r|] eqn:E.
      * exists 0%nat. rewrite Nat.add_0_r. simpl. rewrite E. split; [lia | eauto].
      * apply IH in H. destruct H as (n & Hn & H). exists (S n). simpl.
        replace (pos + S n)%nat with (S pos + n)%nat by lia. split; [lia | exact H].
    + intros ([|n] & Hn & H).
      * rewrite Nat.add_0_r in H. simpl in H. destruct H as [r ->]. eauto.
      * destruct (exec its [] [] pos (x :: s)); [eauto|].
        apply IH. exists n. simpl in Hn, H.
        replace (S pos + n)%nat with (pos + S n)%nat by lia. split; [lia | exact H].
Qed.

Lemma exec_eol_is_Some (caps : list str) (opened : str) (pos : nat) (s : str) :
  is_Some (exec [Eol] caps opened pos s) <-> at_eol s = true.
Proof.
  simpl. destruct (at_eol s); split; intros H;
    try reflexivity; try discriminate; [eauto | destruct H; discriminate].
Qed.

Lemma exec_cls_is_Some (p : char -> bool) (caps : list str) (opened : str)
    (pos : nat) (s : str) :
  is_Some (exec [Cls p] caps opened pos s) <->
  exists c rest, s = c :: rest /\ p c = true.
Proof.
  simpl. destruct s as [|c rest].
  - split; [intros H; destruct H; discriminate | intros (c & rest & H & _); discriminate].
  - destruct (p c) eqn:Hp; split.
    + intros _. exists c, rest. auto.
    + eauto.
    + intros H; destruct H; discriminate.
    + intros (c' & rest' & H & Hc). injection H as <- <-. congruence.
Qed.

Lemma at_eol_space (s : str) : at_eol s = true -> forallb isspace s = true.
Proof.
  destruct s as [|c [|d s]]; simpl; try discriminate; [reflexivity|].
  intros H. apply N.eqb_eq in H. subst c. reflexivity.
Qed.

Lemma forallb_take_drop {A : Type} (p : A -> bool) (n : nat) (l : list A) :
  forallb p (take n l) = true -> forallb p (drop n l) = true -> forallb p l = true.
Proof.
  intros H1 H2. rewrite <- (take_drop n l), forallb_app, H1, H2. reflexivity.
Qed.

End MatcherFacts.

(** ** Heading-Hyphenation gate *)

Section HeadingFacts.
Import Num Py Re Pdf HeadingHyphenation.
Local Open Scope Q_scope.

Lemma found_ends_with_hyphen (t : str) :
  found ends_with_hyphen t = true <-> ends_in_hyphen t.
Proof.
  unfold found, ends_in_hyphen.
  transitivity (is_Some (search ends_with_hyphen t)).
  { destruct (search ends_with_hyphen t); split; intros H;
      try reflexivity; try discriminate; [eauto | destruct H; discriminate]. }
  unfold search. rewrite search_from_is_Some. split.
  - intros (n & Hn & H). exists (take n t).
    destruct (drop n t) as [|x suf] eqn:Ed; [destruct H; discriminate|].
    change (exec ends_with_hyphen [] [] (0 + n) (x :: suf))
      with (if (x =? 45)%N
            then star_greedy ws (exec [Eol] [] []) (S (0 + n)) suf else None) in H.
    destruct (x =? 45)%N eqn:Ex; [|destruct H; discriminate].
    apply N.eqb_eq in Ex. subst x. exists suf. split.
    + change (lit "-" ++ suf) with (45%N :: suf).
      rewrite <- Ed. symmetry. apply take_drop.
    + apply star_greedy_is_Some in H. destruct H as (m & Hm & Hall & Hk).
      apply (forallb_take_drop _ m); [exact Hall|].
      apply at_eol_space. apply exec_eol_is_Some in Hk. exact Hk.
  - intros (pre & suf & -> & Hsuf). exists (length pre). split.
    + rewrite length_app. lia.
    + rewrite drop_app_length.
      change (is_Some (star_greedy ws (exec [Eol] [] []) (S (0 + length pre)) suf)).
      apply star_greedy_is_Some. exists (length suf).
      rewrite firstn_all, drop_all.
      repeat split; [lia | exact Hsuf | apply exec_eol_is_Some; reflexivity].
Qed.

Lemma found_starts_letter (t : str) :
  found starts_letter t = true <-> begins_with_letter t.
Proof.
  unfold found, begins_with_letter.
  transitivity (is_Some (search starts_letter t)).
  { destruct (search starts_letter t); split; intros H;
      try reflexivity; try discriminate; [eauto | destruct H; discriminate]. }
  unfold search. rewrite search_from_is_Some. split.
  - intros (n & Hn & H). destruct n as [|n]; [|destruct H; discriminate].
    change (is_Some (star_greedy ws (exec [Cls latin_letter] [] []) 0 t)) in H.
    apply star_greedy_is_Some in H. destruct H as (m & Hm & Hall & Hk).
    apply exec_cls_is_Some in Hk. destruct Hk as (c & rest & Ed & Hc).
    exists (take m t), c, rest.
    split; [rewrite <- (take_drop m t) at 1; f_equal; exact Ed|].
    split; [exact Hall | exact Hc].
  - intros (sp & c & rest & -> & Hsp & Hc). exists 0%nat. split; [lia|].
    change (is_Some (star_greedy ws (exec [Cls latin_letter] [] []) 0 (sp ++ c :: rest))).
    apply star_greedy_is_Some. exists (length sp).
    rewrite take_app_length, drop_app_length.
    repeat split; [rewrite length_app; lia | exact Hsp |].
    apply exec_cls_is_Some. exists c, rest. auto.
Qed.

(** The violations of a block come from its pairs of adjacent lines. *)
Lemma check_lines_elem (thr : Q) (n : Z) (lns : list Line) (v : Violation) :
  v ∈ check_lines thr n lns <->
  exists (pre : list Line) (l1 l2 : Line) (post : list Line),
    lns = pre ++ l1 :: l2 :: post /\ v ∈ check_pair thr n l1 l2.
Proof.
  induction lns as [|l1 [|l2 rest] IH].
  - simpl. split; [intros H; inversion H|].
    intros (pre & a & b & post & H & _). destruct pre; discriminate.
  - simpl. split; [intros H; inversion H|].
    intros (pre & a & b & post & H & _). destruct pre as [|? [|? ?]]; discriminate.
  - change (check_lines thr n (l1 :: l2 :: rest))
      with (check_pair thr n l1 l2 ++ check_lines thr n (l2 :: rest)).
    rewrite elem_of_app, IH. split.
    + intros [H|(pre & a & b & post & E & H)].
      * exists [], l1, l2, rest. split; [reflexivity | exact H].
      * exists (l1 :: pre), a, b, post. split; [rewrite E; reflexivity | exact H].
    + intros ([|x pre] & a & b & post & E & H); simpl in E.
      * injection E as -> -> ->. left. exact H.
      * injection E as -> E. right. exists pre, a, b, post. split; assumption.
Qed.

(** C8: for two adjacent lines of a block whose largest font sizes both
    reach the threshold [body_size + delta], a violation is recorded exactly
    when the first line ends with a hyphen and the second begins with a
    letter; nothing else is consulted.  The violations of a run are those of
    the adjacent pairs of the blocks of its pages. *)
Theorem heading_pair_flagged_iff (threshold : Q) :
  (forall (n : Z) (l1 l2 : Line),
     threshold <= snd (line_text_and_size l1) ->
     threshold <= snd (line_text_and_size l2) ->
     (check_pair threshold n l1 l2 <> [] <->
      ends_in_hyphen (fst (line_text_and_size l1))
      /\ begins_with_letter (fst (line_text_and_size l2))))
  /\ (forall (doc : Doc) (v : Violation),
        v ∈ scan threshold doc <->
        exists (i : nat) (pg : Page) (pre : list Line) (l1 l2 : Line) (post : list Line),
          pages doc !! i = Some pg
          /\ pre ++ l1 :: l2 :: post ∈ pg_dict pg
          /\ v ∈ check_pair threshold (Z.of_nat i + 1) l1 l2).
Proof.
  split.
  - intros n l1 l2 H1 H2. unfold check_pair.
    destruct (line_text_and_size l1) as [t1 s1], (line_text_and_size l2) as [t2 s2].
    simpl in *.
    replace (Qltb s1 threshold) with false by (symmetry; apply Qltb_ge; exact H1).
    replace (Qltb s2 threshold) with false by (symmetry; apply Qltb_ge; exact H2).
    simpl. rewrite <- found_ends_with_hyphen, <- found_starts_letter.
    destruct (found ends_with_hyphen t1), (found starts_letter t2); simpl;
      intuition congruence.
  - intros doc v. unfold scan. rewrite for_pages_elem. split.
    + intros (i & pg & Hl & Hv). unfold check_page in Hv.
      apply list_elem_of_In, in_flat_map in Hv. destruct Hv as (lns & Hin & Hv).
      apply list_elem_of_In, check_lines_elem in Hv.
      destruct Hv as (pre & l1 & l2 & post & -> & Hv).
      exists i, pg, pre, l1, l2, post. split; [exact Hl|].
      split; [apply list_elem_of_In; exact Hin|].
      replace (Z.of_nat i + 1)%Z with (1 + Z.of_nat i)%Z by lia. exact Hv.
    + intros (i & pg & pre & l1 & l2 & post & Hl & Hin & Hv).
      exists i, pg. split; [exact Hl|]. unfold check_page.
      apply list_elem_of_In, in_flat_map. exists (pre ++ l1 :: l2 :: post).
      split; [apply list_elem_of_In; exact Hin|].
      apply list_elem_of_In, check_lines_elem. exists pre, l1, l2, post.
      split; [reflexivity|].
      replace (1 + Z.of_nat i)%Z with (Z.of_nat i + 1)%Z by lia. exact Hv.
Qed.

End HeadingFacts.

Section HeadingExample.
Import Py Pdf HeadingHyphenation.
Local Open Scope Q_scope.

Lemma heading_pair_flagged_iff_witness :
  check_pair (10 + 1.5) 1 heading_line_1 heading_line_2 <> [].
Proof.
  apply (proj1 (heading_pair_flagged_iff (10 + 1.5)) 1%Z heading_line_1 heading_line_2);
    [qcompute | qcompute |].
  split.
  - exists (lit "naslagw"), []. split; reflexivity.
  - exists [], 101%N, (lit "rken"). repeat split; reflexivity.
Defined.

(** C8, as stated, fails: two heading-sized lines broken at the hyphen
    U+2010 are not flagged, and neither are two lines of which the first
    ends with [-] and the second begins with the letter U+0153. *)
Lemma heading_break_not_flagged :
  (11.5 <= snd (line_text_and_size heading_line_1_u2010)
   /\ 11.5 <= snd (line_text_and_size heading_line_2)
   /\ last (fst (line_text_and_size heading_line_1_u2010)) = Some 8208%N
   /\ begins_with_letter (fst (line_text_and_size heading_line_2))
   /\ check_pair 11.5 1 heading_line_1_u2010 heading_line_2 = [])
  /\ (11.5 <= snd (line_text_and_size heading_line_1)
      /\ 11.5 <= snd (line_text_and_size heading_line_2_u0153)
      /\ ends_in_hyphen (fst (line_text_and_size heading_line_1))
      /\ head (fst (line_text_and_size heading_line_2_u0153)) = Some 339%N
      /\ check_pair 11.5 1 heading_line_1 heading_line_2_u0153 = []).
Proof.
  split.
  - split; [qcompute|]. split; [qcompute|]. split; [reflexivity|]. split.
    + exists [], 101%N, (lit "rken"). repeat split; reflexivity.
    + vm_compute. reflexivity.
  - split; [qcompute|]. split; [qcompute|]. split.
    + exists (lit "naslagw"), []. split; reflexivity.
    + split; [reflexivity | vm_compute; reflexivity].
Qed.

End HeadingExample.

(** ** The parser with doubled backslashes *)

Section EscapedParserFacts.
Import Py Re Loader.

Lemma star_greedy_Some (p : char -> bool) (k : cont) (s : str) (pos : nat)
    (r : list str) :
  star_greedy p k pos s = Some r ->
  exists n : nat,
    (n <= length s)%nat /\ forallb p (take n s) = true
    /\ k (pos + n)%nat (drop n s) = Some r.
Proof.
  revert pos. induction s as [|x s IH]; intros pos; simpl.
  - intros H. exists 0%nat. rewrite Nat.add_0_r. auto.
  - destruct (p x) eqn:Hp.
    + destruct (star_greedy p k (S pos) s) as [r'|] eqn:E.
      * intros [= <-]. destruct (IH _ E) as (n & Hn & Hall & Hk).
        exists (S n). simpl. rewrite Hp, Hall.
        replace (pos + S n)%nat with (S pos + n)%nat by lia.
        repeat split; [lia | exact Hk].
      * intros H. exists 0%nat. rewrite Nat.add_0_r. simpl.
        repeat split; [lia | exact H].
    + intros H. exists 0%nat. rewrite Nat.add_0_r. simpl.
      repeat split; [lia | exact H].
Qed.

Lemma star_lazy_Some (p : char -> bool) (k : cont) (s : str) (pos : nat)
    (r : list str) :
  star_lazy p k pos s = Some r ->
  exists n : nat,
    (n <= length s)%nat /\ forallb p (take n s) = true
    /\ k (pos + n)%nat (drop n s) = Some r.
Proof.
  revert pos. induction s as [|x s IH]; intros pos; simpl.
  - destruct (k pos []) as [r'|] eqn:E; [|discriminate].
    intros [= <-]. exists 0%nat. rewrite Nat.add_0_r. auto.
  - destruct (k pos (x :: s)) as [r'|] eqn:E.
    + intros [= <-]. exists 0%nat. rewrite Nat.add_0_r. simpl.
      repeat split; [lia | exact E].
    + destruct (p x) eqn:Hp; [|discriminate].
      intros H. destruct (IH _ H) as (n & Hn & Hall & Hk).
      exists (S n). simpl. rewrite Hp, Hall.
      replace (pos + S n)%nat with (S pos + n)%nat by lia.
      repeat split; [lia | exact Hk].
Qed.

Lemma search_from_Some (its : pattern) (s : str) (pos : nat) (r : list str) :
  search_from its pos s = Some r ->
  exists n : nat, exec its [] [] (pos + n)%nat (drop n s) = Some r.
Proof.
  revert pos. induction s as [|x s IH]; intros pos; simpl.
  - destruct (exec its [] [] pos []) as [r'|] eqn:E; [|discriminate].
    intros [= <-]. exists 0%nat. rewrite Nat.add_0_r. exact E.
  - destruct (exec its [] [] pos (x :: s)) as [r'|] eqn:E.
    + intros [= <-]. exists 0%nat. rewrite Nat.add_0_r. exact E.
    + intros H. destruct (IH _ H) as (n & Hn). exists (S n).
      replace (pos + S n)%nat with (S pos + n)%nat by lia. exact Hn.
Qed.

Lemma exec_lit_Some (c : char) (rest : pattern) (caps : list str) (opened : str)
    (pos : nat) (s : str) (r : list str) :
  exec (Lit c :: rest) caps opened pos s = Some r ->
  exists s', s = c :: s' /\ exec rest caps opened (S pos) s' = Some r.
Proof.
  simpl. destruct s as [|x s']; [discriminate|].
  destruct (x =? c)%N eqn:E; [|discriminate].
  apply N.eqb_eq in E. subst x. eauto.
Qed.

Lemma captured_take (n : nat) (s : str) :
  (n <= length s)%nat -> captured s (drop n s) = take n s.
Proof.
  intros H. unfold captured. rewrite length_drop.
  replace (length s - (length s - n))%nat with n by lia. reflexivity.
Qed.

(** Whatever the root pattern with doubled backslashes captures consists
    of backslashes and the letters s and S. *)
Lemma root_re_escaped_group (css : str) (m : list str) :
  search root_re_escaped css = Some m ->
  forallb backslash_s (group 1 m) = true.
Proof.
  unfold search. intros H. apply search_from_Some in H. destruct H as (n & H).
  unfold root_re_escaped in H. cbn [lits lit List.map list_ascii_of_string app] in H.
  repeat (apply exec_lit_Some in H; destruct H as (? & _ & H)).
  change (exec (Star (one_of "s") :: ?r) ?c ?o ?p ?s)
    with (star_greedy (one_of "s") (exec r c o) p s) in H.
  apply star_greedy_Some in H. destruct H as (k & _ & _ & H).
  repeat (apply exec_lit_Some in H; destruct H as (? & _ & H)).
  cbn [exec] in H.
  apply star_lazy_Some in H. destruct H as (j & Hj & Hall & H).
  cbn [exec rev app] in H.
  match type of H with
  | context [captured ?o (drop j ?o)] =>
      pose proof (captured_take j o Hj) as Hcap; rewrite Hcap in H
  end.
  destruct (drop j _) as [|a [|b rest]]; try discriminate;
    destruct (a =? _)%N; try discriminate.
  destruct (b =? _)%N; try discriminate. injection H as <-.
  unfold group. cbn [nth Nat.sub]. exact Hall.
Qed.

Lemma elem_of_rev {A : Type} (x : A) (l : list A) : x ∈ rev l -> x ∈ l.
Proof. rewrite !list_elem_of_In. apply in_rev. Qed.

Lemma splitlines_go_chars (P : char -> Prop) (s cur : str) :
  (forall c, c ∈ cur -> P c) -> (forall c, c ∈ s -> P c) ->
  forall line, line ∈ splitlines_go cur s -> forall c, c ∈ line -> P c.
Proof.
  remember (length s) as n eqn:Hn. revert s Hn cur.
  induction n as [n IHn] using lt_wf_ind. intros s Hn cur.
  assert (IH : forall s', (length s' < length s)%nat -> forall cur',
             (forall c, c ∈ cur' -> P c) -> (forall c, c ∈ s' -> P c) ->
             forall line, line ∈ splitlines_go cur' s' -> forall c, c ∈ line -> P c).
  { intros s' Hlt cur'. apply (IHn (length s')); [lia | reflexivity]. }
  clear IHn Hn.
  intros Hcur Hs line Hline c Hc. destruct s as [|x s]; simpl in Hline.
  - destruct cur; [inversion Hline|].
    apply list_elem_of_singleton in Hline. subst line.
    apply Hcur. apply elem_of_rev. exact Hc.
  - assert (Hrev : forall c', c' ∈ rev cur -> P c')
      by (intros c' Hc'; apply Hcur, elem_of_rev; exact Hc').
    assert (Hnil : forall c' : char, c' ∈ @nil char -> P c')
      by (intros c' Hc'; inversion Hc').
    assert (Htail : forall c', c' ∈ s -> P c')
      by (intros c' Hc'; apply Hs; right; exact Hc').
    destruct (x =? 13)%N.
    + destruct s as [|y s'].
      * apply elem_of_cons in Hline. destruct Hline as [->|Hline];
          [apply Hrev, Hc | inversion Hline].
      * destruct (y =? 10)%N; apply elem_of_cons in Hline;
          destruct Hline as [->|Hline]; try (apply Hrev, Hc).
        -- apply (IH s') with (cur' := []) (line := line); simpl; try lia; try assumption.
           intros c' Hc'. apply Htail. right. exact Hc'.
        -- apply (IH (y :: s')) with (cur' := []) (line := line); simpl; try lia;
             assumption.
    + destruct (is_linebreak x).
      * apply elem_of_cons in Hline. destruct Hline as [->|Hline]; [apply Hrev, Hc|].
        apply (IH s) with (cur' := []) (line := line); simpl; try lia; assumption.
      * apply (IH s) with (cur' := x :: cur) (line := line); simpl; try lia;
          try assumption.
        intros c' Hc'. apply elem_of_cons in Hc'. destruct Hc' as [->|Hc'];
          [apply Hs; left | apply Hcur, Hc'].
Qed.

(** The declaration pattern with doubled backslashes needs a hyphen. *)
Lemma decl_re_escaped_needs_hyphen (line : str) :
  45%N ∉ line -> match_ decl_re_escaped line = None.
Proof.
  intros Hno. destruct (match_ decl_re_escaped line) as [r|] eqn:E; [|reflexivity].
  exfalso. unfold match_, decl_re_escaped in E.
  cbn [lits lit List.map list_ascii_of_string app] in E.
  apply exec_lit_Some in E. destruct E as (s1 & -> & E).
  change (exec (Star (one_of "s") :: ?r) ?c ?o ?p ?s)
    with (star_greedy (one_of "s") (exec r c o) p s) in E.
  apply star_greedy_Some in E. destruct E as (k & _ & _ & E).
  cbn [exec] in E.
  match type of E with
  | match ?d with _ => _ end = _ => destruct d as [|x s2] eqn:Ed
  end; [discriminate|].
  destruct (N.eqb_spec x (N_of_ascii "-")) as [->|]; [|discriminate].
  assert (H45 : 45%N ∈ drop k s1).
  { refine (eq_ind_r (fun l : list N => 45%N ∈ l) _ Ed). left. }
  apply Hno. right. rewrite <- (take_drop k s1).
  apply elem_of_app. right. exact H45.
Qed.

Lemma collect_escaped_empty (inner : str) :
  45%N ∉ inner -> collect decl_re_escaped inner = ∅.
Proof.
  intros Hno. unfold collect.
  assert (Hlines : forall line, line ∈ splitlines inner -> 45%N ∉ line).
  { intros line Hline Hc.
    refine (splitlines_go_chars (fun c => c <> 45%N) inner [] _ _ line Hline
              45%N Hc eq_refl).
    - intros c Hc'. inversion Hc'.
    - intros c Hc' ->. exact (Hno Hc'). }
  revert Hlines. generalize (splitlines inner) as lines.
  intros lines. generalize (∅ : gmap str str) as out.
  induction lines as [|l lines IH]; intros out H; simpl; [reflexivity|].
  rewrite (decl_re_escaped_needs_hyphen l) by (apply H; left).
  apply IH. intros line Hline. apply H. right. exact Hline.
Qed.

Lemma backslash_s_no_hyphen (s : str) : forallb backslash_s s = true -> 45%N ∉ s.
Proof.
  intros Hall Hin. apply list_elem_of_In in Hin.
  rewrite forallb_forall in Hall. specialize (Hall _ Hin). discriminate Hall.
Qed.

(** The parser of [verify-justify-gaps.py] and [verify-box-justify-gaps.py]
    returns the empty mapping for every tokens file, present or not. *)
Lemma parse_css_vars_escaped_empty (file : option str) :
  parse_css_vars_escaped file = ∅.
Proof.
  unfold parse_css_vars_escaped, parse_with. destruct file as [css|]; [|reflexivity].
  destruct (search root_re_escaped css) as [m|] eqn:E; [|reflexivity].
  apply collect_escaped_empty, backslash_s_no_hyphen, (root_re_escaped_group css), E.
Qed.

End EscapedParserFacts.

(** ** Exit codes and reports *)

Section CliFacts.
Import Pdf Geometry Cli.
Local Open Scope Z_scope.








End CliFacts.

(** ** Configuration loader *)

Section LoaderFacts.
Import Py Loader.

(** C3, at the failing input: on a well-formed root block the parser of
    the Page-Fill gate returns the declared variable and the parser of the
    Justification-Gap gate returns the empty mapping, as it does for every
    tokens file. *)
Theorem parsers_disagree_on_root_block :
  parse_css_vars (Some tokens_one_line) = {[ lit "--margin-top" := lit "20mm" ]}
  /\ parse_css_vars_escaped (Some tokens_one_line) = ∅
  /\ parse_css_vars (Some tokens_one_line) <> parse_css_vars_escaped (Some tokens_one_line)
  /\ (forall file : option str, parse_css_vars_escaped file = ∅).
Proof.
  assert (H1 : parse_css_vars (Some tokens_one_line)
               = {[ lit "--margin-top" := lit "20mm" ]}) by (vm_compute; reflexivity).
  assert (H2 : parse_css_vars_escaped (Some tokens_one_line) = ∅)
    by (vm_compute; reflexivity).
  split; [exact H1 | split; [exact H2 | split; [|exact parse_css_vars_escaped_empty]]].
  rewrite H1, H2. apply insert_non_empty.
Qed.

End LoaderFacts.

(** ** Page geometry, further *)

(** Replace every [Qmax] and [Qmin] by a variable constrained by its
    specification, for [lra]. *)
Ltac abstract_minmax :=
  repeat match goal with
  | |- context [Qmax ?a ?b] =>
      let m := fresh "m" in
      pose proof (Q.max_spec a b); remember (Qmax a b) as m in *;
      match goal with E : m = Qmax a b |- _ => clear E end
  | |- context [Qmin ?a ?b] =>
      let m := fresh "m" in
      pose proof (Q.min_spec a b); remember (Qmin a b) as m in *;
      match goal with E : m = Qmin a b |- _ => clear E end
  | H : context [Qmax ?a ?b] |- _ =>
      let m := fresh "m" in
      pose proof (Q.max_spec a b); remember (Qmax a b) as m in *;
      match goal with E : m = Qmax a b |- _ => clear E end
  | H : context [Qmin ?a ?b] |- _ =>
      let m := fresh "m" in
      pose proof (Q.min_spec a b); remember (Qmin a b) as m in *;
      match goal with E : m = Qmin a b |- _ => clear E end
  end.

(** Unfold the geometry down to the margins, with the halving written as
    a multiplication. *)
Ltac unfold_geometry :=
  unfold Geometry.right_x1, Geometry.right_x0, Geometry.left_x1, Geometry.left_x0,
    Geometry.col_w, Geometry.gap, Geometry.body_w, Geometry.body_h,
    Geometry.body_x1, Geometry.body_x0, Geometry.body_y1, Geometry.body_y0 in *;
  unfold Qdiv in *; change (/ 2)%Q with (1 # 2)%Q in *.

Section GeometryMore.
Import Num Pdf Geometry.
Local Open Scope Q_scope.

Lemma body_y0_le_y1 (cfg : LayoutConfig) (h : Q) : body_y0 cfg <= body_y1 cfg h.
Proof. unfold_geometry. abstract_minmax. lra. Qed.

(** X1: whatever the margins and the page size: the body is not inverted, its
    width and height count as at least 1, the gap lies between 0 and half
    the body width, a column is at least 1 wide and the left column ends
    before the right one starts. *)
Theorem geometry_well_formed (cfg : LayoutConfig) (n : Z) (w h : Q) :
  body_x0 cfg n <= body_x1 cfg n w
  /\ body_y0 cfg <= body_y1 cfg h
  /\ 1 <= body_w cfg n w
  /\ 1 <= body_h cfg h
  /\ 0 <= gap cfg n w <= body_w cfg n w * 0.5
  /\ 1 <= col_w cfg n w
  /\ left_x0 cfg n < left_x1 cfg n w
  /\ left_x1 cfg n w <= right_x0 cfg n w.
Proof.
  unfold_geometry. generalize (left_margin cfg n) (right_margin cfg n).
  intros lm rm. abstract_minmax. repeat split; lra.
Qed.

End GeometryMore.

(** ** Coverage engine, further *)

Section CoverageMore.
Import Num Coverage.
Local Open Scope Q_scope.

(** The intervals the merging loop sees are those of the input that are
    not degenerate. *)
Lemma sorted_kept (l : list interval) (i : interval) :
  In i (sort (List.filter nondegenerate l)) <-> In i l /\ fst i < snd i.
Proof.
  rewrite In_sort, List.filter_In. unfold nondegenerate. rewrite Qltb_lt. reflexivity.
Qed.

Lemma fold_merge_covers (l : list interval) :
  forall (seen : list interval) (t a b : Q),
    0 <= t -> a < b ->
    (forall i, In i seen -> snd i - fst i <= t \/ (a <= fst i /\ snd i <= b)) ->
    (forall i, In i l -> fst i < snd i /\ a <= fst i) ->
    StronglySorted tuple_le l ->
    0 <= total_of (fold_left merge_step l (t, a, b))
    /\ forall i, In i (seen ++ l) ->
         snd i - fst i <= total_of (fold_left merge_step l (t, a, b)).
Proof.
  induction l as [|[xa xb] l IH]; intros seen t a b Ht Hab Hseen Hl Hs.
  - cbn [fold_left]. unfold total_of. cbn [fst snd]. split; [lra|].
    intros i Hi. rewrite app_nil_r in Hi.
    destruct (Hseen i Hi) as [H|[H1 H2]]; lra.
  - cbn [fold_left].
    change (merge_step (t, a, b) (xa, xb))
      with (if Qle_bool xa b then (t, a, Qmax b xb) else (t + (b - a), xa, xb)).
    destruct (Hl (xa, xb) (or_introl eq_refl)) as [Hx Hax]. cbn [fst snd] in Hx, Hax.
    apply StronglySorted_inv in Hs. destruct Hs as [Hs Hhd].
    rewrite Forall_forall in Hhd.
    assert (Happ : forall i, In i (seen ++ (xa, xb) :: l) -> In i ((seen ++ [(xa, xb)]) ++ l))
      by (intros i Hi; rewrite <- app_assoc; exact Hi).
    destruct (Qle_bool xa b) eqn:E.
    + pose proof (Q.le_max_l b xb) as Hm1. pose proof (Q.le_max_r b xb) as Hm2.
      destruct (IH (seen ++ [(xa, xb)]) t a (Qmax b xb)) as [H0 Hall];
        [exact Ht | lra | | | exact Hs | split; [exact H0 | auto]].
      * intros i Hi. apply in_app_or in Hi. destruct Hi as [Hi|[<-|[]]].
        -- destruct (Hseen i Hi) as [H|[H1 H2]]; [left; exact H | right; split; lra].
        -- right. cbn [fst snd]. split; lra.
      * intros i Hi. apply Hl. right. exact Hi.
    + apply Qle_bool_gt in E.
      destruct (IH (seen ++ [(xa, xb)]) (t + (b - a)) xa xb) as [H0 Hall];
        [lra | exact Hx | | | exact Hs | split; [exact H0 | auto]].
      * intros i Hi. apply in_app_or in Hi. destruct Hi as [Hi|[<-|[]]].
        -- left. destruct (Hseen i Hi) as [H|[H1 H2]]; lra.
        -- right. cbn [fst snd]. split; apply Qle_refl.
      * intros i Hi. split; [apply Hl; right; exact Hi|].
        assert (Hle : tuple_le (xa, xb) i) by (apply Hhd, list_elem_of_In, Hi).
        unfold tuple_le in Hle. apply tuple_lt_false in Hle. cbn [fst snd] in Hle.
        destruct Hle as [H|[H _]]; [lra | rewrite H; apply Qle_refl].
Qed.

(** X4: the union length is never negative, and it is at least the length
    of every interval of the list. *)
Theorem union_len_at_least_each (l : list interval) :
  0 <= union_len l
  /\ forall i, In i l -> snd i - fst i <= union_len l.
Proof.
  rewrite union_len_finish.
  assert (H : 0 <= finish (sort (List.filter nondegenerate l))
              /\ forall i, In i (sort (List.filter nondegenerate l)) ->
                   snd i - fst i <= finish (sort (List.filter nondegenerate l))).
  { pose proof (sort_sorted (List.filter nondegenerate l)) as Hs.
    assert (Hk : forall i, In i (sort (List.filter nondegenerate l)) -> fst i < snd i)
      by (intros i Hi; apply sorted_kept in Hi; apply Hi).
    destruct (sort (List.filter nondegenerate l)) as [|x s].
    - split; [apply Qle_refl | intros i []].
    - rewrite finish_cons. apply StronglySorted_inv in Hs. destruct Hs as [Hs Hhd].
      rewrite Forall_forall in Hhd.
      apply (fold_merge_covers s [x] 0 (fst x) (snd x)).
      + apply Qle_refl.
      + apply Hk. left. reflexivity.
      + intros i [<-|[]]. right. split; apply Qle_refl.
      + intros i Hi. split; [apply Hk; right; exact Hi|].
        assert (Hle : tuple_le x i) by (apply Hhd, list_elem_of_In, Hi).
        unfold tuple_le in Hle. apply tuple_lt_false in Hle.
        destruct Hle as [H|[H _]]; [lra | rewrite H; apply Qle_refl].
      + exact Hs. }
  destruct H as [H0 Hall]. split; [exact H0|].
  intros i Hi. destruct (Qlt_le_dec (fst i) (snd i)) as [Hlt|Hge].
  - apply Hall. apply sorted_kept. auto.
  - lra.
Qed.

Lemma sort_chain (l : list interval) :
  Sorted (fun i j => snd i < fst j) l ->
  (forall i, In i l -> fst i < snd i) ->
  sort l = l.
Proof.
  unfold sort, Py.sorted_by.
  induction 1 as [|x l Hs IH Hhd]; intros Hnd; simpl; [reflexivity|].
  rewrite IH by (intros i Hi; apply Hnd; right; exact Hi).
  destruct Hhd as [|y l Hxy]; simpl; [reflexivity|].
  replace (tuple_lt y x) with false; [reflexivity|].
  symmetry. apply tuple_lt_false.
  assert (fst x < snd x) by (apply Hnd; left; reflexivity). lra.
Qed.

Lemma sum_lengths_from (l : list interval) (t : Q) :
  fold_left (fun acc i => acc + (snd i - fst i)) l t == t + sum_lengths l.
Proof.
  unfold sum_lengths. revert t. induction l as [|x l IH]; intros t; cbn [fold_left].
  - ring.
  - rewrite (IH (t + (snd x - fst x))), (IH (0 + (snd x - fst x))). ring.
Qed.

Lemma sum_lengths_cons (x : interval) (l : list interval) :
  sum_lengths (x :: l) == (snd x - fst x) + sum_lengths l.
Proof.
  unfold sum_lengths at 1. cbn [fold_left]. rewrite sum_lengths_from. ring.
Qed.

Lemma fold_merge_chain (l : list interval) :
  Sorted (fun i j => snd i < fst j) l ->
  forall t a b,
    HdRel (fun i j => snd i < fst j) (a, b) l ->
    total_of (fold_left merge_step l (t, a, b)) == t + (b - a) + sum_lengths l.
Proof.
  induction 1 as [|[c d] l Hs IH Hhd]; intros t a b Hab.
  - unfold total_of, sum_lengths. simpl. ring.
  - rewrite sum_lengths_cons. cbn [fst snd].
    set (rest := sum_lengths l) in *. simpl.
    inversion Hab as [|? ? Hbc]; subst. simpl in Hbc.
    replace (Qle_bool c b) with false by (symmetry; apply Qle_bool_gt; exact Hbc).
    rewrite IH by exact Hhd. ring.
Qed.

(** X6: intervals that follow each other with space between them add up;
    two intervals that overlap or touch count once. *)
Theorem union_len_separated_and_merged :
  (forall l : list interval,
     Sorted (fun i j => snd i < fst j) l ->
     (forall i, In i l -> fst i < snd i) ->
     union_len l == sum_lengths l)
  /\ (forall a b c d : Q,
        a < b -> c < d -> a <= c <= b ->
        union_len [(a, b); (c, d)] == Qmax b d - a
        /\ union_len [(c, d); (a, b)] == Qmax b d - a).
Proof.
  split.
  - intros l Hs Hnd. rewrite union_len_finish.
    assert (Hf : List.filter nondegenerate l = l).
    { clear Hs. induction l as [|x l IH]; simpl; [reflexivity|].
      replace (nondegenerate x) with true
        by (symmetry; apply Qltb_lt, Hnd; left; reflexivity).
      rewrite IH; [reflexivity|]. intros i Hi. apply Hnd. right. exact Hi. }
    rewrite Hf, (sort_chain l Hs Hnd).
    destruct Hs as [|[a b] l Hs Hhd]; [reflexivity|].
    rewrite finish_cons. simpl fst; simpl snd.
    rewrite (fold_merge_chain l Hs 0 a b Hhd), sum_lengths_cons. cbn [fst snd]. ring.
  - intros a b c d Hab Hcd [Hac Hcb].
    assert (H1 : union_len [(a, b); (c, d)] == Qmax b d - a).
    { rewrite union_len_finish. simpl.
      replace (nondegenerate (a, b)) with true by (symmetry; apply Qltb_lt; exact Hab).
      replace (nondegenerate (c, d)) with true by (symmetry; apply Qltb_lt; exact Hcd).
      unfold sort, Py.sorted_by. simpl.
      destruct (tuple_lt (c, d) (a, b)) eqn:E.
      - apply tuple_lt_spec in E. simpl in E.
        assert (Hca : c == a) by lra.
        rewrite finish_cons. simpl.
        replace (Qle_bool a d) with true by (symmetry; apply Qle_bool_iff; lra).
        unfold total_of; simpl. abstract_minmax. lra.
      - rewrite finish_cons. simpl.
        replace (Qle_bool c b) with true by (symmetry; apply Qle_bool_iff; lra).
        unfold total_of; simpl. ring. }
    split; [exact H1|].
    rewrite <- H1. apply union_len_perm, perm_swap.
Qed.

End CoverageMore.

Section CoverageMoreWitnesses.
Import Num Coverage.
Local Open Scope Q_scope.

Lemma union_len_separated_and_merged_witness :
  union_len [(1, 3); (4, 5)] == sum_lengths [(1, 3); (4, 5)]
  /\ union_len [(1, 3); (2, 5)] == Qmax 3 5 - 1.
Proof.
  split.
  - apply (proj1 union_len_separated_and_merged).
    + repeat constructor.
    + intros i [<-|[<-|[]]]; reflexivity.
  - apply (proj2 union_len_separated_and_merged 1 3 2 5); try reflexivity.
    split; qcompute.
Defined.

End CoverageMoreWitnesses.

(** ** [str.strip] *)

Section StripFacts.
Import Py.

(** [lstrip] removes a run of white space and stops at the first other
    character. *)
Lemma lstrip_spec (s : str) :
  exists sp : str,
    s = sp ++ lstrip s /\ forallb isspace sp = true
    /\ (lstrip s = [] \/ exists c t, lstrip s = c :: t /\ isspace c = false).
Proof.
  induction s as [|c s (sp & Hs & Hsp & Hhd)]; simpl.
  - exists []. auto.
  - destruct (isspace c) eqn:E.
    + exists (c :: sp). simpl. rewrite E, Hsp. split; [f_equal; exact Hs | auto].
    + exists []. split; [reflexivity|]. split; [reflexivity|]. right. eauto.
Qed.

Lemma lstrip_nonspace (c : char) (s : str) : isspace c = false -> lstrip (c :: s) = c :: s.
Proof. intros H. simpl. rewrite H. reflexivity. Qed.

Lemma lstrip_spaces (sp s : str) :
  forallb isspace sp = true -> lstrip (sp ++ s) = lstrip s.
Proof.
  induction sp as [|c sp IH]; simpl; [reflexivity|].
  intros H. apply andb_true_iff in H. destruct H as [-> H]. apply IH, H.
Qed.

Lemma lstrip_idem (s : str) : lstrip (lstrip s) = lstrip s.
Proof.
  destruct (lstrip_spec s) as (_ & _ & _ & [->|(c & t & -> & Hc)]);
    [reflexivity | apply lstrip_nonspace, Hc].
Qed.

Lemma strip_of_trimmed (s : str) : trimmed s -> strip s = s.
Proof.
  intros [H1 H2]. unfold strip, rstrip. rewrite H1, H2. apply rev_involutive.
Qed.

Lemma strip_trimmed (s : str) : trimmed (strip s).
Proof.
  unfold strip, rstrip, trimmed. rewrite rev_involutive, lstrip_idem.
  split; [|reflexivity].
  destruct (lstrip_spec (rev (lstrip s))) as (sp & Hs & Hsp & _).
  set (u := lstrip (rev (lstrip s))) in *.
  assert (Ht : lstrip s = rev u ++ rev sp).
  { rewrite <- rev_app_distr, <- Hs, rev_involutive. reflexivity. }
  destruct (rev u) as [|c t] eqn:Eu; [reflexivity|].
  destruct (lstrip_spec s) as (_ & _ & _ & [E|(c' & t' & E & Hc)]).
  - rewrite E in Ht. discriminate.
  - rewrite E in Ht. injection Ht as -> _. apply lstrip_nonspace, Hc.
Qed.

(** Trimming twice is trimming once. *)
Lemma strip_idem (s : str) : strip (strip s) = strip s.
Proof. apply strip_of_trimmed, strip_trimmed. Qed.

(** Trimming only removes characters. *)
Lemma strip_subset (s : str) (c : char) : In c (strip s) -> In c s.
Proof.
  unfold strip, rstrip. intros H. apply in_rev in H.
  destruct (lstrip_spec (rev (lstrip s))) as (sp & Hs & _).
  assert (H1 : In c (rev (lstrip s))) by (rewrite Hs; apply in_or_app; right; exact H).
  apply in_rev in H1.
  destruct (lstrip_spec s) as (sp' & Hs' & _).
  rewrite Hs'. apply in_or_app. right. exact H1.
Qed.

(** A text whose first and last characters are not white space is left
    as it is. *)
Lemma trimmed_ends (c : char) (mid : str) (d : char) :
  isspace c = false -> isspace d = false ->
  trimmed [c] /\ trimmed (c :: mid ++ [d]).
Proof.
  intros Hc Hd. unfold trimmed. split.
  - simpl. rewrite Hc. auto.
  - split; [apply lstrip_nonspace, Hc|].
    change (c :: mid ++ [d]) with ((c :: mid) ++ [d]).
    rewrite rev_app_distr. simpl rev at 1. simpl app. apply lstrip_nonspace, Hd.
Qed.

End StripFacts.

(** ** The configuration loader, further *)

(** One step of [exec] on a repetition or on a group bracket. *)
Ltac step_star H :=
  change (Re.exec (Re.Star ?q :: ?r) ?c ?o ?p ?s)
    with (Re.star_greedy q (Re.exec r c o) p s) in H.
Ltac step_open H :=
  change (Re.exec (Re.GroupOpen :: ?r) ?c ?o ?p ?s) with (Re.exec r c s p s) in H.
Ltac step_close H :=
  change (Re.exec (Re.GroupClose :: ?r) ?c ?o ?p ?s)
    with (Re.exec r (Re.captured o s :: c) [] p s) in H.

Section LoaderMore.
Import Py Re Loader.

Lemma exec_plus_Some (p : char -> bool) (rest : pattern) (caps : list str)
    (opened : str) (pos : nat) (s : str) (r : list str) :
  exec (Plus p :: rest) caps opened pos s = Some r ->
  exists (x : char) (s' : str) (n : nat),
    s = x :: s' /\ p x = true /\ (n <= length s')%nat
    /\ forallb p (take n s') = true
    /\ exec rest caps opened (S pos + n)%nat (drop n s') = Some r.
Proof.
  simpl. destruct s as [|x s']; [discriminate|].
  destruct (p x) eqn:Hp; [|discriminate].
  intros H. apply star_greedy_Some in H. destruct H as (n & Hn & Hall & H).
  exists x, s', n. auto.
Qed.

Lemma captured_app (a b : str) : captured (a ++ b) b = a.
Proof.
  unfold captured. rewrite length_app.
  replace (length a + length b - length b)%nat with (length a) by lia.
  apply take_app_length.
Qed.

Lemma name_char_not_space (c : char) : name_char c = true -> isspace c = false.
Proof.
  unfold name_char, isspace, in_range. intros H.
  apply not_true_iff_false. intros Hs.
  repeat (rewrite ?orb_true_iff, ?andb_true_iff, ?N.leb_le, ?N.eqb_eq in H).
  repeat (rewrite ?orb_true_iff, ?andb_true_iff, ?N.leb_le, ?N.eqb_eq in Hs).
  lia.
Qed.

(** What the declaration pattern captures: a name that starts with two
    hyphens, and a value without a semicolon. *)
Lemma decl_re_groups (line : str) (m : list str) :
  match_ decl_re line = Some m ->
  exists (x : char) (name value : str),
    m = [lit "--" ++ x :: name; value]
    /\ forallb name_char (x :: name) = true
    /\ value <> [] /\ forallb not_semicolon value = true.
Proof.
  unfold match_, decl_re. cbn [lits lit List.map list_ascii_of_string app].
  intros H.
  step_star H. apply star_greedy_Some in H. destruct H as (n1 & _ & _ & H).
  step_open H.
  match type of H with
  | exec _ _ ?o _ _ = _ => remember o as s1 eqn:Hs1 in H; clear Hs1
  end.
  remember s1 as opened eqn:Hop in H at 1.
  apply exec_lit_Some in H. destruct H as (s2 & E1 & H).
  apply exec_lit_Some in H. destruct H as (s3 & E2 & H).
  apply exec_plus_Some in H. destruct H as (x & s4 & n2 & E3 & Hx & Hn2 & Hname & H).
  step_close H.
  assert (Hcap : captured opened (drop n2 s4) = lit "--" ++ x :: take n2 s4).
  { rewrite Hop, E1, E2, E3.
    rewrite <- (take_drop n2 s4) at 1.
    change (N_of_ascii "-" :: N_of_ascii "-" :: x :: take n2 s4 ++ drop n2 s4)
      with ((lit "--" ++ x :: take n2 s4) ++ drop n2 s4).
    apply captured_app. }
  rewrite Hcap in H. clear Hcap Hop.
  step_star H. apply star_greedy_Some in H. destruct H as (n3 & _ & _ & H).
  apply exec_lit_Some in H. destruct H as (s5 & _ & H).
  step_star H. apply star_greedy_Some in H. destruct H as (n4 & _ & _ & H).
  step_open H.
  match type of H with
  | exec _ _ ?o _ _ = _ => remember o as s6 eqn:Hs6 in H; clear Hs6
  end.
  remember s6 as opened2 eqn:Hop2 in H at 1.
  apply exec_plus_Some in H. destruct H as (y & s7 & n5 & E5 & Hy & Hn5 & Hval & H).
  step_close H.
  assert (Hcap : captured opened2 (drop n5 s7) = y :: take n5 s7).
  { rewrite Hop2, E5.
    rewrite <- (take_drop n5 s7) at 1.
    change (y :: take n5 s7 ++ drop n5 s7) with ((y :: take n5 s7) ++ drop n5 s7).
    apply captured_app. }
  rewrite Hcap in H. clear Hcap.
  apply exec_lit_Some in H. destruct H as (s8 & _ & H).
  simpl in H. injection H as <-.
  exists x, (take n2 s4), (y :: take n5 s7).
  split; [reflexivity|]. split; [simpl; rewrite Hx; exact Hname|].
  split; [discriminate|]. simpl. rewrite Hy. exact Hval.
Qed.

Lemma key_trimmed (x : char) (name : str) :
  forallb name_char (x :: name) = true -> strip (lit "--" ++ x :: name) = lit "--" ++ x :: name.
Proof.
  intros H. apply strip_of_trimmed.
  assert (Hhy : isspace (N_of_ascii "-") = false) by reflexivity.
  destruct (exists_last (l := x :: name)) as (mid & d & E); [discriminate|].
  assert (Hd : isspace d = false).
  { apply name_char_not_space. rewrite E, forallb_app in H.
    apply andb_true_iff in H. destruct H as [_ H]. simpl in H.
    rewrite andb_true_r in H. exact H. }
  change (lit "--" ++ x :: name) with (N_of_ascii "-" :: (N_of_ascii "-" :: x :: name)).
  rewrite E.
  change (N_of_ascii "-" :: N_of_ascii "-" :: mid ++ [d])
    with (N_of_ascii "-" :: (N_of_ascii "-" :: mid) ++ [d]).
  apply trimmed_ends; assumption.
Qed.

Lemma collect_entries (lines : list str) (out : gmap str str) :
  (forall k v, out !! k = Some v -> well_formed_entry k v) ->
  forall k v,
    fold_left
      (fun out line =>
         match match_ decl_re line with
         | Some mm => <[strip (group 1 mm) := strip (group 2 mm)]> out
         | None => out
         end) lines out !! k = Some v ->
    well_formed_entry k v.
Proof.
  revert out. induction lines as [|line lines IH]; intros out Hout k v; simpl.
  - apply Hout.
  - apply IH. clear k v. intros k v.
    destruct (match_ decl_re line) as [m|] eqn:E; [|apply Hout].
    apply decl_re_groups in E. destruct E as (x & name & value & -> & Hname & Hne & Hval).
    unfold group. cbn [nth Nat.sub].
    rewrite (key_trimmed x name Hname).
    destruct (decide (lit "--" ++ x :: name = k)) as [<-|Hk].
    + rewrite lookup_insert_eq. intros [= <-]. split; [|split].
      * exists (x :: name). split; [reflexivity|]. split; [discriminate | exact Hname].
      * apply strip_idem.
      * intros Hin. apply strip_subset in Hin.
        rewrite forallb_forall in Hval. specialize (Hval _ Hin). discriminate Hval.
    + rewrite lookup_insert_ne by exact Hk. apply Hout.
Qed.

(** X7: every entry [parse_css_vars] returns is well formed, whatever the
    file holds. *)
Theorem parse_css_vars_entries (file : option str) (k v : str) :
  parse_css_vars file !! k = Some v -> well_formed_entry k v.
Proof.
  unfold parse_css_vars, parse_with.
  destruct file as [css|]; [|rewrite lookup_empty; discriminate].
  destruct (search root_re css) as [m|]; [|rewrite lookup_empty; discriminate].
  unfold collect. apply collect_entries.
  intros k' v'. rewrite lookup_empty. discriminate.
Qed.

Lemma parse_css_vars_no_root (css : str) :
  (forall pre post : str, css <> pre ++ lit ":root" ++ post) ->
  parse_css_vars (Some css) = ∅.
Proof.
  intros Hno.
  unfold parse_css_vars, parse_with.
  destruct (search root_re css) as [m|] eqn:E; [|reflexivity].
  exfalso. unfold search in E. apply search_from_Some in E. destruct E as (n & E).
  unfold root_re in E. cbn [lits lit List.map list_ascii_of_string app] in E.
  apply exec_lit_Some in E. destruct E as (s1 & E1 & E).
  apply exec_lit_Some in E. destruct E as (s2 & -> & E).
  apply exec_lit_Some in E. destruct E as (s3 & -> & E).
  apply exec_lit_Some in E. destruct E as (s4 & -> & E).
  apply exec_lit_Some in E. destruct E as (s5 & -> & E).
  apply (Hno (take n css) s5).
  rewrite <- (take_drop n css) at 1. f_equal. exact E1.
Qed.

(** X8: without the text [:root] in the file, and without the file, the
    mapping is empty. *)
Theorem parse_css_vars_needs_root :
  parse_css_vars None = ∅
  /\ (forall css : str,
        (forall pre post : str, css <> pre ++ lit ":root" ++ post) ->
        parse_css_vars (Some css) = ∅).
Proof. split; [reflexivity | exact parse_css_vars_no_root]. Qed.

End LoaderMore.

Section LoaderMoreWitnesses.
Import Py Loader.

Lemma parse_css_vars_entries_witness :
  well_formed_entry (lit "--margin-top") (lit "20mm").
Proof.
  apply (parse_css_vars_entries (Some tokens_one_line)). vm_compute. reflexivity.
Defined.

Lemma parse_css_vars_needs_root_witness :
  parse_css_vars (Some (lit "body { margin: 0 }")) = ∅.
Proof.
  apply (proj2 parse_css_vars_needs_root). intros pre post E.
  assert (H : In 114%N (lit "body { margin: 0 }") -> In 116%N (lit "body { margin: 0 }"))
    by (intros _; rewrite E; apply in_or_app; right; do 4 right; left; reflexivity).
  assert (Hr : In 114%N (lit "body { margin: 0 }")) by (do 9 right; left; reflexivity).
  specialize (H Hr). vm_compute in H.
  repeat (destruct H as [H|H]; [discriminate H|]). exact H.
Defined.

End LoaderMoreWitnesses.

(** ** Lengths and the loaded configuration *)

Section ConfigFacts.
Import Num Py Re Geometry Config.
Local Open Scope Q_scope.

Lemma star_greedy_app (p : char -> bool) (k : cont) (a b : str) (pos : nat)
    (r : list str) :
  forallb p a = true ->
  star_greedy p k (pos + length a)%nat b = Some r ->
  star_greedy p k pos (a ++ b) = Some r.
Proof.
  revert pos. induction a as [|x a IH]; intros pos Ha H; simpl in *.
  - rewrite Nat.add_0_r in H. exact H.
  - apply andb_true_iff in Ha. destruct Ha as [-> Ha].
    rewrite (IH (S pos) Ha); [reflexivity|].
    replace (S pos + length a)%nat with (pos + S (length a))%nat by lia. exact H.
Qed.

Lemma star_greedy_stop (p : char -> bool) (k : cont) (x : char) (s : str) (pos : nat) :
  p x = false -> star_greedy p k pos (x :: s) = k pos (x :: s).
Proof. intros H. simpl. rewrite H. reflexivity. Qed.

Lemma digit_or_dot_not_space (c : char) : digit_or_dot c = true -> isspace c = false.
Proof.
  unfold digit_or_dot, digit, isspace, in_range. intros H.
  apply not_true_iff_false. intros Hs.
  repeat (rewrite ?orb_true_iff, ?andb_true_iff, ?N.leb_le, ?N.eqb_eq in H).
  repeat (rewrite ?orb_true_iff, ?andb_true_iff, ?N.leb_le, ?N.eqb_eq in Hs).
  lia.
Qed.

Lemma space_not_digit_or_dot (c : char) : isspace c = true -> digit_or_dot c = false.
Proof.
  intros H. destruct (digit_or_dot c) eqn:E; [|reflexivity].
  apply digit_or_dot_not_space in E. congruence.
Qed.

(** A number, white space and a two-letter unit match the pattern of that
    unit, and the group is the number. *)
Lemma unit_re_match (u : string) (c1 c2 : char) (num sp : str) :
  lit u = [c1; c2] ->
  digit_or_dot c1 = false -> isspace c1 = false ->
  num <> [] -> forallb digit_or_dot num = true -> forallb isspace sp = true ->
  match_ (unit_re u) (num ++ sp ++ lit u) = Some [num].
Proof.
  intros Hu Hd1 Hs1 Hne Hnum Hsp. destruct num as [|x num]; [congruence|].
  simpl in Hnum. apply andb_true_iff in Hnum. destruct Hnum as [Hx Hnum].
  unfold match_, unit_re, lits. rewrite Hu.
  cbn [List.map app exec]. rewrite Hx.
  assert (Hstop : forall (k : cont) (pos : nat),
            star_greedy digit_or_dot k pos (sp ++ [c1; c2]) = k pos (sp ++ [c1; c2])).
  { intros k pos. destruct sp as [|y sp]; simpl app.
    - apply star_greedy_stop, Hd1.
    - apply star_greedy_stop, space_not_digit_or_dot.
      simpl in Hsp. apply andb_true_iff in Hsp. tauto. }
  apply star_greedy_app; [exact Hnum|]. rewrite Hstop.
  change (captured (x :: num ++ sp ++ [c1; c2]) (sp ++ [c1; c2]))
    with (captured ((x :: num) ++ (sp ++ [c1; c2])) (sp ++ [c1; c2])).
  rewrite captured_app.
  apply star_greedy_app; [exact Hsp|].
  rewrite star_greedy_stop by exact Hs1.
  rewrite !N.eqb_refl. reflexivity.
Qed.

Lemma last_drop {A : Type} (n : nat) (l : list A) :
  drop n l <> [] -> last (drop n l) = last l.
Proof.
  intros H. rewrite <- (take_drop n l) at 2.
  destruct (drop n l) as [|x d] eqn:E; [congruence|].
  rewrite last_app. simpl. destruct (last (x :: d)) eqn:El; [reflexivity|].
  apply last_None in El. discriminate.
Qed.

(** The pattern of a unit matches only a text whose last character is
    the unit's second letter (or a newline). *)
Lemma unit_re_last (u : string) (c1 c2 : char) (v : str) (m : list str) :
  lit u = [c1; c2] ->
  match_ (unit_re u) v = Some m ->
  last v = Some c2 \/ last v = Some 10%N.
Proof.
  intros Hu H. unfold match_, unit_re, lits in H. rewrite Hu in H.
  cbn [List.map app] in H.
  change (exec (Bol :: ?r) ?c ?o 0 ?s) with (exec r c o 0%nat s) in H.
  step_open H.
  apply exec_plus_Some in H. destruct H as (x & s1 & n1 & -> & _ & _ & _ & H).
  step_close H. step_star H.
  apply star_greedy_Some in H. destruct H as (n2 & _ & _ & H).
  apply exec_lit_Some in H. destruct H as (s2 & E2 & H).
  apply exec_lit_Some in H. destruct H as (s3 & -> & H).
  simpl in H.
  assert (Hlast : last (drop n2 (drop n1 s1)) = last (x :: s1)).
  { rewrite last_drop by (rewrite E2; discriminate).
    destruct (drop n1 s1) as [|y d] eqn:E1.
    - rewrite drop_nil in E2. discriminate.
    - rewrite <- E1, last_drop by (rewrite E1; discriminate).
      destruct s1; [rewrite drop_nil in E1; discriminate | reflexivity]. }
  assert (Hend : last (drop n2 (drop n1 s1)) = Some c2
                 \/ last (drop n2 (drop n1 s1)) = Some 10%N).
  { refine (eq_ind_r (fun l : list N => last l = Some c2 \/ last l = Some 10%N) _ E2).
    destruct s3 as [|z [|z' s3]]; simpl in H |- *; try discriminate.
    - left. reflexivity.
    - destruct (z =? 10)%N eqn:Ez; [|discriminate].
      apply N.eqb_eq in Ez. subst z. right. reflexivity. }
  destruct Hend as [E|E]; [left | right];
    (etransitivity; [symmetry; exact Hlast | exact E]).
Qed.

Lemma last_unit (a : str) (c1 c2 : char) : last (a ++ [c1; c2]) = Some c2.
Proof. rewrite last_app. reflexivity. Qed.

Lemma unit_text_trimmed (num sp : str) (c1 c2 : char) :
  num <> [] -> forallb digit_or_dot num = true -> isspace c2 = false ->
  strip (num ++ sp ++ [c1; c2]) = num ++ sp ++ [c1; c2].
Proof.
  intros Hne Hnum Hc. destruct num as [|x num]; [congruence|].
  simpl in Hnum. apply andb_true_iff in Hnum. destruct Hnum as [Hx _].
  apply strip_of_trimmed.
  replace ((x :: num) ++ sp ++ [c1; c2]) with (x :: (num ++ sp ++ [c1]) ++ [c2])
    by (simpl; rewrite <- !app_assoc; reflexivity).
  apply trimmed_ends; [apply digit_or_dot_not_space, Hx | exact Hc].
Qed.

Lemma parse_len_nonempty (mm pt : pattern) (num sp u : str) (d : Q) :
  num <> [] ->
  parse_len_with mm pt (num ++ sp ++ u) d
  = match match_ mm (strip (num ++ sp ++ u)) with
    | Some m => mm_to_pt <$> float_of (group 1 m)
    | None =>
        match match_ pt (strip (num ++ sp ++ u)) with
        | Some m => float_of (group 1 m)
        | None => Some d
        end
    end.
Proof. destruct num; [congruence | reflexivity]. Qed.

Lemma parse_len_to_pt_number (num sp : str) (d : Q) :
  num <> [] -> forallb digit_or_dot num = true -> forallb isspace sp = true ->
  parse_len_to_pt (num ++ sp ++ lit "mm") d = mm_to_pt <$> float_of num
  /\ parse_len_to_pt (num ++ sp ++ lit "pt") d = float_of num.
Proof.
  intros Hne Hnum Hsp. unfold parse_len_to_pt. rewrite !parse_len_nonempty by exact Hne.
  change (lit "mm") with [109%N; 109%N]. change (lit "pt") with [112%N; 116%N].
  rewrite !unit_text_trimmed by (assumption || reflexivity).
  unfold str, char in *. split.
  - pose proof (unit_re_match "mm" 109%N 109%N num sp eq_refl eq_refl eq_refl
                  Hne Hnum Hsp) as E.
    change (lit "mm") with [109%N; 109%N] in E.
    unfold str, char in *. rewrite E. reflexivity.
  - destruct (match_ (unit_re "mm") (num ++ sp ++ [112%N; 116%N])) as [m|] eqn:E.
    + exfalso. apply (unit_re_last "mm" 109%N 109%N) in E; [|reflexivity].
      rewrite app_assoc, last_unit in E. destruct E as [E|E]; discriminate E.
    + pose proof (unit_re_match "pt" 112%N 116%N num sp eq_refl eq_refl eq_refl
                    Hne Hnum Hsp) as E'.
      change (lit "pt") with [112%N; 116%N] in E'.
      unfold str, char in *. rewrite E'. reflexivity.
Qed.

(** X9: a number followed by optional white space and [mm] is converted from
    millimetres; followed by [pt] it is taken as it is.  The number is read
    by [float]. *)
Theorem parse_len_to_pt_units (num sp : str) (d : Q) :
  num <> [] -> forallb digit_or_dot num = true -> forallb isspace sp = true ->
  parse_len_to_pt (num ++ sp ++ lit "mm") d = mm_to_pt <$> float_of num
  /\ parse_len_to_pt (num ++ sp ++ lit "pt") d = float_of num.
Proof. exact (parse_len_to_pt_number num sp d). Qed.

Lemma leading_digits_spec (s : str) :
  s = fst (leading_digits s) ++ snd (leading_digits s)
  /\ forallb digit (fst (leading_digits s)) = true
  /\ match snd (leading_digits s) with
     | [] => True
     | c :: _ => digit c = false
     end.
Proof.
  induction s as [|c s (IH1 & IH2 & IH3)]; simpl; [auto|].
  destruct (digit c) eqn:E; simpl.
  - rewrite E, IH2. split; [f_equal; exact IH1 | auto].
  - auto.
Qed.

Lemma digit_not_dot (c : char) : digit c = true -> (c =? 46)%N = false.
Proof.
  unfold digit, in_range. rewrite andb_true_iff, !N.leb_le. intros H.
  apply N.eqb_neq. lia.
Qed.

Lemma dots_digits (s : str) : forallb digit s = true -> dots s = 0%nat.
Proof.
  unfold dots. induction s as [|c s IH]; simpl; [reflexivity|].
  intros H. apply andb_true_iff in H. destruct H as [Hc H].
  rewrite (digit_not_dot c Hc). apply IH, H.
Qed.

Lemma dots_app (a b : str) : dots (a ++ b) = (dots a + dots b)%nat.
Proof. unfold dots. rewrite List.filter_app, length_app. reflexivity. Qed.

Lemma dots_le (s : str) : (dots s <= length s)%nat.
Proof. unfold dots. apply List.filter_length_le. Qed.

Lemma digits_iff_no_dots (s : str) :
  forallb digit_or_dot s = true -> (forallb digit s = true <-> dots s = 0%nat).
Proof.
  intros Hs. split; [apply dots_digits|].
  unfold dots. induction s as [|c s IH]; simpl; [reflexivity|].
  simpl in Hs. apply andb_true_iff in Hs. destruct Hs as [Hc Hs].
  unfold digit_or_dot in Hc. destruct (c =? 46)%N eqn:E; simpl; [discriminate|].
  rewrite orb_false_r in Hc. intros H. rewrite Hc. apply IH; assumption.
Qed.

(** [float] refuses a text of digits and dots exactly when it has two or
    more dots or no digit. *)
Lemma float_of_None (num : str) :
  num <> [] -> forallb digit_or_dot num = true ->
  (float_of num = None <-> (2 <= dots num)%nat \/ dots num = length num).
Proof.
  intros Hne Hnum. unfold float_of.
  destruct (leading_digits_spec num) as (Hs & Hip & Hrest).
  destruct (leading_digits num) as [ip rest]. simpl in Hs, Hip, Hrest.
  pose proof (dots_digits ip Hip) as Hd.
  destruct rest as [|c fp].
  - rewrite app_nil_r in Hs. subst ip. rewrite Hd.
    destruct num; [congruence|]. simpl. split; [discriminate | lia].
  - assert (Hc : (c =? 46)%N = true).
    { rewrite Hs, forallb_app in Hnum. apply andb_true_iff in Hnum.
      destruct Hnum as [_ Hnum]. simpl in Hnum. apply andb_true_iff in Hnum.
      destruct Hnum as [Hc _]. unfold digit_or_dot in Hc. rewrite Hrest in Hc.
      exact Hc. }
    assert (Hfp : forallb digit_or_dot fp = true).
    { rewrite Hs, forallb_app in Hnum. apply andb_true_iff in Hnum.
      destruct Hnum as [_ Hnum]. simpl in Hnum. apply andb_true_iff in Hnum. tauto. }
    pose proof (digits_iff_no_dots fp Hfp) as Hiff. pose proof (dots_le fp) as Hle.
    assert (Hdots : dots num = S (dots fp)).
    { rewrite Hs, dots_app, Hd. unfold dots. simpl. rewrite Hc. reflexivity. }
    assert (Hlen : length num = (length ip + S (length fp))%nat)
      by (rewrite Hs, length_app; reflexivity).
    rewrite Hc, Hdots, Hlen. cbn [andb].
    destruct (forallb digit fp) eqn:Efp; cbn [andb].
    + assert (H0 : dots fp = 0%nat) by (apply Hiff; reflexivity).
      destruct ip as [|i ip], fp as [|f fp]; cbn [negb length];
        (split; [try discriminate; intros _ | intros [H|H]; [lia | try lia]]);
        simpl in *; try lia; try reflexivity.
    + assert (H0 : dots fp <> 0%nat) by (intros H; apply Hiff in H; congruence).
      split; [intros _; left; lia | reflexivity].
Qed.

(** X10: [parse_len_to_pt] raises, instead of falling back to the default,
    exactly for a number with two or more dots or without a digit. *)
Theorem parse_len_to_pt_raises_iff (num sp : str) (d : Q) :
  num <> [] -> forallb digit_or_dot num = true -> forallb isspace sp = true ->
  (parse_len_to_pt (num ++ sp ++ lit "mm") d = None
   <-> (2 <= dots num)%nat \/ dots num = length num)
  /\ (parse_len_to_pt (num ++ sp ++ lit "pt") d = None
      <-> (2 <= dots num)%nat \/ dots num = length num).
Proof.
  intros Hne Hnum Hsp.
  destruct (parse_len_to_pt_number num sp d Hne Hnum Hsp) as [-> ->].
  rewrite <- (float_of_None num Hne Hnum).
  split; [|reflexivity]. destruct (float_of num); simpl; split; congruence.
Qed.

(** X11: an empty value, a value of white space, and a value that does not
    start with a digit or a dot (a negative length, a keyword, an
    expression) give the default. *)
Theorem parse_len_to_pt_fallback (v : str) (d : Q) :
  match strip v with
  | [] => True
  | c :: _ => digit_or_dot c = false
  end ->
  parse_len_to_pt v d = Some d /\ parse_len_to_pt_escaped v d = Some d.
Proof.
  intros H. unfold parse_len_to_pt, parse_len_to_pt_escaped, parse_len_with.
  destruct v as [|c0 v0]; [split; reflexivity|].
  destruct (strip (c0 :: v0)) as [|c s]; [split; reflexivity|].
  unfold match_, unit_re, unit_re_escaped.
  cbn [lits lit List.map list_ascii_of_string app exec]. rewrite H.
  split; reflexivity.
Qed.

(** X12: the Justification-Gap gate and the box gate run on the built-in
    margins whatever the tokens file holds. *)
Theorem load_escaped_always_default (tokens : option str) :
  load_escaped tokens = Some default_config.
Proof.
  unfold load_escaped. rewrite parse_css_vars_escaped_empty. reflexivity.
Qed.

(** X13: a missing tokens file, an empty one and one without the text [:root]
    all give the built-in configuration and the body size 10pt. *)
Theorem load_defaults :
  load None = Some default_config
  /\ load (Some []) = Some default_config
  /\ load_body_pt None = Some 10
  /\ (forall css : str,
        (forall pre post : str, css <> pre ++ lit ":root" ++ post) ->
        load (Some css) = Some default_config /\ load_body_pt (Some css) = Some 10).
Proof.
  split; [reflexivity|]. split; [reflexivity|]. split; [reflexivity|].
  intros css Hno. unfold load, load_body_pt.
  rewrite (parse_css_vars_no_root css Hno). split; reflexivity.
Qed.

End ConfigFacts.

Section ConfigWitnesses.
Import Num Py Geometry Config.
Local Open Scope Q_scope.

Lemma parse_len_to_pt_units_witness :
  parse_len_to_pt (lit "12.5" ++ lit " " ++ lit "mm") 0 = mm_to_pt <$> float_of (lit "12.5")
  /\ parse_len_to_pt (lit "12.5" ++ lit " " ++ lit "pt") 0 = float_of (lit "12.5").
Proof.
  apply parse_len_to_pt_units; [discriminate | reflexivity | reflexivity].
Defined.

Lemma parse_len_to_pt_raises_iff_witness :
  parse_len_to_pt (lit "1.2.3" ++ [] ++ lit "mm") 0 = None.
Proof.
  apply (proj1 (parse_len_to_pt_raises_iff (lit "1.2.3") [] 0
                  ltac:(discriminate) eq_refl eq_refl)).
  left. vm_compute. lia.
Defined.

Lemma parse_len_to_pt_fallback_witness :
  parse_len_to_pt (lit "-5mm") 7 = Some 7 /\ parse_len_to_pt_escaped (lit "-5mm") 7 = Some 7.
Proof. apply parse_len_to_pt_fallback. reflexivity. Defined.

Lemma load_defaults_witness :
  load (Some (lit "body { margin: 0 }")) = Some default_config.
Proof.
  refine (proj1 (proj2 (proj2 (proj2 load_defaults)) (lit "body { margin: 0 }") _)).
  intros pre post E.
  assert (H : In 116%N (lit "body { margin: 0 }"))
    by (rewrite E; apply in_or_app; right; do 4 right; left; reflexivity).
  vm_compute in H.
  repeat (destruct H as [H|H]; [discriminate H|]). exact H.
Defined.

(** Lengths as the tokens file writes them. *)
Example parse_len_to_pt_values :
  parse_len_to_pt (lit "20mm") 0 = Some (mm_to_pt 20)
  /\ (exists q, parse_len_to_pt (lit "12.5pt") 0 = Some q /\ q == 12.5)
  /\ parse_len_to_pt (lit "1.2.3mm") 0 = None
  /\ parse_len_to_pt (lit "auto") 7 = Some 7
  /\ parse_len_to_pt_escaped (lit "20mm") 7 = Some 7.
Proof.
  split; [reflexivity|]. split; [eexists; split; [reflexivity | reflexivity]|].
  repeat split; reflexivity.
Qed.

End ConfigWitnesses.

(** ** The pages a run skips, and the order of what it reports *)

Section LoopMore.
Import Py Re Pdf Loop.

Lemma fold_level1_elem (t : list TocEntry) (acc : gset Z) (n : Z) :
  n ∈ fold_left
        (fun acc e =>
           if (toc_level e =? 1)%Z && (1 <? toc_page e)%Z
           then {[ (toc_page e - 1)%Z ]} ∪ acc else acc) t acc
  <-> n ∈ acc
      \/ exists e, In e t /\ toc_level e = 1%Z /\ (1 < toc_page e)%Z
                   /\ n = (toc_page e - 1)%Z.
Proof.
  revert acc. induction t as [|e t IH]; intros acc; simpl.
  - split; [auto | intros [H|(e & [] & _)]; exact H].
  - rewrite IH. clear IH.
    destruct (Z.eqb_spec (toc_level e) 1) as [E1|E1];
      destruct (Z.ltb_spec 1 (toc_page e)) as [E2|E2]; simpl.
    + rewrite elem_of_union, elem_of_singleton. split.
      * intros [[->|H]|(e' & He' & H)]; [right; exists e; auto | auto |].
        right. exists e'. auto.
      * intros [H|(e' & [<-|He'] & H1 & H2 & ->)]; [auto | auto |].
        right. exists e'. auto.
    + split; [intros [H|(e' & He' & H)]; [auto | right; exists e'; auto]|].
      intros [H|(e' & [<-|He'] & H1 & H2 & ->)]; [auto | lia |].
      right. exists e'. auto.
    + split; [intros [H|(e' & He' & H)]; [auto | right; exists e'; auto]|].
      intros [H|(e' & [<-|He'] & H1 & H2 & ->)]; [auto | congruence |].
      right. exists e'. auto.
    + split; [intros [H|(e' & He' & H)]; [auto | right; exists e'; auto]|].
      intros [H|(e' & [<-|He'] & H1 & H2 & ->)]; [auto | congruence |].
      right. exists e'. auto.
Qed.

(** X14: the pages of the set [ignore_pages]: with
    [--ignore-before-first-chapter], the pages before the first numbered
    chapter; with [--ignore-before-level1], the page before each level-1
    bookmark that is not on page 1; nothing else. *)
Theorem ignore_pages_spec (before_first_chapter before_level1 : bool)
    (t : list TocEntry) (n : Z) :
  n ∈ ignore_pages before_first_chapter before_level1 t
  <-> (before_first_chapter = true
       /\ exists p, first_chapter_page t = Some p /\ (1 <= n < p)%Z)
      \/ (before_level1 = true
          /\ exists e, In e t /\ toc_level e = 1%Z /\ (1 < toc_page e)%Z
                       /\ n = (toc_page e - 1)%Z).
Proof.
  unfold ignore_pages.
  set (s := if before_first_chapter then _ else _).
  assert (Hs : n ∈ (s : gset Z) <->
               before_first_chapter = true
               /\ exists p, first_chapter_page t = Some p /\ (1 <= n < p)%Z).
  { unfold s. destruct before_first_chapter.
    - destruct (first_chapter_page t) as [p|].
      + destruct (Z.ltb_spec 1 p) as [E|E].
        * rewrite elem_of_list_to_set, elem_of_seqZ. split.
          -- intros H. split; [reflexivity|]. exists p. split; [reflexivity | lia].
          -- intros (_ & p' & [= <-] & H). lia.
        * split; [intros H; apply not_elem_of_empty in H; destruct H|].
          intros (_ & p' & [= <-] & H). lia.
      + split; [intros H; apply not_elem_of_empty in H; destruct H|].
        intros (_ & p' & H & _). discriminate.
    - split; [intros H; apply not_elem_of_empty in H; destruct H|].
      intros (H & _). discriminate. }
  destruct before_level1.
  - rewrite fold_level1_elem, Hs. split.
    + intros [H|H]; [left; exact H | right; auto].
    + intros [H|(_ & H)]; [left; exact H | right; exact H].
  - rewrite Hs. split; [auto|]. intros [H|(H & _)]; [exact H | discriminate].
Qed.

Lemma exec_bol_0 (rest : pattern) (caps : list str) (opened s : str) :
  exec (Bol :: rest) caps opened 0 s = exec rest caps opened 0 s.
Proof. reflexivity. Qed.

(** X15: a bookmark counts as a numbered chapter exactly when it is of level 1
    and its title, trimmed, starts with one or more digits and a dot. *)
Theorem is_chapter_spec (e : TocEntry) :
  is_chapter e = true
  <-> toc_level e = 1%Z
      /\ exists ds rest : str,
           strip (toc_title e) = ds ++ lit "." ++ rest
           /\ ds <> [] /\ forallb digit ds = true.
Proof.
  unfold is_chapter. rewrite andb_true_iff, Z.eqb_eq.
  apply and_iff_compat_l. generalize (strip (toc_title e)) as s. intros s.
  unfold match_, chapter_re. cbn [lits lit List.map list_ascii_of_string app].
  rewrite exec_bol_0. split.
  - destruct (exec _ [] [] 0 s) as [m|] eqn:E; [intros _ | discriminate].
    apply exec_plus_Some in E.
    destruct E as (x & s' & n & -> & Hx & Hn & Hall & E).
    apply exec_lit_Some in E. destruct E as (rest & Ed & _).
    exists (x :: take n s'), rest. split; [|split; [discriminate|]].
    + simpl. f_equal. rewrite <- (take_drop n s') at 1. f_equal. exact Ed.
    + simpl. rewrite Hx. exact Hall.
  - intros (ds & rest & -> & Hne & Hds). destruct ds as [|x ds]; [congruence|].
    simpl in Hds. apply andb_true_iff in Hds. destruct Hds as [Hx Hds].
    cbn [app exec]. rewrite Hx.
    rewrite (star_greedy_app digit _ ds (lit "." ++ rest) 1 [] Hds); [reflexivity|].
    change (lit "." ++ rest) with (46%N :: rest).
    rewrite star_greedy_stop by reflexivity. reflexivity.
Qed.

Context {V : Type}.
Variable body : Z -> Page -> list V.
Variable page_of : V -> Z.

(** When the loop body yields only violations of its own page, the pages
    of the list [bad] never go down, and lie between the first and the last
    page. *)
Lemma for_pages_ordered (pgs : list Page) (start : Z) :
  (forall n pg v, In v (body n pg) -> page_of v = n) ->
  Sorted Z.le (List.map page_of (for_pages body start pgs))
  /\ Forall (fun v => (start <= page_of v < start + Z.of_nat (length pgs))%Z)
       (for_pages body start pgs).
Proof.
  intros Hpage. revert start. induction pgs as [|pg pgs IH]; intros start; simpl.
  - split; constructor.
  - destruct (IH (start + 1)%Z) as [IHs IHr].
    assert (Hr : Forall (fun v => (start <= page_of v
                                   < start + Z.pos (Pos.of_succ_nat (length pgs)))%Z)
                   (body start pg ++ for_pages body (start + 1) pgs)).
    { apply Forall_app. split.
      - apply List.Forall_forall. intros v Hv. rewrite (Hpage _ _ _ Hv). lia.
      - eapply List.Forall_impl; [|exact IHr]. simpl. intros v Hv. lia. }
    split; [|exact Hr].
    assert (Hhere : Forall (fun v => page_of v = start) (body start pg))
      by (apply List.Forall_forall; intros v Hv; apply (Hpage _ _ _ Hv)).
    induction (body start pg) as [|v l IHl]; simpl; [exact IHs|].
    inversion Hhere as [|? ? Hv Hl]; subst.
    constructor; [apply IHl; [|exact Hl]|].
    + inversion Hr; assumption.
    + destruct l as [|v' l]; simpl.
      * destruct (for_pages body (page_of v + 1) pgs) as [|v' l'] eqn:E;
          constructor.
        inversion IHr as [|? ? Hv' _]; subst. lia.
      * constructor. inversion Hl; subst. lia.
Qed.

(** With at most one violation per page the pages go strictly up: no page
    is reported twice. *)
Lemma for_pages_strictly_ordered (pgs : list Page) (start : Z) :
  (forall n pg v, In v (body n pg) -> page_of v = n) ->
  (forall n pg, (length (body n pg) <= 1)%nat) ->
  Sorted Z.lt (List.map page_of (for_pages body start pgs)).
Proof.
  intros Hpage Hone. revert start. induction pgs as [|pg pgs IH]; intros start; simpl.
  - constructor.
  - pose proof (Hone start pg) as H1. pose proof (Hpage start pg) as Hp.
    destruct (body start pg) as [|v [|v' l]]; simpl in *; [apply IH | | lia].
    constructor; [apply IH|].
    destruct (for_pages_ordered pgs (start + 1) Hpage) as [_ Hr].
    destruct (for_pages body (start + 1) pgs) as [|w l]; constructor.
    inversion Hr; subst. rewrite (Hp v) by (left; reflexivity). lia.
Qed.

(** A loop body that yields nothing for the pages of the document yields
    an empty list [bad]. *)
Lemma for_pages_nil (pgs : list Page) (start : Z) :
  (forall n pg, (start <= n < start + Z.of_nat (length pgs))%Z -> body n pg = []) ->
  for_pages body start pgs = [].
Proof.
  revert start. induction pgs as [|pg pgs IH]; intros start H; simpl; [reflexivity|].
  rewrite H by (simpl; lia). simpl. apply IH. intros n pg' Hn. apply H. simpl. lia.
Qed.

End LoopMore.

(** ** Page-Fill gate, further *)

Section PageFillMore.
Import Num Py Pdf Geometry PageFill.
Local Open Scope Q_scope.

(** A loop that raises a running maximum by the values of the items that
    pass a test. *)
Lemma fold_max_spec {A : Type} (test : A -> bool) (val : A -> Q) (l : list A) (y : Q) :
  let r := fold_left (fun m x => if test x then Qmax m (val x) else m) l y in
  y <= r
  /\ (forall x, In x l -> test x = true -> val x <= r)
  /\ (r = y \/ exists x, In x l /\ test x = true /\ r = val x).
Proof.
  revert y. induction l as [|a l IH]; intros y; simpl.
  - split; [apply Qle_refl|]. split; [intros x []|]. left. reflexivity.
  - specialize (IH (if test a then Qmax y (val a) else y)).
    cbv zeta in IH. destruct IH as (Hle & Hall & Hwit).
    set (r := fold_left _ l _) in *.
    assert (Hy : y <= (if test a then Qmax y (val a) else y))
      by (destruct (test a); [apply Q.le_max_l | apply Qle_refl]).
    split; [eapply Qle_trans; eassumption|]. split.
    + intros x [<-|Hx] Ht; [|apply Hall; assumption].
      rewrite Ht in Hle. eapply Qle_trans; [apply Q.le_max_r | exact Hle].
    + destruct Hwit as [Hr|(x & Hx & Ht & Hr)].
      * destruct (test a) eqn:Ea; [|left; exact Hr].
        unfold Qmax, GenericMinMax.gmax in Hr.
        destruct (y ?= val a); [left; exact Hr | | left; exact Hr].
        right. exists a. auto.
      * right. exists x. auto.
Qed.

Lemma fold_images_concat (cfg : LayoutConfig) (n : Z) (pg : Page)
    (imgs : list (list Rect)) (y : Q) :
  fold_left (fun ym rects => fold_left (image_step cfg n pg) rects ym) imgs y
  = fold_left (image_step cfg n pg) (concat imgs) y.
Proof.
  revert y. induction imgs as [|rects imgs IH]; intros y; simpl; [reflexivity|].
  rewrite fold_left_app. apply IH.
Qed.

Lemma y_max_cases (cfg : LayoutConfig) (n : Z) (pg : Page) :
  body_y0 cfg <= y_max cfg n pg
  /\ (forall b, In b (pg_blocks pg) -> qualifying_block cfg n pg b ->
        clipped_bottom cfg pg (b_rect b) <= y_max cfg n pg)
  /\ (forall r, In r (concat (pg_images pg)) -> in_body cfg n pg r = true ->
        clipped_bottom cfg pg r <= y_max cfg n pg)
  /\ (y_max cfg n pg = body_y0 cfg
      \/ (exists b, In b (pg_blocks pg) /\ qualifying_block cfg n pg b
                    /\ y_max cfg n pg = clipped_bottom cfg pg (b_rect b))
      \/ (exists r, In r (concat (pg_images pg)) /\ in_body cfg n pg r = true
                    /\ y_max cfg n pg = clipped_bottom cfg pg r)).
Proof.
  unfold y_max. rewrite fold_images_concat.
  pose proof (fold_max_spec (block_counts cfg n pg)
                (fun b => clipped_bottom cfg pg (b_rect b))
                (pg_blocks pg) (body_y0 cfg)) as Hb.
  cbv zeta in Hb. change (fun m x => _) with (block_step cfg n pg) in Hb.
  set (yb := fold_left (block_step cfg n pg) (pg_blocks pg) (body_y0 cfg)) in *.
  pose proof (fold_max_spec (in_body cfg n pg) (clipped_bottom cfg pg)
                (concat (pg_images pg)) yb) as Hi.
  cbv zeta in Hi. change (fun m x => _) with (image_step cfg n pg) in Hi.
  set (yi := fold_left (image_step cfg n pg) (concat (pg_images pg)) yb) in *.
  destruct Hb as (Hb1 & Hb2 & Hb3), Hi as (Hi1 & Hi2 & Hi3).
  split; [eapply Qle_trans; eassumption|]. split; [|split].
  - intros b Hin Hq. eapply Qle_trans; [|exact Hi1].
    apply (Hb2 b Hin). apply block_counts_iff. exact Hq.
  - exact Hi2.
  - destruct Hi3 as [Hi3|(r & Hr & Ht & Hi3)].
    + destruct Hb3 as [Hb3|(b & Hin & Ht & Hb3)].
      * left. congruence.
      * right. left. exists b. split; [exact Hin|].
        split; [apply block_counts_iff; exact Ht | congruence].
    + right. right. exists r. auto.
Qed.

(** X16: [y_max] is the greatest clipped bottom edge among the qualifying text
    blocks and the images inside the body, and the top of the body when
    there is none. *)
Theorem y_max_greatest_bottom (cfg : LayoutConfig) (n : Z) (pg : Page) :
  body_y0 cfg <= y_max cfg n pg
  /\ (forall b, In b (pg_blocks pg) -> qualifying_block cfg n pg b ->
        clipped_bottom cfg pg (b_rect b) <= y_max cfg n pg)
  /\ (forall r, In r (concat (pg_images pg)) -> in_body cfg n pg r = true ->
        clipped_bottom cfg pg r <= y_max cfg n pg)
  /\ (y_max cfg n pg = body_y0 cfg
      \/ (exists b, In b (pg_blocks pg) /\ qualifying_block cfg n pg b
                    /\ y_max cfg n pg = clipped_bottom cfg pg (b_rect b))
      \/ (exists r, In r (concat (pg_images pg)) /\ in_body cfg n pg r = true
                    /\ y_max cfg n pg = clipped_bottom cfg pg r)).
Proof. exact (y_max_cases cfg n pg). Qed.

Lemma clipped_bottom_le (cfg : LayoutConfig) (pg : Page) (r : Rect) :
  clipped_bottom cfg pg r <= body_y1 cfg (pg_height pg).
Proof. apply Q.le_min_r. Qed.

(** X17: the used ratio lies between 0 and 1 on every page. *)
Theorem used_ratio_in_unit (cfg : LayoutConfig) (n : Z) (pg : Page) :
  0 <= used_ratio cfg n pg <= 1.
Proof.
  destruct (y_max_cases cfg n pg) as (Hlo & _ & _ & Hwit).
  assert (Hhi : y_max cfg n pg <= body_y1 cfg (pg_height pg)).
  { destruct Hwit as [->|[(b & _ & _ & ->)|(r & _ & _ & ->)]];
      try apply clipped_bottom_le.
    apply body_y0_le_y1. }
  unfold used_ratio.
  pose proof (body_h_ge_1 cfg (pg_height pg)) as H1.
  replace (truthy (body_h cfg (pg_height pg))) with true
    by (symmetry; apply truthy_nonzero; lra).
  assert (Hbh : body_y1 cfg (pg_height pg) - body_y0 cfg <= body_h cfg (pg_height pg))
    by (unfold body_h; apply Q.le_max_r).
  split.
  - apply Qle_shift_div_l; lra.
  - apply Qle_shift_div_r; lra.
Qed.

(** X18: when a qualifying block or an image inside the body reaches the
    bottom of a body at least 1 high, the used ratio is 1 and the page is
    not reported, whatever [min_used] not above 1. *)
Theorem full_page_not_flagged (args : Args) (cfg : LayoutConfig) (n : Z) (pg : Page) :
  1 <= body_y1 cfg (pg_height pg) - body_y0 cfg ->
  min_used args <= 1 ->
  ((exists b, In b (pg_blocks pg) /\ qualifying_block cfg n pg b
              /\ body_y1 cfg (pg_height pg) <= y1 (b_rect b))
   \/ (exists r, In r (concat (pg_images pg)) /\ in_body cfg n pg r = true
                 /\ body_y1 cfg (pg_height pg) <= y1 r)) ->
  used_ratio cfg n pg == 1 /\ check_page cfg n pg args = [].
Proof.
  intros Hbody Hmin Hfull.
  destruct (y_max_cases cfg n pg) as (Hlo & Hb & Hi & Hwit).
  assert (Hhi : y_max cfg n pg <= body_y1 cfg (pg_height pg)).
  { destruct Hwit as [->|[(b & _ & _ & ->)|(r & _ & _ & ->)]];
      try apply clipped_bottom_le. lra. }
  assert (Hge : body_y1 cfg (pg_height pg) <= y_max cfg n pg).
  { destruct Hfull as [(b & Hin & Hq & Hy)|(r & Hin & Hq & Hy)].
    - eapply Qle_trans; [|apply (Hb b Hin Hq)].
      unfold clipped_bottom. apply Q.min_glb; [exact Hy | apply Qle_refl].
    - eapply Qle_trans; [|apply (Hi r Hin Hq)].
      unfold clipped_bottom. apply Q.min_glb; [exact Hy | apply Qle_refl]. }
  assert (Hu : used_ratio cfg n pg == 1).
  { unfold used_ratio. pose proof (body_h_ge_1 cfg (pg_height pg)) as H1.
    replace (truthy (body_h cfg (pg_height pg))) with true
      by (symmetry; apply truthy_nonzero; lra).
    assert (Hbh : body_h cfg (pg_height pg) == body_y1 cfg (pg_height pg) - body_y0 cfg)
      by (unfold body_h; apply Q.max_r; exact Hbody).
    rewrite Hbh. field_simplify_eq; lra. }
  split; [exact Hu|]. unfold check_page.
  destruct (Qle_bool _ 0 || Qle_bool _ 0); [reflexivity|].
  replace (Qltb (used_ratio cfg n pg) (min_used args)) with false; [reflexivity|].
  symmetry. apply Qltb_ge. lra.
Qed.

End PageFillMore.

Section PageFillMoreWitnesses.
Import Num Py Pdf Geometry PageFill.
Local Open Scope Q_scope.

Lemma full_page_not_flagged_witness :
  let pg := mkPage 600 800 [mkBlock (mkRect 60 60 300 780) (lit "text")] [] [] [] in
  used_ratio default_config 3 pg == 1
  /\ check_page default_config 3 pg default_args = [].
Proof.
  cbv zeta. apply full_page_not_flagged.
  - qcompute.
  - qcompute.
  - left. eexists. split; [left; reflexivity|].
    split; [apply block_counts_iff; vm_compute; reflexivity | qcompute].
Defined.

End PageFillMoreWitnesses.

(** ** Column-Balance gate, further *)

Section ColumnBalanceMore.
Import Num Py Pdf Geometry Coverage ColumnBalance.
Local Open Scope Q_scope.

Lemma in_column_Left (cfg : LayoutConfig) (n : Z) (pg : Page) (b : Block) :
  in_column cfg n pg Left b
  = match column_of cfg n pg b with Some Left => true | _ => false end.
Proof. unfold in_column. destruct (column_of cfg n pg b) as [[|]|]; reflexivity. Qed.

Lemma in_column_Right (cfg : LayoutConfig) (n : Z) (pg : Page) (b : Block) :
  in_column cfg n pg Right b
  = match column_of cfg n pg b with Some Right => true | _ => false end.
Proof. unfold in_column. destruct (column_of cfg n pg b) as [[|]|]; reflexivity. Qed.

Lemma fold_block_step (cfg : LayoutConfig) (n : Z) (pg : Page) (l : list Block) (t : Tally) :
  fold_left (block_step cfg n pg) l t
  = mkTally
      (left_blocks t + Z.of_nat (length (List.filter (in_column cfg n pg Left) l)))
      (right_blocks t + Z.of_nat (length (List.filter (in_column cfg n pg Right) l)))
      (left_intervals t ++ List.map (clipped cfg pg) (List.filter (in_column cfg n pg Left) l))
      (right_intervals t ++ List.map (clipped cfg pg) (List.filter (in_column cfg n pg Right) l)).
Proof.
  revert t. induction l as [|b l IH]; intros t.
  - destruct t; simpl. rewrite !Z.add_0_r, !app_nil_r. reflexivity.
  - cbn [fold_left]. rewrite IH. cbn [List.filter].
    rewrite (in_column_Left cfg n pg b), (in_column_Right cfg n pg b).
    unfold block_step.
    destruct (column_of cfg n pg b) as [[|]|]; cbn [left_blocks right_blocks
      left_intervals right_intervals length List.map];
      rewrite <- ?app_assoc; cbn [app]; f_equal; lia.
Qed.

(** X19: the loop over the blocks counts in each column the blocks that fall
    in it and keeps their clipped intervals in page order; a counter is
    the length of its interval list. *)
Theorem tally_spec (cfg : LayoutConfig) (n : Z) (pg : Page) :
  let t := tally cfg n pg in
  left_intervals t
  = List.map (clipped cfg pg) (List.filter (in_column cfg n pg Left) (pg_blocks pg))
  /\ right_intervals t
     = List.map (clipped cfg pg) (List.filter (in_column cfg n pg Right) (pg_blocks pg))
  /\ left_blocks t = Z.of_nat (length (left_intervals t))
  /\ right_blocks t = Z.of_nat (length (right_intervals t))
  /\ (left_blocks t + right_blocks t <= Z.of_nat (length (pg_blocks pg)))%Z.
Proof.
  cbv zeta. unfold tally. rewrite fold_block_step.
  cbn [left_blocks right_blocks left_intervals right_intervals app].
  rewrite !length_map. repeat split; try lia.
  induction (pg_blocks pg) as [|b l IH]; [simpl; lia|].
  cbn [List.filter]. rewrite (in_column_Left cfg n pg b), (in_column_Right cfg n pg b).
  destruct (column_of cfg n pg b) as [[|]|]; cbn [length]; lia.
Qed.

Lemma rect_step_both (cfg : LayoutConfig) (n : Z) (pg : Page) (r : Rect) :
  rect_step cfg n pg (true, true) r = (true, true).
Proof.
  unfold rect_step. cbn [fst snd].
  destruct (_ || _); [reflexivity|].
  destruct (_ && _), (_ && _); reflexivity.
Qed.

Lemma fold_rect_step_both (cfg : LayoutConfig) (n : Z) (pg : Page) (l : list Rect) :
  fold_left (rect_step cfg n pg) l (true, true) = (true, true).
Proof.
  induction l as [|r l IH]; [reflexivity|].
  cbn [fold_left]. rewrite rect_step_both. exact IH.
Qed.

(** Leaving the loop over the images once both flags are set changes
    nothing: the flags are those of the loop run over every rectangle of
    every image. *)
Lemma image_flags_all_rects (cfg : LayoutConfig) (n : Z) (pg : Page)
    (imgs : list (list Rect)) (f : bool * bool) :
  image_flags cfg n pg imgs f = fold_left (rect_step cfg n pg) (concat imgs) f.
Proof.
  revert f. induction imgs as [|rects imgs IH]; intros f; [reflexivity|].
  cbn [image_flags concat]. rewrite fold_left_app.
  destruct (fold_left (rect_step cfg n pg) rects f) as [[|] [|]] eqn:E;
    cbn [fst snd andb]; try apply IH.
  symmetry. apply fold_rect_step_both.
Qed.

Lemma fold_rect_step_spec (cfg : LayoutConfig) (n : Z) (pg : Page) (l : list Rect)
    (f : bool * bool) :
  let f' := fold_left (rect_step cfg n pg) l f in
  (fst f' = true <->
     fst f = true
     \/ exists r, In r l
          /\ overlaps_column cfg pg (left_x0 cfg n) (left_x1 cfg n (pg_width pg)) r)
  /\ (snd f' = true <->
     snd f = true
     \/ exists r, In r l
          /\ overlaps_column cfg pg (right_x0 cfg n (pg_width pg))
               (right_x1 cfg n (pg_width pg)) r).
Proof.
  revert f. induction l as [|r l IH]; intros f; cbv zeta.
  - cbn [fold_left]. split; (split; [auto | intros [H|(r & [] & _)]; exact H]).
  - cbn [fold_left]. specialize (IH (rect_step cfg n pg f r)). cbv zeta in IH.
    destruct IH as [IHl IHr].
    assert (Hstep :
      (fst (rect_step cfg n pg f r) = true <->
         fst f = true
         \/ overlaps_column cfg pg (left_x0 cfg n) (left_x1 cfg n (pg_width pg)) r)
      /\ (snd (rect_step cfg n pg f r) = true <->
         snd f = true
         \/ overlaps_column cfg pg (right_x0 cfg n (pg_width pg))
              (right_x1 cfg n (pg_width pg)) r)).
    { unfold rect_step, overlaps_column.
      destruct (Qle_bool (y1 r) (body_y0 cfg)) eqn:E1.
      { apply Qle_bool_iff in E1. cbn [orb].
        split; (split; [auto | intros [H|(H & _)]; [exact H | lra]]). }
      destruct (Qle_bool (body_y1 cfg (pg_height pg)) (y0 r)) eqn:E2.
      { apply Qle_bool_iff in E2. cbn [orb].
        split; (split; [auto | intros [H|(_ & H & _)]; [exact H | lra]]). }
      apply Qle_bool_gt in E1, E2. cbn [orb fst snd].
      split.
      - destruct (Qltb (left_x0 cfg n) (x1 r)) eqn:A;
          [destruct (Qltb (x0 r) (left_x1 cfg n (pg_width pg))) eqn:B|]; cbn [andb].
        + apply Qltb_lt in A, B. split; [intros _; right; auto | reflexivity].
        + apply Qltb_ge in B. split; [auto | intros [H|(_ & _ & _ & H)]; [exact H | lra]].
        + apply Qltb_ge in A. split; [auto | intros [H|(_ & _ & H & _)]; [exact H | lra]].
      - destruct (Qltb (right_x0 cfg n (pg_width pg)) (x1 r)) eqn:A;
          [destruct (Qltb (x0 r) (right_x1 cfg n (pg_width pg))) eqn:B|]; cbn [andb].
        + apply Qltb_lt in A, B. split; [intros _; right; auto | reflexivity].
        + apply Qltb_ge in B. split; [auto | intros [H|(_ & _ & _ & H)]; [exact H | lra]].
        + apply Qltb_ge in A. split; [auto | intros [H|(_ & _ & H & _)]; [exact H | lra]]. }
    destruct Hstep as [Sl Sr]. split.
    + rewrite IHl, Sl. split.
      * intros [[H|H]|(x & Hx & H)]; [left; exact H | right; exists r; simpl; auto
                                       | right; exists x; simpl; auto].
      * intros [H|(x & [<-|Hx] & H)]; [left; left; exact H | left; right; exact H
                                        | right; exists x; auto].
    + rewrite IHr, Sr. split.
      * intros [[H|H]|(x & Hx & H)]; [left; exact H | right; exists r; simpl; auto
                                       | right; exists x; simpl; auto].
      * intros [H|(x & [<-|Hx] & H)]; [left; left; exact H | left; right; exact H
                                        | right; exists x; auto].
Qed.

(** X21: a column has an image exactly when some rectangle of some image of
    the page overlaps the body vertically and the column horizontally. *)
Theorem has_image_iff (cfg : LayoutConfig) (n : Z) (pg : Page) :
  (left_has_image cfg n pg = true <->
     exists r, In r (concat (pg_images pg))
       /\ overlaps_column cfg pg (left_x0 cfg n) (left_x1 cfg n (pg_width pg)) r)
  /\ (right_has_image cfg n pg = true <->
     exists r, In r (concat (pg_images pg))
       /\ overlaps_column cfg pg (right_x0 cfg n (pg_width pg))
            (right_x1 cfg n (pg_width pg)) r).
Proof.
  unfold left_has_image, right_has_image. rewrite image_flags_all_rects.
  destruct (fold_rect_step_spec cfg n pg (concat (pg_images pg)) (false, false)) as [L R].
  cbv zeta in L, R. cbn [fst snd] in L, R. split.
  - rewrite L. split; [intros [H|H]; [discriminate | exact H] | auto].
  - rewrite R. split; [intros [H|H]; [discriminate | exact H] | auto].
Qed.

End ColumnBalanceMore.

(** ** The reports of the gates *)

Section ReportFacts.
Import Py Pdf Geometry Loop.
Variable isdigit_char : char -> bool.
Variable lower : str -> str.

Lemma scan_elem {V : Type} (ign : Z -> bool) (chk : Z -> Page -> list V)
    (page_of : V -> Z) (pgs : list Page) (v : V) :
  (forall n pg x, x ∈ chk n pg -> page_of x = n) ->
  v ∈ for_pages (fun n pg => if ign n then [] else chk n pg) 1 pgs ->
  (1 <= page_of v <= Z.of_nat (length pgs))%Z /\ ign (page_of v) = false.
Proof.
  intros Hpage Hv. apply for_pages_elem in Hv. destruct Hv as (i & pg & Hl & Hv).
  apply lookup_lt_Some in Hl.
  destruct (ign (1 + Z.of_nat i)%Z) eqn:E; [inversion Hv|].
  apply Hpage in Hv. rewrite Hv. split; [lia | exact E].
Qed.

Lemma scan_body_page {V : Type} (ign : Z -> bool) (chk : Z -> Page -> list V)
    (page_of : V -> Z) :
  (forall n pg x, x ∈ chk n pg -> page_of x = n) ->
  forall n pg x, In x (if ign n then [] else chk n pg) -> page_of x = n.
Proof.
  intros Hpage n pg x Hx. destruct (ign n); [destruct Hx|].
  apply (Hpage n pg). apply list_elem_of_In. exact Hx.
Qed.

Lemma page_fill_check_page_length (args : PageFill.Args) (cfg : LayoutConfig) (n : Z)
    (pg : Page) :
  (length (PageFill.check_page cfg n pg args) <= 1)%nat.
Proof.
  unfold PageFill.check_page.
  repeat match goal with
  | |- context [if ?c then _ else _] => destruct c
  end; simpl; lia.
Qed.

Lemma column_balance_check_page_length (args : ColumnBalance.Args) (cfg : LayoutConfig)
    (n : Z) (pg : Page) :
  (length (ColumnBalance.check_page cfg n pg args) <= 1)%nat.
Proof.
  unfold ColumnBalance.check_page.
  repeat match goal with
  | |- context [if ?c then _ else _] => destruct c
  end; simpl; lia.
Qed.

Lemma bullet_check_page_length (cfg : LayoutConfig) (n : Z) (pg : Page) :
  (length (BulletOrphan.check_page cfg n pg) <= 1)%nat.
Proof.
  unfold BulletOrphan.check_page. cbv zeta.
  repeat match goal with
  | |- context [if ?c then _ else _] => destruct c
  end; simpl; lia.
Qed.

Lemma justify_check_page_page (args : JustifyGaps.Args) (cfg : LayoutConfig) (n : Z)
    (pg : Page) (v : JustifyGaps.Violation) :
  v ∈ JustifyGaps.check_page isdigit_char cfg n pg args -> JustifyGaps.v_page v = n.
Proof. intros H. apply check_page_span in H. apply H. Qed.

Lemma box_check_page_page (args : BoxJustifyGaps.Args) (cfg : LayoutConfig) (n : Z)
    (pg : Page) (v : BoxJustifyGaps.Violation) :
  v ∈ BoxJustifyGaps.check_page lower cfg n pg args -> BoxJustifyGaps.v_page v = n.
Proof.
  assert (Hcol : forall col ws,
            v ∈ BoxJustifyGaps.check_column lower n args col ws ->
            BoxJustifyGaps.v_page v = n).
  { intros col ws H. unfold BoxJustifyGaps.check_column in H.
    apply list_elem_of_In, in_flat_map in H. destruct H as (yl & _ & H).
    unfold BoxJustifyGaps.check_line in H. cbv zeta in H.
    repeat match type of H with
    | context [if ?c then _ else _] => destruct c
    end; try (destruct H; fail).
    destruct H as [<-|[]]. reflexivity. }
  unfold BoxJustifyGaps.check_page.
  destruct (Qle_bool _ 0 || Qle_bool _ 0); [intros H; inversion H|].
  rewrite elem_of_app. intros [H|H]; eapply Hcol; exact H.
Qed.

Lemma heading_check_page_page (thr : Q) (n : Z) (pg : Page)
    (v : HeadingHyphenation.Violation) :
  v ∈ HeadingHyphenation.check_page thr n pg -> HeadingHyphenation.v_page v = n.
Proof.
  unfold HeadingHyphenation.check_page. intros H.
  apply list_elem_of_In, in_flat_map in H. destruct H as (lns & _ & H).
  apply list_elem_of_In, check_lines_elem in H.
  destruct H as (pre & l1 & l2 & post & _ & H).
  unfold HeadingHyphenation.check_pair in H.
  destruct (HeadingHyphenation.line_text_and_size l1) as [t1 s1].
  destruct (HeadingHyphenation.line_text_and_size l2) as [t2 s2].
  repeat match type of H with
  | context [if ?c then _ else _] => destruct c
  end; try (inversion H; fail).
  apply list_elem_of_singleton in H. subst v. reflexivity.
Qed.

(** X22: the page-fill, column-balance and bullet-orphan gates report a page
    at most once and in increasing page order. *)
Theorem one_report_per_page (doc : Doc) (cfg : LayoutConfig)
    (pf : PageFill.Args) (cb : ColumnBalance.Args) (bo : BulletOrphan.Args) :
  Sorted Z.lt (List.map PageFill.v_page (PageFill.scan pf cfg doc))
  /\ Sorted Z.lt (List.map ColumnBalance.v_page (ColumnBalance.scan cb cfg doc))
  /\ Sorted Z.lt (List.map BulletOrphan.v_page (BulletOrphan.scan bo cfg doc)).
Proof.
  split; [|split].
  - apply for_pages_strictly_ordered.
    + apply scan_body_page. apply page_fill_check_page_page.
    + intros n pg. destruct (PageFill.ignored pf doc n); [simpl; lia|].
      apply page_fill_check_page_length.
  - apply for_pages_strictly_ordered.
    + apply scan_body_page. apply column_balance_check_page_page.
    + intros n pg. destruct (ColumnBalance.ignored cb doc n); [simpl; lia|].
      apply column_balance_check_page_length.
  - apply for_pages_strictly_ordered.
    + apply (scan_body_page _ (fun n pg => BulletOrphan.check_page cfg n pg)).
      apply bullet_check_page_page.
    + intros n pg. destruct (BulletOrphan.ignored bo doc n); [simpl; lia|].
      apply bullet_check_page_length.
Qed.

(** X23: the justification-gap, box-gap and heading gates list their
    violations page by page: the page numbers of a report never
    decrease. *)
Theorem reports_follow_pages (doc : Doc) (cfg : LayoutConfig)
    (jg : JustifyGaps.Args) (bx : BoxJustifyGaps.Args) (threshold : Q) :
  Sorted Z.le (List.map JustifyGaps.v_page (JustifyGaps.scan isdigit_char jg cfg doc))
  /\ Sorted Z.le (List.map BoxJustifyGaps.v_page (BoxJustifyGaps.scan lower bx cfg doc))
  /\ Sorted Z.le (List.map HeadingHyphenation.v_page
                    (HeadingHyphenation.scan threshold doc)).
Proof.
  split; [|split].
  - apply for_pages_ordered. apply scan_body_page. apply justify_check_page_page.
  - apply for_pages_ordered.
    apply (scan_body_page (fun n => (n <=? BoxJustifyGaps.ignore_first bx)%Z)
             (fun n pg => BoxJustifyGaps.check_page lower cfg n pg bx)).
    apply box_check_page_page.
  - apply for_pages_ordered. intros n pg v H.
    apply (heading_check_page_page threshold n pg). apply list_elem_of_In. exact H.
Qed.

(** X24: every violation a gate reports carries the number of a page of the
    document that the gate's ignore options do not exclude. *)
Theorem reported_pages_not_ignored (doc : Doc) (cfg : LayoutConfig)
    (pf : PageFill.Args) (cb : ColumnBalance.Args) (jg : JustifyGaps.Args)
    (bo : BulletOrphan.Args) (bx : BoxJustifyGaps.Args) :
  let total := Z.of_nat (length (pages doc)) in
  (forall v, v ∈ PageFill.scan pf cfg doc ->
     (1 <= PageFill.v_page v <= total)%Z
     /\ PageFill.ignored pf doc (PageFill.v_page v) = false)
  /\ (forall v, v ∈ ColumnBalance.scan cb cfg doc ->
     (1 <= ColumnBalance.v_page v <= total)%Z
     /\ ColumnBalance.ignored cb doc (ColumnBalance.v_page v) = false)
  /\ (forall v, v ∈ JustifyGaps.scan isdigit_char jg cfg doc ->
     (1 <= JustifyGaps.v_page v <= total)%Z
     /\ JustifyGaps.ignored jg doc (JustifyGaps.v_page v) = false)
  /\ (forall v, v ∈ BulletOrphan.scan bo cfg doc ->
     (1 <= BulletOrphan.v_page v <= total)%Z
     /\ BulletOrphan.ignored bo doc (BulletOrphan.v_page v) = false)
  /\ (forall v, v ∈ BoxJustifyGaps.scan lower bx cfg doc ->
     (1 <= BoxJustifyGaps.v_page v <= total)%Z
     /\ (BoxJustifyGaps.ignore_first bx < BoxJustifyGaps.v_page v)%Z).
Proof.
  cbv zeta. split; [|split; [|split; [|split]]]; intros v H.
  - eapply (scan_elem _ _ PageFill.v_page); [|exact H].
    apply page_fill_check_page_page.
  - eapply (scan_elem _ _ ColumnBalance.v_page); [|exact H].
    apply column_balance_check_page_page.
  - eapply (scan_elem _ _ JustifyGaps.v_page); [|exact H].
    apply justify_check_page_page.
  - eapply (scan_elem _ (fun n pg => BulletOrphan.check_page cfg n pg)
              BulletOrphan.v_page); [|exact H].
    apply bullet_check_page_page.
  - eapply (scan_elem (fun n => (n <=? BoxJustifyGaps.ignore_first bx)%Z)
              (fun n pg => BoxJustifyGaps.check_page lower cfg n pg bx)
              BoxJustifyGaps.v_page) in H; [|apply box_check_page_page].
    destruct H as [H1 H2]. apply Z.leb_gt in H2. split; [exact H1 | exact H2].
Qed.

(** X25: a document with no more pages than [ignore_first] yields no
    violation in any gate that has the option. *)
Theorem short_document_passes (doc : Doc) (cfg : LayoutConfig)
    (pf : PageFill.Args) (cb : ColumnBalance.Args) (jg : JustifyGaps.Args)
    (bo : BulletOrphan.Args) (bx : BoxJustifyGaps.Args) :
  let total := Z.of_nat (length (pages doc)) in
  ((total <= PageFill.ignore_first pf)%Z -> PageFill.scan pf cfg doc = [])
  /\ ((total <= ColumnBalance.ignore_first cb)%Z -> ColumnBalance.scan cb cfg doc = [])
  /\ ((total <= JustifyGaps.ignore_first jg)%Z ->
      JustifyGaps.scan isdigit_char jg cfg doc = [])
  /\ ((total <= BulletOrphan.ignore_first bo)%Z -> BulletOrphan.scan bo cfg doc = [])
  /\ ((total <= BoxJustifyGaps.ignore_first bx)%Z ->
      BoxJustifyGaps.scan lower bx cfg doc = []).
Proof.
  cbv zeta.
  assert (Hc : forall f l t n, (n <= t)%Z -> (t <= f)%Z ->
            ignored_by_count f l t n = true).
  { intros f l t n H1 H2. unfold ignored_by_count.
    replace (n <=? f)%Z with true by (symmetry; apply Z.leb_le; lia). reflexivity. }
  repeat split; intros Hshort; apply for_pages_nil; intros n pg Hn.
  - unfold PageFill.ignored. rewrite Hc by lia. reflexivity.
  - unfold ColumnBalance.ignored. rewrite Hc by lia. reflexivity.
  - unfold JustifyGaps.ignored. rewrite Hc by lia. reflexivity.
  - unfold BulletOrphan.ignored. rewrite Hc by lia. reflexivity.
  - replace (n <=? BoxJustifyGaps.ignore_first bx)%Z with true
      by (symmetry; apply Z.leb_le; lia).
    reflexivity.
Qed.

End ReportFacts.

(** ** Heading-Hyphenation gate, further *)

Section HeadingMore.
Import Num Py Re Pdf Loop HeadingHyphenation.
Local Open Scope Q_scope.

Lemma latin_letter_not_space (c : char) : latin_letter c = true -> isspace c = false.
Proof.
  unfold latin_letter, isspace, in_range. intros H.
  apply not_true_iff_false. intros Hs.
  repeat (rewrite ?orb_true_iff, ?andb_true_iff, ?N.leb_le, ?N.eqb_eq in H).
  repeat (rewrite ?orb_true_iff, ?andb_true_iff, ?N.leb_le, ?N.eqb_eq in Hs).
  lia.
Qed.

(** Trimming on the left stops at the first character that is no white
    space, at the latest. *)
Lemma lstrip_keeps (pre : str) (c : char) (suf : str) :
  isspace c = false -> exists pre', lstrip (pre ++ c :: suf) = pre' ++ c :: suf.
Proof.
  intros Hc. induction pre as [|x pre IH].
  - exists []. apply lstrip_nonspace, Hc.
  - cbn [app lstrip]. destruct (isspace x); [exact IH|].
    exists (x :: pre). reflexivity.
Qed.

Lemma forallb_rev_true {A : Type} (p : A -> bool) (l : list A) :
  forallb p l = true -> forallb p (rev l) = true.
Proof.
  rewrite !forallb_forall. intros H x Hx. apply H, in_rev, Hx.
Qed.

Lemma strip_ends_with (pre : str) (c : char) (suf : str) :
  isspace c = false -> forallb isspace suf = true ->
  exists pre', strip (pre ++ c :: suf) = pre' ++ [c].
Proof.
  intros Hc Hsuf. unfold strip, rstrip.
  destruct (lstrip_keeps pre c suf Hc) as (pre' & ->).
  rewrite rev_app_distr. cbn [rev]. rewrite <- !app_assoc. cbn [app].
  rewrite lstrip_spaces by (apply forallb_rev_true; exact Hsuf).
  rewrite lstrip_nonspace by exact Hc.
  exists pre'. cbn [rev]. rewrite rev_involutive. reflexivity.
Qed.

Lemma strip_begins_with (sp : str) (c : char) (rest : str) :
  isspace c = false -> forallb isspace sp = true ->
  exists rest', strip (sp ++ c :: rest) = c :: rest'.
Proof.
  intros Hc Hsp. unfold strip, rstrip.
  rewrite lstrip_spaces by exact Hsp. rewrite lstrip_nonspace by exact Hc.
  cbn [rev]. destruct (lstrip_keeps (rev rest) c [] Hc) as (pre' & E).
  unfold str, char in *. rewrite E.
  rewrite rev_app_distr. cbn [rev app]. eauto.
Qed.

(** X26: every violation the gate reports shows a first line that ends with
    the hyphen and a second line that starts with the letter, both
    without surrounding white space. *)
Theorem heading_report_lines (threshold : Q) (doc : Doc) (v : Violation) :
  v ∈ scan threshold doc ->
  (exists pre, v_line1 v = pre ++ lit "-")
  /\ (exists c rest, v_line2 v = c :: rest /\ latin_letter c = true)
  /\ trimmed (v_line1 v) /\ trimmed (v_line2 v).
Proof.
  intros Hv. unfold scan in Hv. apply for_pages_elem in Hv.
  destruct Hv as (i & pg & _ & Hv). unfold check_page in Hv.
  apply list_elem_of_In, in_flat_map in Hv. destruct Hv as (lns & _ & Hv).
  apply list_elem_of_In, check_lines_elem in Hv.
  destruct Hv as (pre & l1 & l2 & post & _ & Hv).
  unfold check_pair in Hv.
  destruct (line_text_and_size l1) as [t1 s1], (line_text_and_size l2) as [t2 s2].
  destruct (Qltb s1 threshold) eqn:E1; [inversion Hv|].
  destruct (Qltb s2 threshold) eqn:E2; [inversion Hv|]. cbn [orb] in Hv.
  destruct (found ends_with_hyphen t1) eqn:F1; [|inversion Hv].
  destruct (found starts_letter t2) eqn:F2; [|inversion Hv].
  cbn [negb] in Hv. apply list_elem_of_singleton in Hv. subst v.
  cbn [v_line1 v_line2].
  apply found_ends_with_hyphen in F1. destruct F1 as (p & suf & -> & Hsuf).
  apply found_starts_letter in F2. destruct F2 as (sp & c & rest & -> & Hsp & Hc).
  split; [|split; [|split]].
  - apply (strip_ends_with p 45%N suf); [reflexivity | exact Hsuf].
  - destruct (strip_begins_with sp c rest (latin_letter_not_space c Hc) Hsp) as (r & ->).
    eauto.
  - apply strip_trimmed.
  - apply strip_trimmed.
Qed.

End HeadingMore.

Section HeadingMoreWitnesses.
Import Num Py Re Pdf HeadingHyphenation.
Local Open Scope Q_scope.

Lemma heading_report_lines_witness :
  let v := mkViolation 1 (lit "naslagw-") (lit "erken") 14 in
  let doc := mkDoc [mkPage 600 800 [] [] [[heading_line_1; heading_line_2]] []] [] in
  v ∈ scan 11.5 doc
  /\ (exists pre, v_line1 v = pre ++ lit "-")
  /\ (exists c rest, v_line2 v = c :: rest /\ latin_letter c = true)
  /\ trimmed (v_line1 v) /\ trimmed (v_line2 v).
Proof.
  cbv zeta.
  assert (H : mkViolation 1 (lit "naslagw-") (lit "erken") 14
              ∈ scan 11.5 (mkDoc [mkPage 600 800 [] [] [[heading_line_1; heading_line_2]] []] [])).
  { vm_compute. left. }
  split; [exact H|].
  exact (heading_report_lines 11.5 _ _ H).
Defined.

End HeadingMoreWitnesses.

(** ** Justification-Gap gate, further *)

Section JustifyGapsMore.
Import Num Py Pdf Geometry JustifyGaps.
Local Open Scope Q_scope.
Variable isdigit_char : char -> bool.

Lemma max_of_spec (gs : list Q) (g : Q) :
  In (max_of g gs) (g :: gs) /\ forall x, In x (g :: gs) -> x <= max_of g gs.
Proof.
  unfold max_of. revert g. induction gs as [|a gs IH]; intros g.
  - simpl. split; [auto | intros x [<-|[]]; apply Qle_refl].
  - cbn [fold_left]. destruct (IH (Qmax g a)) as [Hin Hle]. split.
    + destruct Hin as [E|Hin]; [|right; right; exact Hin].
      rewrite <- E. unfold Qmax, GenericMinMax.gmax.
      destruct (g ?= a); simpl; auto.
    + intros x [<-|[<-|Hx]].
      * eapply Qle_trans; [apply Q.le_max_l | apply Hle; left; reflexivity].
      * eapply Qle_trans; [apply Q.le_max_r | apply Hle; left; reflexivity].
      * apply Hle. right. exact Hx.
Qed.

(** X27: a line is reported exactly when it has at least two words, spans at
    least [min_span_ratio] of the column, and one of the gaps it
    considers exceeds [max_gap_pt]; the gaps considered are positive gaps
    between neighbouring words of the line sorted by [x0]. *)
Theorem justify_line_flagged_iff (args : Args) (col_w : Q) (ws : list word) (n col : Z) :
  (check_line isdigit_char args col_w ws n col <> [] <->
     (2 <= length ws)%nat
     /\ min_span_ratio args <= span_ratio col_w ws
     /\ exists g, In g (gaps isdigit_char ws) /\ max_gap_pt args < g)
  /\ (forall g, In g (gaps isdigit_char ws) ->
        0 < g /\ In g (adjacent_gaps (sorted_words ws))).
Proof.
  split.
  - unfold check_line.
    destruct (Nat.ltb_spec (length ws) 2) as [Hl|Hl].
    { split; [congruence | intros (H & _); lia]. }
    destruct (Qltb (span_ratio col_w ws) (min_span_ratio args)) eqn:Es.
    { apply Qltb_lt in Es. split; [congruence | intros (_ & H & _); lra]. }
    apply Qltb_ge in Es.
    destruct (gaps isdigit_char ws) as [|g gs] eqn:Eg.
    { split; [congruence | intros (_ & _ & x & [] & _)]. }
    destruct (max_of_spec gs g) as [Hin Hle].
    destruct (Qltb (max_gap_pt args) (max_of g gs)) eqn:Em.
    + apply Qltb_lt in Em. split; [|discriminate].
      intros _. split; [exact Hl|]. split; [exact Es|].
      exists (max_of g gs). split; assumption.
    + apply Qltb_ge in Em. split; [congruence|].
      intros (_ & _ & x & Hx & Hgt). apply Hle in Hx. lra.
  - intros g Hg. unfold gaps in Hg. apply filter_In in Hg.
    destruct Hg as [Hin Hg]. apply Qltb_lt in Hg. split; [exact Hg|].
    match type of Hin with
    | In _ (skipn ?k ?l) => rewrite <- (firstn_skipn k l); apply in_or_app; right; exact Hin
    end.
Qed.

Lemma key_eqb_spec (k key : Z * Z) :
  ((fst k =? fst key) && (snd k =? snd key))%Z = true <-> k = key.
Proof.
  destruct k, key. cbn [fst snd].
  rewrite andb_true_iff, !Z.eqb_eq. split; [intros [-> ->]; reflexivity|].
  intros E. injection E as -> ->. auto.
Qed.

Lemma setdefault_append_keys (key : Z * Z) (wd : word) (m : lines) :
  List.map fst (setdefault_append key wd m)
  = if bool_decide (key ∈ List.map fst m) then List.map fst m
    else List.map fst m ++ [key].
Proof.
  induction m as [|[k ws] m IH]; [reflexivity|].
  cbn [setdefault_append List.map fst].
  destruct (((fst k =? fst key) && (snd k =? snd key))%Z) eqn:E.
  - apply key_eqb_spec in E. subst k.
    rewrite bool_decide_eq_true_2 by (apply list_elem_of_In; left; reflexivity).
    reflexivity.
  - assert (Hne : k <> key).
    { intros ->. rewrite (proj2 (key_eqb_spec key key) eq_refl) in E. discriminate. }
    cbn [List.map fst]. rewrite IH.
    destruct (bool_decide (key ∈ List.map fst m)) eqn:B.
    + apply bool_decide_eq_true_1, list_elem_of_In in B.
      rewrite bool_decide_eq_true_2 by (apply list_elem_of_In; right; exact B).
      reflexivity.
    + apply bool_decide_eq_false_1 in B.
      rewrite bool_decide_eq_false_2; [reflexivity|].
      intros H. apply list_elem_of_In in H. destruct H as [H|H]; [exact (Hne H)|].
      apply B, list_elem_of_In, H.
Qed.

Lemma setdefault_append_In (key : Z * Z) (wd : word) (m : lines) (k : Z * Z)
    (ws : list word) :
  NoDup (List.map fst m) ->
  (In (k, ws) (setdefault_append key wd m) <->
     (k <> key /\ In (k, ws) m)
     \/ (k = key /\ exists ws0, In (key, ws0) m /\ ws = ws0 ++ [wd])
     \/ (k = key /\ ~ In key (List.map fst m) /\ ws = [wd])).
Proof.
  induction m as [|[k0 ws0] m IH]; intros Hnd.
  - cbn [setdefault_append]. split.
    + intros [E|[]]. injection E as <- <-. right. right. auto.
    + intros [(_ & [])|[(_ & x & [] & _)|(-> & _ & ->)]]. left. reflexivity.
  - cbn [List.map fst] in Hnd. apply NoDup_cons in Hnd. destruct Hnd as [Hk0 Hnd].
    rewrite list_elem_of_In in Hk0.
    specialize (IH Hnd). cbn [setdefault_append].
    destruct (((fst k0 =? fst key) && (snd k0 =? snd key))%Z) eqn:E.
    + apply key_eqb_spec in E. subst k0. split.
      * intros [H|H].
        -- injection H as <- <-. right. left. split; [reflexivity|].
           exists ws0. split; [left; reflexivity | reflexivity].
        -- left. split; [|right; exact H].
           intros ->. apply Hk0. apply in_map_iff. exists (key, ws). auto.
      * intros [(Hne & [H|H])|[(-> & x & [H|H] & ->)|(-> & Hn & _)]].
        -- injection H as -> _. congruence.
        -- right. exact H.
        -- injection H as ->. left. reflexivity.
        -- exfalso. apply Hk0. apply in_map_iff. exists (key, x). auto.
        -- exfalso. apply Hn. left. reflexivity.
    + assert (Hne : k0 <> key).
      { intros ->. rewrite (proj2 (key_eqb_spec key key) eq_refl) in E. discriminate. }
      split.
      * intros [H|H].
        -- injection H as <- <-. left. split; [exact Hne | left; reflexivity].
        -- apply IH in H.
           destruct H as [(H1 & H2)|[(-> & x & H1 & ->)|(-> & H1 & ->)]].
           ++ left. split; [exact H1 | right; exact H2].
           ++ right. left. split; [reflexivity|]. exists x. split; [right; exact H1 | reflexivity].
           ++ right. right. split; [reflexivity|]. split; [|reflexivity].
              intros [H|H]; [exact (Hne H) | exact (H1 H)].
      * intros [(H1 & [H|H])|[(-> & x & [H|H] & ->)|(-> & Hn & ->)]].
        -- left. exact H.
        -- right. apply IH. left. auto.
        -- injection H as -> _. congruence.
        -- right. apply IH. right. left. split; [reflexivity|]. exists x. auto.
        -- right. apply IH. right. right. split; [reflexivity|]. split; [|reflexivity].
           intros H. apply Hn. right. exact H.
Qed.

Lemma line_words_snoc (cfg : LayoutConfig) (n : Z) (pg : Page) (col : Z) (key : Z * Z)
    (words : list Word) (wd : Word) :
  line_words cfg n pg col key (words ++ [wd])
  = line_words cfg n pg col key words
    ++ (if bool_decide (word_column cfg n pg wd = Some col)
           && bool_decide (word_key wd = key)
        then [(w_rect wd, strip (w_text wd))] else []).
Proof.
  unfold line_words. rewrite List.filter_app, List.map_app. cbn [List.filter].
  destruct (_ && _); reflexivity.
Qed.

Lemma groups_of_skip (cfg : LayoutConfig) (n : Z) (pg : Page) (col : Z)
    (words : list Word) (wd : Word) (m : lines) :
  word_column cfg n pg wd <> Some col ->
  groups_of cfg n pg col words m -> groups_of cfg n pg col (words ++ [wd]) m.
Proof.
  intros Hc [Hnd H]. split; [exact Hnd|]. intros key ws.
  rewrite line_words_snoc, bool_decide_eq_false_2 by exact Hc.
  cbn [andb]. rewrite app_nil_r. apply H.
Qed.

Lemma groups_of_add (cfg : LayoutConfig) (n : Z) (pg : Page) (col : Z)
    (words : list Word) (wd : Word) (m : lines) :
  word_column cfg n pg wd = Some col ->
  groups_of cfg n pg col words m ->
  groups_of cfg n pg col (words ++ [wd])
    (setdefault_append (word_key wd) (w_rect wd, strip (w_text wd)) m).
Proof.
  intros Hc [Hnd H]. split.
  - rewrite setdefault_append_keys. destruct (bool_decide _) eqn:B; [exact Hnd|].
    apply bool_decide_eq_false_1 in B.
    apply NoDup_app. split; [exact Hnd|]. split; [|apply NoDup_singleton].
    intros x Hx Hx'. apply list_elem_of_singleton in Hx'. subst x.
    apply B. exact Hx.
  - intros key ws. rewrite setdefault_append_In by exact Hnd.
    rewrite line_words_snoc, bool_decide_eq_true_2 by exact Hc. cbn [andb].
    assert (Hkeys : forall k, In k (List.map fst m) <-> line_words cfg n pg col k words <> []).
    { intros k. split.
      - intros Hk. apply in_map_iff in Hk. destruct Hk as ([k' x] & Ek & Hin).
        cbn [fst] in Ek. subst k'.
        apply H in Hin. destruct Hin as [Hx Ex]. rewrite <- Ex. exact Hx.
      - intros Hk. apply in_map_iff. exists (k, line_words cfg n pg col k words).
        split; [reflexivity|]. apply H. auto. }
    split.
    + intros [(Hne & Hin)|[(-> & x & Hin & ->)|(-> & Hn & ->)]].
      * apply H in Hin. destruct Hin as [Hx ->].
        rewrite bool_decide_eq_false_2 by congruence. rewrite app_nil_r. auto.
      * apply H in Hin. destruct Hin as [Hx ->].
        rewrite bool_decide_eq_true_2 by reflexivity.
        split; [destruct (line_words _ _ _ _ _ _); discriminate | reflexivity].
      * rewrite bool_decide_eq_true_2 by reflexivity.
        split; [discriminate|].
        destruct (line_words cfg n pg col (word_key wd) words) eqn:E; [reflexivity|].
        exfalso. apply Hn, Hkeys. rewrite E. discriminate.
    + intros [Hne ->]. destruct (bool_decide (word_key wd = key)) eqn:B.
      * apply bool_decide_eq_true_1 in B. subst key.
        destruct (line_words cfg n pg col (word_key wd) words) as [|a l] eqn:E.
        -- right. right. split; [reflexivity|]. split; [|reflexivity].
           intros Hk. apply Hkeys in Hk. apply Hk, E.
        -- right. left. split; [reflexivity|]. exists (a :: l).
           split; [|reflexivity]. apply H. rewrite E. split; [discriminate | reflexivity].
      * apply bool_decide_eq_false_1 in B. rewrite app_nil_r in *.
        left. split; [congruence|]. apply H. auto.
Qed.

Lemma word_step_column (cfg : LayoutConfig) (n : Z) (pg : Page) (m : lines * lines)
    (wd : Word) :
  word_step cfg n pg m wd
  = match word_column cfg n pg wd with
    | Some 0%Z =>
        (setdefault_append (word_key wd) (w_rect wd, strip (w_text wd)) (fst m), snd m)
    | Some _ =>
        (fst m, setdefault_append (word_key wd) (w_rect wd, strip (w_text wd)) (snd m))
    | None => m
    end.
Proof.
  unfold word_step, word_column.
  destruct (strip (w_text wd)); [reflexivity|].
  repeat match goal with
  | |- context [if ?c then _ else _] => destruct c
  end; reflexivity.
Qed.

Lemma word_column_cases (cfg : LayoutConfig) (n : Z) (pg : Page) (wd : Word) :
  word_column cfg n pg wd = None \/ word_column cfg n pg wd = Some 0%Z
  \/ word_column cfg n pg wd = Some 1%Z.
Proof.
  unfold word_column. destruct (strip (w_text wd)); [auto|].
  repeat match goal with
  | |- context [if ?c then _ else _] => destruct c
  end; auto.
Qed.

(** X28: each of the two dictionaries of a page has distinct keys, and the
    line stored under a key is the non-empty list of the words of that
    column with that [(block_no, line_no)], trimmed, in the order of the
    page's word list. *)
Theorem lines_by_col_groups (cfg : LayoutConfig) (n : Z) (pg : Page) :
  groups_of cfg n pg 0 (pg_words pg) (fst (lines_by_col cfg n pg))
  /\ groups_of cfg n pg 1 (pg_words pg) (snd (lines_by_col cfg n pg)).
Proof.
  unfold lines_by_col.
  induction (pg_words pg) as [|wd words IH] using rev_ind.
  - cbn [fold_left fst snd].
    assert (Hnil : forall col, groups_of cfg n pg col [] []).
    { intros col. split; [apply NoDup_nil_2|]. intros key ws. cbn. split.
      - intros [].
      - intros [H E]. exfalso. apply H. rewrite E. reflexivity. }
    split; apply Hnil.
  - rewrite fold_left_app. cbn [fold_left]. rewrite word_step_column.
    destruct IH as [IHl IHr].
    destruct (word_column_cases cfg n pg wd) as [E|[E|E]]; rewrite E; cbn [fst snd].
    + split; apply groups_of_skip; try assumption; rewrite E; discriminate.
    + split; [apply groups_of_add; assumption|].
      apply groups_of_skip; [rewrite E; discriminate | assumption].
    + split; [|apply groups_of_add; assumption].
      apply groups_of_skip; [rewrite E; discriminate | assumption].
Qed.

End JustifyGapsMore.

(** ** Box justification gate *)

Section SortedByFacts.
Import Py.

Lemma insert_by_perm {A : Type} (lt : A -> A -> bool) (x : A) (l : list A) :
  Permutation (insert_by lt x l) (x :: l).
Proof.
  induction l as [|y l IH]; [reflexivity|].
  cbn [insert_by]. destruct (lt y x); [|reflexivity].
  rewrite IH. apply perm_swap.
Qed.

Lemma sorted_by_perm {A : Type} (lt : A -> A -> bool) (l : list A) :
  Permutation (sorted_by lt l) l.
Proof.
  induction l as [|x l IH]; [reflexivity|].
  change (sorted_by lt (x :: l)) with (insert_by lt x (sorted_by lt l)).
  rewrite insert_by_perm, IH. reflexivity.
Qed.

Lemma insert_by_sorted {A : Type} (lt : A -> A -> bool) (le : A -> A -> Prop)
    (x : A) (l : list A) :
  (forall a b, lt a b = true -> le a b) ->
  (forall a b, lt a b = false -> le b a) ->
  Sorted le l -> Sorted le (insert_by lt x l).
Proof.
  intros Ht Hf. induction l as [|y l IH]; intros Hs.
  - repeat constructor.
  - cbn [insert_by]. destruct (lt y x) eqn:E.
    + apply Sorted_inv in Hs. destruct Hs as [Hs Hd]. constructor; [apply IH, Hs|].
      destruct l as [|z l]; cbn [insert_by]; [constructor; apply Ht, E|].
      destruct (lt z x); constructor; [|apply Ht, E].
      apply HdRel_inv in Hd. exact Hd.
    + constructor; [exact Hs|]. constructor. apply Hf, E.
Qed.

Lemma sorted_by_sorted {A : Type} (lt : A -> A -> bool) (le : A -> A -> Prop)
    (l : list A) :
  (forall a b, lt a b = true -> le a b) ->
  (forall a b, lt a b = false -> le b a) ->
  Sorted le (sorted_by lt l).
Proof.
  intros Ht Hf. induction l as [|x l IH]; [constructor|].
  change (sorted_by lt (x :: l)) with (insert_by lt x (sorted_by lt l)).
  apply insert_by_sorted; assumption.
Qed.

End SortedByFacts.

Section BoxJustifyGapsFacts.
Import Num Py Pdf Geometry BoxJustifyGaps.
Local Open Scope Q_scope.
Variable lower : str -> str.

Lemma place_spec (tol : Q) (wd : word) (cs cs' : list Cluster) :
  place tol wd cs = Some cs' ->
  Permutation (concat (List.map c_words cs')) (wd :: concat (List.map c_words cs))
  /\ (well_counted cs -> well_counted cs').
Proof.
  revert cs'. induction cs as [|c cs IH]; intros cs' H; [discriminate|].
  cbn [place] in H. destruct (Qle_bool _ tol).
  - injection H as <-. cbn [List.map concat c_words]. split.
    + rewrite <- app_assoc. cbn [app]. symmetry. apply Permutation_middle.
    + intros Hw. apply Forall_cons in Hw. destruct Hw as [[Hc Hn] Hw].
      apply Forall_cons. split; [|exact Hw]. cbn [c_words c_n]. split.
      * destruct (c_words c); discriminate.
      * rewrite length_app. cbn [length]. lia.
  - destruct (place tol wd cs) as [r|] eqn:E; [|discriminate].
    injection H as <-. destruct (IH r eq_refl) as [Hp Hw]. split.
    + cbn [List.map concat]. rewrite Hp. symmetry. apply Permutation_middle.
    + intros Hc. apply Forall_cons in Hc. destruct Hc as [Hc Hcs].
      apply Forall_cons. split; [exact Hc | apply Hw, Hcs].
Qed.

Lemma cluster_step_spec (tol : Q) (cs : list Cluster) (wd : word) :
  Permutation (concat (List.map c_words (cluster_step tol cs wd)))
    (wd :: concat (List.map c_words cs))
  /\ (well_counted cs -> well_counted (cluster_step tol cs wd)).
Proof.
  unfold cluster_step. destruct (place tol wd cs) as [cs'|] eqn:E.
  - apply (place_spec tol). exact E.
  - split.
    + rewrite List.map_app, concat_app. cbn [List.map concat c_words].
      rewrite app_nil_r. symmetry. apply Permutation_cons_append.
    + intros Hw. apply Forall_app. split; [exact Hw|].
      apply Forall_cons. split; [|constructor]. cbn. split; [discriminate | reflexivity].
Qed.

Lemma fold_cluster_step_spec (tol : Q) (ws : list word) (cs : list Cluster) :
  Permutation (concat (List.map c_words (fold_left (cluster_step tol) ws cs)))
    (concat (List.map c_words cs) ++ ws)
  /\ (well_counted cs -> well_counted (fold_left (cluster_step tol) ws cs)).
Proof.
  revert cs. induction ws as [|wd ws IH]; intros cs.
  - cbn [fold_left]. rewrite app_nil_r. auto.
  - cbn [fold_left]. destruct (IH (cluster_step tol cs wd)) as [Hp Hw].
    destruct (cluster_step_spec tol cs wd) as [Hp' Hw']. split.
    + rewrite Hp, Hp'. cbn [app]. apply Permutation_middle.
    + auto.
Qed.

Lemma concat_perm {A : Type} (l l' : list (list A)) :
  Permutation l l' -> Permutation (concat l) (concat l').
Proof.
  induction 1; cbn [concat].
  - reflexivity.
  - apply Permutation_app_head. assumption.
  - rewrite !app_assoc. apply Permutation_app_tail, Permutation_app_comm.
  - etransitivity; eassumption.
Qed.

Lemma concat_map_perm {A : Type} (f : list A -> list A) (l : list (list A)) :
  (forall x, Permutation (f x) x) ->
  Permutation (concat (List.map f l)) (concat l).
Proof.
  intros Hf. induction l as [|x l IH]; [reflexivity|].
  cbn [List.map concat]. rewrite Hf, IH. reflexivity.
Qed.

(** X29: [cluster_lines] only regroups the words: the lines together hold
    exactly the words given, no line is empty, the words of a line are
    ordered by [x0] and the lines by [y]. *)
Theorem cluster_lines_regroups (words : list word) (tol : Q) :
  Permutation (concat (List.map snd (cluster_lines words tol))) words
  /\ Forall (fun yl => snd yl <> []
                       /\ Sorted (fun a b : word => x0 (fst a) <= x0 (fst b)) (snd yl))
       (cluster_lines words tol)
  /\ Sorted (fun a b : Q * list word => fst a <= fst b) (cluster_lines words tol).
Proof.
  unfold cluster_lines.
  set (cs := fold_left (cluster_step tol) (sorted_by by_y_then_x words) []).
  destruct (fold_cluster_step_spec tol (sorted_by by_y_then_x words) []) as [Hp Hw].
  fold cs in Hp, Hw. cbn [List.map concat app] in Hp.
  assert (Hw0 : well_counted []) by constructor.
  specialize (Hw Hw0).
  set (lt := fun a b : Q * list word => Qltb (fst a) (fst b)).
  set (f := fun c => (c_y c, sorted_by by_x (c_words c))).
  assert (Hs : Permutation (sorted_by lt (List.map f cs)) (List.map f cs))
    by apply sorted_by_perm.
  split; [|split].
  - rewrite (concat_perm _ _ (Permutation_map snd Hs)).
    rewrite List.map_map. unfold f. cbn [snd].
    rewrite <- (List.map_map c_words (sorted_by by_x)).
    rewrite concat_map_perm by (intros x; apply sorted_by_perm).
    rewrite Hp. apply sorted_by_perm.
  - apply Forall_forall. intros yl Hyl. apply list_elem_of_In in Hyl.
    apply (Permutation_in _ Hs) in Hyl. apply in_map_iff in Hyl.
    destruct Hyl as (c & <- & Hc). unfold f. cbn [snd].
    unfold well_counted in Hw. rewrite Forall_forall in Hw.
    destruct (Hw c (proj2 (list_elem_of_In _ _) Hc)) as [Hne _]. split.
    + intros E. apply Hne. apply Permutation_nil.
      rewrite <- E. apply sorted_by_perm.
    + apply sorted_by_sorted; unfold by_x; intros a b H.
      * apply Qltb_lt in H. lra.
      * apply Qltb_ge in H. exact H.
  - apply sorted_by_sorted; unfold lt; intros a b H.
    + apply Qltb_lt in H. lra.
    + apply Qltb_ge in H. exact H.
Qed.

Lemma adjacent_gaps_nonempty (ws : list word) :
  (2 <= length ws)%nat -> JustifyGaps.adjacent_gaps ws <> [].
Proof.
  destruct ws as [|a [|b ws]]; cbn [length]; try lia. intros _. discriminate.
Qed.

(** X30: a clustered line is reported exactly when one of its tokens is the
    label [praktijk:] or [verdieping:] in any case, it has at least two
    words, and some gap between neighbouring words exceeds [max_gap_pt];
    the span of the line plays no part. *)
Theorem box_line_flagged_iff (args : Args) (n col : Z) (y : Q) (ws : list word) :
  check_line lower args n col y ws <> [] <->
    (exists t, In t (List.map snd ws)
               /\ (lower t = lit "praktijk:" \/ lower t = lit "verdieping:"))
    /\ (2 <= length ws)%nat
    /\ exists g, In g (JustifyGaps.adjacent_gaps ws) /\ max_gap_pt args < g.
Proof.
  unfold check_line. cbv zeta.
  set (has := fun l : str =>
         existsb (fun t => bool_decide (t = l)) (List.map lower (List.map snd ws))).
  assert (Hhas : forall l, has l = true <-> exists t, In t (List.map snd ws) /\ lower t = l).
  { intros l. unfold has. rewrite existsb_exists. split.
    - intros (x & Hx & E). apply in_map_iff in Hx. destruct Hx as (t & <- & Ht).
      apply bool_decide_eq_true_1 in E. eauto.
    - intros (t & Ht & E). exists (lower t). split; [apply in_map, Ht|].
      apply bool_decide_eq_true_2, E. }
  fold (has (lit "praktijk:")). fold (has (lit "verdieping:")).
  assert (Hlab : negb (has (lit "praktijk:")) && negb (has (lit "verdieping:")) = false
                 <-> exists t, In t (List.map snd ws)
                      /\ (lower t = lit "praktijk:" \/ lower t = lit "verdieping:")).
  { destruct (has (lit "praktijk:")) eqn:A; [|destruct (has (lit "verdieping:")) eqn:B].
    - apply Hhas in A. destruct A as (t & Ht & E). cbn. split; [eauto | reflexivity].
    - apply Hhas in B. destruct B as (t & Ht & E). cbn. split; [eauto | reflexivity].
    - cbn. split; [discriminate|]. intros (t & Ht & [E|E]).
      + assert (X : has (lit "praktijk:") = true) by (apply Hhas; eauto). congruence.
      + assert (X : has (lit "verdieping:") = true) by (apply Hhas; eauto). congruence. }
  destruct (negb (has (lit "praktijk:")) && negb (has (lit "verdieping:"))) eqn:El.
  { split; [congruence|]. intros (H & _). apply Hlab in H. discriminate. }
  destruct (Nat.ltb_spec (length ws) 2) as [Hl|Hl].
  { split; [congruence | intros (_ & H & _); lia]. }
  pose proof (adjacent_gaps_nonempty ws Hl) as Hg.
  destruct (JustifyGaps.adjacent_gaps ws) as [|g gs]; [congruence|].
  destruct (max_of_spec gs g) as [Hin Hle].
  destruct (Qltb (max_gap_pt args) (JustifyGaps.max_of g gs)) eqn:Em.
  - apply Qltb_lt in Em. split; [|discriminate]. intros _.
    split; [apply Hlab; reflexivity|]. split; [exact Hl|]. eauto.
  - apply Qltb_ge in Em. split; [congruence|].
    intros (_ & _ & x & Hx & Hgt). apply Hle in Hx. lra.
Qed.

End BoxJustifyGapsFacts.


(** ** The model at work *)

Section Runs.
Import Py Re Pdf Geometry.
Local Open Scope Q_scope.

(** Overlapping, repeated and empty intervals: [1,5] and [7,8]. *)
Example union_len_of_five :
  Coverage.union_len [(1, 3); (2, 5); (7, 8); (4, 4); (2, 5)] == 5.
Proof. vm_compute. reflexivity. Qed.

(** Example B of the specification: one block from y = 40 to y = 400 in a
    body of height 720 uses half of it, below the default 0.60. *)
Example page_fill_half_page :
  let pg := mkPage 600 800 [mkBlock (mkRect 40 40 240 400) (lit "text")] [] [] [] in
  PageFill.used_ratio example_A_config 3 pg == 0.5
  /\ List.map PageFill.v_page
       (PageFill.scan PageFill.default_args example_A_config
          (mkDoc [blank_page; blank_page; pg] [])) = [3%Z].
Proof. split; vm_compute; reflexivity. Qed.

(** Of the four pages of [sample_doc] the first two are ignored and the
    third, with its sparse right column, is the one reported. *)
Example column_balance_reports_page_3 :
  List.map (fun v => (ColumnBalance.v_page v, ColumnBalance.v_full_side v))
    (ColumnBalance.scan ColumnBalance.default_args example_A_config sample_doc)
  = [(3%Z, ColumnBalance.Left)].
Proof. vm_compute. reflexivity. Qed.

(** A short line with a 100pt gap passes, the same words spread over the
    column do not. *)
Example justify_gap_wide_line :
  List.map JustifyGaps.v_page
    (JustifyGaps.check_line in_range_digit JustifyGaps.default_args 252.5
       [(mkRect 30 100 50 110, lit "een"); (mkRect 250 100 280 110, lit "twee")] 3 0)
  = [3%Z].
Proof. vm_compute. reflexivity. Qed.

(** What a record keeps of a ratio: three decimals, a tie going to the
    even digit. *)
Example round_values :
  Num.round 0.9234 3 == 0.923 /\ Num.round 0.9236 3 == 0.924
  /\ Num.round 0.125 2 == 0.12 /\ Num.round 2.5 0 == 2 /\ Num.round 14 2 == 14.
Proof. repeat split; vm_compute; reflexivity. Qed.

(** The declarations of a root block that spans several lines; the line
    without a declaration is skipped. *)
Example parse_css_vars_block :
  Loader.parse_css_vars
    (Some (lit ":root {" ++ [10%N] ++ lit "  --margin-top: 20mm;" ++ [10%N]
           ++ lit "  --col-gap:9mm ;" ++ [10%N] ++ lit "  bogus" ++ [10%N]
           ++ lit "}" ++ [10%N]))
  = <[lit "--col-gap" := lit "9mm"]> {[ lit "--margin-top" := lit "20mm" ]}.
Proof. vm_compute. reflexivity. Qed.

(** What the root pattern with doubled backslashes does match. *)
Example root_re_escaped_match :
  search Loader.root_re_escaped (lit ":root\sss\{\sS\}") = Some [lit "\sS"].
Proof. vm_compute. reflexivity. Qed.

End Runs.
